(** * VirusGenealogy: a shallow embedding of [virus_genealogy.h]

    The class template [VirusGenealogy<Virus>] keeps a graph of nodes, one
    per virus identifier, each node holding the identifiers of its children
    and of its parents.  This file embeds the class as state-passing
    programs in a small state-and-exception monad and proves the properties
    of its public interface.

    - [std::map<id_type, Node>] is a [gmap K Node];
    - [std::set<id_type>] is a [gset K], walked in ascending order
      ([ascending]);
    - [std::set<Virus, set_compare>] holds at most one virus per identifier
      and is never walked, so it is a [gmap K Virus] keyed by [get_id];
    - a C++ exception is an [exception]; a member function is a program
      of type [M A], which receives the object and returns it together
      with [Ret a] or [Throw e];
    - comparisons, copies and constructors of the template parameters may
      throw: every container operation that runs one of them goes through
      [may_throw], driven by the [fuse] of the state. *)

From stdpp Require Import gmap sorting list fin_maps fin_sets.

Set Default Proof Using "Type*".
Set Warnings "-clear-no-such-hyp".

(** ** Exceptions and outcomes *)

Inductive exception : Type :=
  | VirusNotFound
  | VirusAlreadyCreated
  | TriedToRemoveStemVirus
  | OutOfRange        (* [std::out_of_range], thrown by [map::at] *)
  | ForeignException  (* thrown by a comparison, copy or constructor of the
                         template parameters *)
  | InvalidDeref      (* an end iterator was dereferenced *)
  | StackExhausted.   (* the recursion budget of [remove_helper] ran out *)

Inductive outcome (A : Type) : Type :=
  | Ret (a : A)
  | Throw (e : exception).
Arguments Ret {A} a.
Arguments Throw {A} e.

Global Instance exception_eq_dec : EqDecision exception.
Proof. solve_decision. Defined.

(** ** Template parameters

    [Virus::id_type] is any type with a total order; [Virus] is built from
    an identifier and gives it back through [get_id]. *)

Class IdType (K : Type) `{Countable K} : Type := {
  id_le : relation K;
  id_le_dec :: RelDecision id_le;
  id_le_po :: PartialOrder id_le;
  id_le_total :: Total id_le
}.

Class VirusType (K V : Type) : Type := {
  Virus_ctor : K → V;
  get_id : V → K;
  get_id_ctor : ∀ k, get_id (Virus_ctor k) = k
}.

(** ** The monad

    A program receives the object it is called on and returns it with
    its result: [Ret a], or [Throw e] when an exception leaves it. *)

Definition M (S A : Type) : Type := S → outcome A * S.

Definition ret {S A} (a : A) : M S A := λ σ, (Ret a, σ).
Definition throw {S A} (e : exception) : M S A := λ σ, (Throw e, σ).
Definition bind {S A B} (m : M S A) (k : A → M S B) : M S B :=
  λ σ, match m σ with
       | (Ret a, σ') => k a σ'
       | (Throw e, σ') => (Throw e, σ')
       end.

(** [try { m } catch (...) { h; throw; }] *)
Definition catch_rethrow {S A} (m : M S A) (h : M S unit) : M S A :=
  λ σ, match m σ with
       | (Ret a, σ') => (Ret a, σ')
       | (Throw e, σ') =>
           match h σ' with
           | (Ret _, σ'') => (Throw e, σ'')
           | (Throw e', σ'') => (Throw e', σ'')
           end
       end.

Notation "x <- m ;; k" := (bind m (λ x, k))
  (at level 100, m at next level, right associativity).
Notation "m ;;; k" := (bind m (λ _, k))
  (at level 100, right associativity).

Fixpoint for_each {S A B} (f : A → B → M S A) (l : list B) (a : A) : M S A :=
  match l with
  | [] => ret a
  | b :: l' => a' <- f a b ;; for_each f l' a'
  end.

Section genealogy.
Context {K : Type} `{IdType K} {Virus : Type} `{!VirusType K Virus}.

(** Elements of a [std::set<id_type>] in iteration order. *)
Definition ascending (s : gset K) : list K := merge_sort id_le (elements s).

(** ** The class members *)

Record Node : Type := mkNode {
  children : gset K;
  parents : gset K;
  virus : K
}.

Record state : Type := mkState {
  graph : gmap K Node;
  virus_set : gmap K Virus;
  stem_id : K;
  (** [Some n]: the next [n] operations that may throw succeed and the one
      after them throws; [None]: nothing throws. *)
  fuse : option nat
}.

Definition with_graph (g : gmap K Node) (σ : state) : state :=
  mkState g (virus_set σ) (stem_id σ) (fuse σ).
Definition with_virus_set (vs : gmap K Virus) (σ : state) : state :=
  mkState (graph σ) vs (stem_id σ) (fuse σ).
Definition with_fuse (f : option nat) (σ : state) : state :=
  mkState (graph σ) (virus_set σ) (stem_id σ) f.

Definition set_children (s : gset K) (n : Node) : Node :=
  mkNode s (parents n) (virus n).
Definition set_parents (s : gset K) (n : Node) : Node :=
  mkNode (children n) s (virus n).

(** A point where user code (comparison, copy, constructor) runs. *)
Definition may_throw : M state unit :=
  λ σ, match fuse σ with
       | None => (Ret tt, σ)
       | Some 0 => (Throw ForeignException, with_fuse None σ)
       | Some (S n) => (Ret tt, with_fuse (Some n) σ)
       end.

Definition get_graph : M state (gmap K Node) := λ σ, (Ret (graph σ), σ).
Definition put_graph (g : gmap K Node) : M state unit := λ σ, (Ret tt, with_graph g σ).
Definition get_virus_set : M state (gmap K Virus) := λ σ, (Ret (virus_set σ), σ).
Definition put_virus_set (vs : gmap K Virus) : M state unit :=
  λ σ, (Ret tt, with_virus_set vs σ).

(** ** Container operations *)

Definition copy {A} (a : A) : M state A := may_throw ;;; ret a.

Definition deref {A} (it : option A) : M state A :=
  match it with
  | Some a => ret a
  | None => throw InvalidDeref
  end.

Definition map_contains (g : gmap K Node) (id : K) : M state bool :=
  may_throw ;;; ret (bool_decide (is_Some (g !! id))).

Definition map_find (g : gmap K Node) (id : K) : M state (option Node) :=
  may_throw ;;; ret (g !! id).

Definition map_at (g : gmap K Node) (id : K) : M state Node :=
  may_throw ;;;
  match g !! id with
  | Some n => ret n
  | None => throw OutOfRange
  end.

(** [map::insert] keeps an element that is already there. *)
Definition map_insert (g : gmap K Node) (id : K) (n : Node) : M state (gmap K Node) :=
  may_throw ;;;
  ret (match g !! id with Some _ => g | None => <[id := n]> g end).

Definition map_erase (g : gmap K Node) (id : K) : M state (gmap K Node) :=
  may_throw ;;; ret (delete id g).

Definition set_insert (s : gset K) (x : K) : M state (gset K) :=
  may_throw ;;; ret (s ∪ {[x]}).

Definition set_erase (s : gset K) (x : K) : M state (gset K) :=
  may_throw ;;; ret (s ∖ {[x]}).

Definition set_contains (s : gset K) (x : K) : M state bool :=
  may_throw ;;; ret (bool_decide (x ∈ s)).

Definition push_back {A} (l : list A) (x : A) : M state (list A) :=
  may_throw ;;; ret (l ++ [x]).

(** [virus_set.insert(v)]: the first virus with a given identifier stays. *)
Definition virus_set_insert (vs : gmap K Virus) (v : Virus) : M state (gmap K Virus) :=
  may_throw ;;;
  ret (match vs !! get_id v with Some _ => vs | None => <[get_id v := v]> vs end).

Definition virus_set_find (vs : gmap K Virus) (v : Virus) : M state (option Virus) :=
  may_throw ;;; ret (vs !! get_id v).

Definition construct_virus (id : K) : M state Virus :=
  may_throw ;;; ret (Virus_ctor id).

(** Operations on the live [graph] member that cannot throw:
    [std::swap] of a set of a node, and [erase] through an iterator. *)
Definition swap_children (id : K) (s : gset K) : M state unit :=
  λ σ, (Ret tt, with_graph (alter (set_children s) id (graph σ)) σ).
Definition swap_parents (id : K) (s : gset K) : M state unit :=
  λ σ, (Ret tt, with_graph (alter (set_parents s) id (graph σ)) σ).
Definition erase_iterator (id : K) : M state unit :=
  λ σ, (Ret tt, with_graph (delete id (graph σ)) σ).

(** ** Member functions *)

(** [VirusGenealogy(stem_id)] *)
Definition construct (stem : K) : state :=
  mkState {[stem := mkNode ∅ ∅ stem]} ∅ stem None.

Definition exists_ (id : K) : M state bool :=
  g <- get_graph ;; map_contains g id.

Definition get_stem_id : M state K := λ σ, (Ret (stem_id σ), σ).

Definition create_virus_set (ids : list K) : M state (gset K) :=
  for_each (λ result id,
      g <- get_graph ;;
      it <- map_find g id ;;
      n <- deref it ;;
      set_insert result (virus n))
    ids ∅.

(** [operator[]] *)
Definition subscript (id : K) : M state Virus :=
  g <- get_graph ;;
  result <- map_find g id ;;
  match result with
  | Some n =>
      v <- construct_virus (virus n) ;;
      vs <- get_virus_set ;;
      vs' <- virus_set_insert vs v ;;
      put_virus_set vs' ;;;
      key <- construct_virus (virus n) ;;
      vs <- get_virus_set ;;
      it <- virus_set_find vs key ;;
      deref it
  | None => throw VirusNotFound
  end.

(** [create(id, parent_id)] *)
Definition create (id parent_id : K) : M state unit :=
  b <- exists_ id ;;
  if b : bool then throw VirusAlreadyCreated else
  b <- exists_ parent_id ;;
  if negb b then throw VirusNotFound else
  g <- get_graph ;;
  it <- map_find g parent_id ;;
  pn <- deref it ;;
  parents <- set_insert ∅ (virus pn) ;;
  node <- copy (mkNode ∅ parents id) ;;
  g' <- map_insert g id node ;;
  put_graph g' ;;;
  catch_rethrow
    (g <- get_graph ;;
     it_parent <- map_find g parent_id ;;
     pn <- deref it_parent ;;
     child_vector_cp <- copy (children pn) ;;
     inserted <- deref (g !! id) ;;
     child_vector_cp <- set_insert child_vector_cp (virus inserted) ;;
     swap_children parent_id child_vector_cp)
    (erase_iterator id).

(** [create(id, parent_ids)] *)
Definition create_multi (id : K) (parent_ids : list K) : M state unit :=
  b <- exists_ id ;;
  if b : bool then throw VirusAlreadyCreated else
  for_each (λ _ parent_id,
      b <- exists_ parent_id ;;
      if negb b then throw VirusNotFound else ret tt)
    parent_ids tt ;;;
  if bool_decide (length parent_ids = 0) then ret tt else
  parents <- create_virus_set parent_ids ;;
  g <- get_graph ;;
  node <- copy (mkNode ∅ parents id) ;;
  g' <- map_insert g id node ;;
  put_graph g' ;;;
  to_swap <- catch_rethrow
    (for_each (λ (to_swap : list (gset K * K)) parent,
         g <- get_graph ;;
         it_parent <- map_find g parent ;;
         pn <- deref it_parent ;;
         child_vector_cp <- copy (children pn) ;;
         inserted <- deref (g !! id) ;;
         child_vector_cp <- set_insert child_vector_cp (virus inserted) ;;
         push_back to_swap (child_vector_cp, parent))
       parent_ids [])
    (erase_iterator id) ;;
  for_each (λ _ (back : gset K * K), swap_children back.2 back.1)
    (reverse to_swap) tt.

(** [get_parents(id)] *)
Definition get_parents (id : K) : M state (list K) :=
  b <- exists_ id ;;
  if negb b then throw VirusNotFound else
  g <- get_graph ;;
  n <- map_at g id ;;
  set_of_parents <- copy (parents n) ;;
  for_each push_back (ascending set_of_parents) [].

(** [connect(child_id, parent_id)] *)
Definition connect (child_id parent_id : K) : M state unit :=
  b <- exists_ child_id ;;
  if negb b then throw VirusNotFound else
  b <- exists_ parent_id ;;
  if negb b then throw VirusNotFound else
  g <- get_graph ;;
  it_child <- map_find g child_id ;;
  child_node <- deref it_child ;;
  it_parent <- map_find g parent_id ;;
  parent_node <- deref it_parent ;;
  b <- set_contains (parents child_node) parent_id ;;
  if b : bool then ret tt else
  child_parents_cp <- copy (parents child_node) ;;
  parent_children_cp <- copy (children parent_node) ;;
  child_parents_cp <- set_insert child_parents_cp (virus parent_node) ;;
  parent_children_cp <- set_insert parent_children_cp (virus child_node) ;;
  swap_parents child_id child_parents_cp ;;;
  swap_children parent_id parent_children_cp.

(** [remove_helper(copied_graph, id)].  The function recurses on the
    children that lose their last parent; [fuel] bounds the depth of the
    recursion.  The first loop walks the parent set of [id] in
    [copied_graph] and changes child sets only, so the set it walks is the
    one read before the loop. *)
Fixpoint remove_helper (fuel : nat) (copied_graph : gmap K Node) (id : K)
    : M state (gmap K Node) :=
  match fuel with
  | 0 => throw StackExhausted
  | S fuel' =>
      n <- map_at copied_graph id ;;
      children_set_copy <- copy (children n) ;;
      n <- map_at copied_graph id ;;
      copied_graph <- for_each (λ copied_graph it,
          _ <- map_at copied_graph id ;;
          pn <- map_at copied_graph it ;;
          g <- get_graph ;;
          live <- map_at g id ;;
          s <- set_erase (children pn) (virus live) ;;
          ret (<[it := set_children s pn]> copied_graph))
        (ascending (parents n)) copied_graph ;;
      _ <- map_at copied_graph id ;;
      copied_graph <- for_each (λ copied_graph it,
          cn <- map_at copied_graph it ;;
          if bool_decide (size (parents cn) = 1) then
            arg <- copy copied_graph ;;
            remove_helper fuel' arg it
          else
            cn <- map_at copied_graph it ;;
            g <- get_graph ;;
            live <- map_at g id ;;
            s <- set_erase (parents cn) (virus live) ;;
            ret (<[it := set_parents s cn]> copied_graph))
        (ascending children_set_copy) copied_graph ;;
      map_erase copied_graph id
  end.

(** [remove(id)] *)
Definition remove (fuel : nat) (id : K) : M state unit :=
  b <- exists_ id ;;
  if negb b then throw VirusNotFound else
  stem <- get_stem_id ;;
  may_throw ;;;
  if bool_decide (id = stem) then throw TriedToRemoveStemVirus else
  g <- get_graph ;;
  copied_graph <- copy g ;;
  arg <- copy copied_graph ;;
  tmp <- remove_helper fuel arg id ;;
  put_graph tmp.

(** ** [children_iterator]

    A position in the child set of a node, as the sequence being walked and
    an index into it, together with the iterator's own copy of
    [virus_set]. *)
Record children_iterator : Type := mkIterator {
  children_seq : list K;
  children_vec_it : nat;
  it_virus_set : gmap K Virus
}.

Definition get_children_begin (id : K) : M state children_iterator :=
  b <- exists_ id ;;
  if negb b then throw VirusNotFound else
  g <- get_graph ;;
  it <- map_find g id ;;
  n <- deref it ;;
  vs <- get_virus_set ;;
  vs <- copy vs ;;
  ret (mkIterator (ascending (children n)) 0 vs).

Definition get_children_end (id : K) : M state children_iterator :=
  b <- exists_ id ;;
  if negb b then throw VirusNotFound else
  g <- get_graph ;;
  it <- map_find g id ;;
  n <- deref it ;;
  vs <- get_virus_set ;;
  vs <- copy vs ;;
  ret (mkIterator (ascending (children n)) (length (ascending (children n))) vs).

(** [operator*]: [virus_set] is a mutable member of the iterator, so the
    iterator comes back with the virus. *)
Definition iterator_deref (it : children_iterator) : M state (Virus * children_iterator) :=
  id <- deref (children_seq it !! children_vec_it it) ;;
  v <- construct_virus id ;;
  vs <- virus_set_insert (it_virus_set it) v ;;
  key <- construct_virus id ;;
  found <- virus_set_find vs key ;;
  v <- deref found ;;
  ret (v, mkIterator (children_seq it) (children_vec_it it) vs).

(** [operator++] and [operator--] *)
Definition iterator_incr (it : children_iterator) : children_iterator :=
  mkIterator (children_seq it) (S (children_vec_it it)) (it_virus_set it).
Definition iterator_decr (it : children_iterator) : children_iterator :=
  mkIterator (children_seq it) (pred (children_vec_it it)) (it_virus_set it).

(** [operator==] compares positions only. *)
Definition iterator_eqb (a b : children_iterator) : bool :=
  bool_decide (children_vec_it a = children_vec_it b).

(** The loop of a client of the class: walk from [it] to [end_],
    dereferencing each position and collecting the viruses; [n] bounds the
    number of steps. *)
Fixpoint iterate (n : nat) (it end_ : children_iterator) (out : list Virus)
    : M state (list Virus) :=
  if iterator_eqb it end_ then ret out else
  match n with
  | 0 => throw StackExhausted
  | S n' =>
      r <- iterator_deref it ;;
      out <- push_back out r.1 ;;
      iterate n' (iterator_incr r.2) end_ out
  end.

(** [operator->]: the virus goes into the iterator's [virus_set], and what
    [operator*] finds there comes back. *)
Definition iterator_arrow (it : children_iterator) : M state (Virus * children_iterator) :=
  id <- deref (children_seq it !! children_vec_it it) ;;
  v <- construct_virus id ;;
  vs <- virus_set_insert (it_virus_set it) v ;;
  iterator_deref (mkIterator (children_seq it) (children_vec_it it) vs).

(** The loop of a client that walks back: from [it] down to [first],
    stepping back before each dereference; [n] bounds the number of
    steps. *)
Fixpoint iterate_back (n : nat) (it first : children_iterator) (out : list Virus)
    : M state (list Virus) :=
  if iterator_eqb it first then ret out else
  match n with
  | 0 => throw StackExhausted
  | S n' =>
      r <- iterator_deref (iterator_decr it) ;;
      out <- push_back out r.1 ;;
      iterate_back n' r.2 first out
  end.

(** ** The interface as data

    A [call] is one call of a public member function; [exec] runs it and
    drops its result. *)
Inductive call : Type :=
  | CallExists (id : K)
  | CallSubscript (id : K)
  | CallGetParents (id : K)
  | CallCreate (id parent_id : K)
  | CallCreateMulti (id : K) (parent_ids : list K)
  | CallConnect (child_id parent_id : K)
  | CallRemove (fuel : nat) (id : K).

Definition exec (c : call) : M state unit :=
  match c with
  | CallExists id => exists_ id ;;; ret tt
  | CallSubscript id => subscript id ;;; ret tt
  | CallGetParents id => get_parents id ;;; ret tt
  | CallCreate id parent_id => create id parent_id
  | CallCreateMulti id parent_ids => create_multi id parent_ids
  | CallConnect child_id parent_id => connect child_id parent_id
  | CallRemove fuel id => remove fuel id
  end.

Definition mutating (c : call) : Prop :=
  match c with
  | CallCreate _ _ | CallCreateMulti _ _ | CallConnect _ _ | CallRemove _ _ => True
  | _ => False
  end.

(** The members of the object, without the [fuse]. *)
Definition members (σ : state) : gmap K Node * gmap K Virus * K :=
  (graph σ, virus_set σ, stem_id σ).

(** States an object can be in: after the constructor, and after any call
    that [allowed] admits together with its outcome, under any behaviour
    of the user code. *)
Inductive reachable_by (allowed : K → call → outcome unit → Prop) (stem : K)
    : state → Prop :=
  | reachable_construct : reachable_by allowed stem (construct stem)
  | reachable_call σ c f r σ' :
      reachable_by allowed stem σ →
      allowed stem c r →
      exec c (with_fuse f σ) = (r, σ') →
      reachable_by allowed stem σ'.

(** Any call, whether it returns or throws. *)
Definition reachable : K → state → Prop := reachable_by (λ _ _ _, True).

(** Calls that return only. *)
Definition reachable_by_successes : K → state → Prop :=
  reachable_by (λ _ _ r, r = Ret tt).

(** [connect(stem_id, p)] gives the stem a parent. *)
Definition links_stem (stem : K) (c : call) : Prop :=
  match c with
  | CallConnect child_id _ => child_id = stem
  | _ => False
  end.

Definition reachable_unlinked_stem : K → state → Prop :=
  reachable_by (λ stem c _, ¬ links_stem stem c).

(** The result of a call when the user code throws nothing. *)
Definition result {A} (m : M state A) (σ : state) : outcome A :=
  (m (with_fuse None σ)).1.

(** ** Structural properties of a graph *)

Definition key_is_virus (g : gmap K Node) : Prop :=
  ∀ k n, g !! k = Some n → virus n = k.

(** Every parent listed by a node exists and lists the node as a child. *)
Definition parents_linked (g : gmap K Node) : Prop :=
  ∀ k n p, g !! k = Some n → p ∈ parents n →
    ∃ pn, g !! p = Some pn ∧ k ∈ children pn.

(** Every child listed by a node exists and lists the node as a parent. *)
Definition children_linked (g : gmap K Node) : Prop :=
  ∀ k n c, g !! k = Some n → c ∈ children n →
    ∃ cn, g !! c = Some cn ∧ k ∈ parents cn.

Definition symmetric (g : gmap K Node) : Prop :=
  parents_linked g ∧ children_linked g.

Definition non_stem_has_parent (stem : K) (g : gmap K Node) : Prop :=
  ∀ k n, g !! k = Some n → k ≠ stem → parents n ≠ ∅.

Definition stem_is_root (stem : K) (g : gmap K Node) : Prop :=
  ∃ n, g !! stem = Some n ∧ parents n = ∅.

Definition virus_set_ok (vs : gmap K Virus) : Prop :=
  ∀ k v, vs !! k = Some v → v = Virus_ctor k.

(** ** The effect of the mutating functions on the graph *)

Definition add_child (c : K) (g : gmap K Node) (p : K) : gmap K Node :=
  alter (λ n, set_children (children n ∪ {[c]}) n) p g.

Definition add_parent (p : K) (g : gmap K Node) (c : K) : gmap K Node :=
  alter (λ n, set_parents (parents n ∪ {[p]}) n) c g.

(** The [virus] members of the nodes named by [ids]. *)
Definition viruses_of (g : gmap K Node) (ids : list K) : gset K :=
  list_to_set (omap (λ id, virus <$> g !! id) ids).

Definition created (id : K) (parent_ids : list K) (g : gmap K Node) : gmap K Node :=
  foldl (add_child id) (<[id := mkNode ∅ (viruses_of g parent_ids) id]> g) parent_ids.

Definition connected (child_id parent_id : K) (g : gmap K Node) : gmap K Node :=
  match g !! child_id, g !! parent_id with
  | Some cn, Some pn =>
      if bool_decide (parent_id ∈ parents cn) then g
      else add_child (virus cn) (add_parent (virus pn) g child_id) parent_id
  | _, _ => g
  end.

(** *** Cascading removal, without the user code

    [cascade] is [remove_helper] with every [may_throw] taken out: the same
    lookups in the same order on the same graphs.  A missing node, which
    makes [map::at] throw, gives [None], and so does running out of
    [fuel]. *)

Fixpoint fold_option {A B} (f : A → B → option A) (l : list B) (a : A) : option A :=
  match l with
  | [] => Some a
  | b :: l' => a' ← f a b; fold_option f l' a'
  end.

Definition erase_child (x : K) (g : gmap K Node) (p : K) : option (gmap K Node) :=
  pn ← g !! p; Some (<[p := set_children (children pn ∖ {[x]}) pn]> g).

Definition erase_parent (x : K) (g : gmap K Node) (c : K) : option (gmap K Node) :=
  cn ← g !! c; Some (<[c := set_parents (parents cn ∖ {[x]}) cn]> g).

Fixpoint cascade (fuel : nat) (live copied_graph : gmap K Node) (id : K)
    : option (gmap K Node) :=
  match fuel with
  | 0 => None
  | S fuel' =>
      n ← copied_graph !! id;
      let children_set_copy := children n in
      n ← copied_graph !! id;
      copied_graph ← fold_option (λ copied_graph it,
          _ ← copied_graph !! id;
          pn ← copied_graph !! it;
          l ← live !! id;
          Some (<[it := set_children (children pn ∖ {[virus l]}) pn]> copied_graph))
        (ascending (parents n)) copied_graph;
      _ ← copied_graph !! id;
      copied_graph ← fold_option (λ copied_graph it,
          cn ← copied_graph !! it;
          if bool_decide (size (parents cn) = 1) then
            cascade fuel' live copied_graph it
          else
            cn ← copied_graph !! it;
            l ← live !! id;
            Some (<[it := set_parents (parents cn ∖ {[virus l]}) cn]> copied_graph))
        (ascending children_set_copy) copied_graph;
      Some (delete id copied_graph)
  end.

(** *** Relations between a graph and what [remove_helper] makes of it *)

(** [g'] has no node, child or parent that [g] has not. *)
Definition shrinks (g' g : gmap K Node) : Prop :=
  ∀ k n', g' !! k = Some n' →
    ∃ n, g !! k = Some n ∧ children n' ⊆ children n ∧
         parents n' ⊆ parents n ∧ virus n' = virus n.

(** [g] has become [g'] by removing nodes and erasing identifiers in [X]
    from the sets of the others. *)
Definition evolves (X : gset K) (g g' : gmap K Node) : Prop :=
  shrinks g' g ∧
  (∀ k n n', g !! k = Some n → g' !! k = Some n' →
     parents n' = ∅ → parents n = ∅) ∧
  (∀ k n, g !! k = Some n → parents n = ∅ → k ∉ X → is_Some (g' !! k)) ∧
  (∀ k n n' p, g !! k = Some n → g' !! k = Some n' →
     p ∈ parents n → p ∉ X → is_Some (g' !! p) → p ∈ parents n') ∧
  (∀ k n n' c, g !! k = Some n → g' !! k = Some n' →
     c ∈ children n → c ∉ X → is_Some (g' !! c) → c ∈ children n').

(** The links of the nodes outside [T], the nodes being removed. *)
Definition parents_linked_in (T : gset K) (g : gmap K Node) : Prop :=
  ∀ k n p, g !! k = Some n → k ∉ T → p ∈ parents n →
    ∃ pn, g !! p = Some pn ∧ k ∈ children pn.

Definition children_linked_in (T : gset K) (g : gmap K Node) : Prop :=
  ∀ k n c, g !! k = Some n → k ∉ T → c ∈ children n →
    (c ∉ T) ∧ (∃ cn, g !! c = Some cn ∧ k ∈ parents cn).
(** [T] is the set of nodes whose removal has started.  A parent that a
    node of [g] had in [live] and has no more is one of them, or is gone. *)
Definition erased_doomed (T : gset K) (live g : gmap K Node) : Prop :=
  ∀ k n0 n p, live !! k = Some n0 → g !! k = Some n → p ∈ parents n0 →
    p ∈ parents n ∨ p ∈ T ∨ g !! p = None.

(** No node of [g'] has lost a parent that is in [T]. *)
Definition keeps_parents_in (T : gset K) (g g' : gmap K Node) : Prop :=
  ∀ k n n' p, g !! k = Some n → g' !! k = Some n' →
    p ∈ parents n → p ∈ T → p ∈ parents n'.

(** Every node but [x] that [g'] has lost had all its parents in [T] or
    among the nodes that [g'] has lost. *)
Definition removed_doomed (T : gset K) (x : K) (live g g' : gmap K Node)
    : Prop :=
  ∀ k n0 p, live !! k = Some n0 → is_Some (g !! k) → g' !! k = None →
    k ≠ x → p ∈ parents n0 → p ∈ T ∨ g' !! p = None.

(** Every node but [x] that has a parent in [T] is in [g'] and still has
    that parent. *)
Definition spares (T : gset K) (x : K) (g g' : gmap K Node) : Prop :=
  ∀ k n p, g !! k = Some n → p ∈ parents n → p ∈ T → k ≠ x →
    ∃ n', g' !! k = Some n' ∧ p ∈ parents n'.

(** The nodes in [T] are all in [g'], with the parents they had in [g]. *)
Definition frozen (T : gset K) (g g' : gmap K Node) : Prop :=
  ∀ k n, k ∈ T → g !! k = Some n →
    ∃ n', g' !! k = Some n' ∧ parents n' = parents n.

(** The nodes that go when [x] is removed from [g]: [x], and in turn
    every node that has parents all of which go. *)
Inductive doomed (x : K) (g : gmap K Node) : K → Prop :=
  | doomed_target : doomed x g x
  | doomed_orphan c cn :
      g !! c = Some cn → parents cn ≠ ∅ →
      (∀ p, p ∈ parents cn → doomed x g p) →
      doomed x g c.

(** What a call that returns has done to the graph. *)
Definition effect (stem : K) (c : call) (g g' : gmap K Node) : Prop :=
  match c with
  | CallCreate id parent_id =>
      g !! id = None ∧ is_Some (g !! parent_id) ∧ g' = created id [parent_id] g
  | CallCreateMulti id parent_ids =>
      g !! id = None ∧ Forall (λ p, is_Some (g !! p)) parent_ids ∧
      g' = (if bool_decide (parent_ids = []) then g else created id parent_ids g)
  | CallConnect child_id parent_id =>
      is_Some (g !! child_id) ∧ is_Some (g !! parent_id) ∧
      g' = connected child_id parent_id g
  | CallRemove fuel id =>
      is_Some (g !! id) ∧ id ≠ stem ∧ cascade fuel g g id = Some g'
  | _ => g' = g
  end.

(** The invariant of the class. *)
Definition well_formed (stem : K) (σ : state) : Prop :=
  stem_id σ = stem ∧
  key_is_virus (graph σ) ∧
  symmetric (graph σ) ∧
  non_stem_has_parent stem (graph σ) ∧
  virus_set_ok (virus_set σ).

(** ** Properties of programs

    [quiet]: the program changes no member, whatever its outcome. *)
Definition quiet {A} (m : M state A) : Prop :=
  ∀ σ r σ', m σ = (r, σ') → ∃ f, σ' = with_fuse f σ.

(** [calm]: without a fuse the program throws no [ForeignException] and
    leaves no fuse. *)
Definition calm {A} (m : M state A) : Prop :=
  ∀ σ r σ', fuse σ = None → m σ = (r, σ') →
    fuse σ' = None ∧ r ≠ Throw ForeignException.

(** [m] computes what [o] computes from the live graph, unless the user
    code throws; it throws [OutOfRange] or [StackExhausted] where [o] has
    no result, and changes no member. *)
Definition refines {A} (m : M state A)
    (o : gmap K Node → option A) : Prop :=
  ∀ σ r σ', m σ = (r, σ') →
    ∃ f, σ' = with_fuse f σ ∧
      match r with
      | Ret a => o (graph σ) = Some a
      | Throw e =>
          e = ForeignException ∨
          (e = OutOfRange ∨ e = StackExhausted) ∧ o (graph σ) = None
      end.

End genealogy.

Arguments Node K {_ _}.
Arguments state K {_ _} Virus.
Arguments children_iterator K {_ _} Virus.
Arguments call K : clear implicits.

(** ** An instance: identifiers and viruses are natural numbers *)

Global Instance nat_IdType : IdType nat := {| id_le := Nat.le |}.

Global Instance nat_VirusType : VirusType nat nat :=
  {| Virus_ctor := λ k, k; get_id := λ v, v; get_id_ctor := λ k, eq_refl |}.

(** The state after a call, the user code throwing nothing. *)
Definition after (c : call nat) (σ : state nat nat) : state nat nat :=
  (exec c (with_fuse None σ)).2.

(** The stem [0] alone. *)
Definition stem_only : state nat nat := construct 0.

(** [0 → 1], [1 → 2], and [3] with the parents [1] and [2]. *)
Definition diamond : state nat nat :=
  after (CallCreateMulti 3 [1; 2])
    (after (CallCreate 2 1) (after (CallCreate 1 0) stem_only)).

(** [0 → 1], [0 → 2], and [3] with the parents [1] and [2]. *)
Definition two_parents : state nat nat :=
  after (CallCreateMulti 3 [1; 2])
    (after (CallCreate 2 0) (after (CallCreate 1 0) stem_only)).

(** [0 → 1] and then [connect(0, 1)]: the stem is a child of its child. *)
Definition stem_in_cycle : state nat nat :=
  after (CallConnect 0 1) (after (CallCreate 1 0) stem_only).

(** [remove(1)] in [stem_in_cycle]. *)
Definition stem_gone : state nat nat := after (CallRemove 3 1) stem_in_cycle.

(** [0 → 5], [5 → 1], [connect(1, 1)], a node made under [1], and
    [remove(5)]: the node [1] is left as its own and only parent.  In
    [self_parent] its child [2] has the stem as another parent; in
    [self_parent_first] the child [2] has no other parent. *)
Definition self_parent : state nat nat :=
  after (CallRemove 4 5)
    (after (CallCreateMulti 2 [0; 1])
       (after (CallConnect 1 1)
          (after (CallCreate 1 5) (after (CallCreate 5 0) stem_only)))).

Definition self_parent_first : state nat nat :=
  after (CallRemove 4 5)
    (after (CallCreate 2 1)
       (after (CallConnect 1 1)
          (after (CallCreate 1 5) (after (CallCreate 5 0) stem_only)))).

(** [0 → 1], [connect(1, 1)], and [2] with the parents [0] and [1]: the
    node [1] is its own parent and has the stem as another parent. *)
Definition self_loop : state nat nat :=
  after (CallCreateMulti 2 [0; 1])
    (after (CallConnect 1 1) (after (CallCreate 1 0) stem_only)).

(** * Facts *)

(** ** Inversion of the monad operations *)

Section monad_facts.
Context {S : Type}.
Implicit Types σ : S.

Lemma bind_inv {A B} (m : M S A) (k : A → M S B) σ r σ' :
  bind m k σ = (r, σ') →
  (∃ a σ1, m σ = (Ret a, σ1) ∧ k a σ1 = (r, σ')) ∨
  (∃ e, m σ = (Throw e, σ') ∧ r = Throw e).
Proof.
  unfold bind. destruct (m σ) as [[a|e] σ1]; intros Hr.
  - left. eauto.
  - right. inversion Hr. eauto.
Qed.

Lemma bind_Ret_inv {A B} (m : M S A) (k : A → M S B) σ b σ' :
  bind m k σ = (Ret b, σ') →
  ∃ a σ1, m σ = (Ret a, σ1) ∧ k a σ1 = (Ret b, σ').
Proof.
  intros [?|(e & _ & ?)]%bind_inv; [done|discriminate].
Qed.

Lemma bind_Ret {A B} (m : M S A) (k : A → M S B) σ a σ1 :
  m σ = (Ret a, σ1) → bind m k σ = k a σ1.
Proof. unfold bind. by intros ->. Qed.

Lemma bind_Throw {A B} (m : M S A) (k : A → M S B) σ e σ1 :
  m σ = (Throw e, σ1) → bind m k σ = (Throw e, σ1).
Proof. unfold bind. by intros ->. Qed.

Lemma catch_rethrow_inv {A} (m : M S A) (h : M S unit) σ r σ' :
  catch_rethrow m h σ = (r, σ') →
  (∃ a, m σ = (Ret a, σ') ∧ r = Ret a) ∨
  (∃ e σ1 r', m σ = (Throw e, σ1) ∧ h σ1 = (r', σ') ∧
     r = Throw (match r' with Ret _ => e | Throw e' => e' end)).
Proof.
  unfold catch_rethrow. destruct (m σ) as [[a|e] σ1]; intros Hr.
  - left. inversion Hr. eauto.
  - right. destruct (h σ1) as [[[]|e'] σ2] eqn:Hh; inversion Hr; subst; eauto 10.
Qed.

(** A loop that returns has run its body on every element, and an
    invariant of the body holds at the end. *)
Lemma for_each_Ret_inv {A B} (f : A → B → M S A) (I : list B → A → S → Prop) l :
  ∀ done a σ a' σ',
  for_each f l a σ = (Ret a', σ') →
  I done a σ →
  (∀ done' b a1 σ1 a2 σ2, b ∈ l → I done' a1 σ1 →
     f a1 b σ1 = (Ret a2, σ2) → I (done' ++ [b]) a2 σ2) →
  I (done ++ l) a' σ'.
Proof.
  induction l as [|b l IH]; intros done a σ a' σ' Hrun Hinit Hstep; simpl in Hrun.
  - inversion Hrun; subst. by rewrite app_nil_r.
  - apply bind_Ret_inv in Hrun as (a1 & σ1 & Hb & Hrun).
    replace (done ++ b :: l) with ((done ++ [b]) ++ l) by by rewrite <-app_assoc.
    eapply IH; [done| |].
    + eapply Hstep; [left|done..].
    + intros ?????? Hin. apply Hstep. by right.
Qed.

(** A loop whose body keeps a property of the state keeps it, whatever
    leaves the loop. *)
Lemma for_each_state {A B} (f : A → B → M S A) (P : S → Prop) l :
  (∀ a b σ r σ', P σ → f a b σ = (r, σ') → P σ') →
  ∀ a σ r σ', P σ → for_each f l a σ = (r, σ') → P σ'.
Proof.
  intros Hf. induction l as [|b l IH]; intros a σ r σ' HP Hrun; simpl in Hrun.
  - by inversion Hrun; subst.
  - apply bind_inv in Hrun as [(a1 & σ1 & Hb & Hrun)|(e & Hb & _)]; eauto.
Qed.
End monad_facts.

(** ** The container operations: what they change and what they throw *)

Section primitive_facts.
Context {K : Type} `{IdType K} {Virus : Type} `{!VirusType K Virus}.
Implicit Types (σ : state K Virus) (g : gmap K (Node K)) (id : K).
Local Abbreviation quiet := (quiet (K:=K) (Virus:=Virus)).
Local Abbreviation calm := (calm (K:=K) (Virus:=Virus)).

Lemma may_throw_inv σ r σ' :
  may_throw σ = (r, σ') →
  ∃ f, σ' = with_fuse f σ ∧ (r = Ret tt ∨ r = Throw ForeignException).
Proof.
  unfold may_throw. destruct (fuse σ) as [[|n]|] eqn:Hf; intros [= <- <-]; eauto.
  exists None. destruct σ; simpl in *; subst; eauto.
Qed.

Lemma may_throw_calm_inv σ r σ' :
  fuse σ = None → may_throw σ = (r, σ') → r = Ret tt ∧ σ' = σ.
Proof. unfold may_throw. intros ->. by intros [= <- <-]. Qed.

Lemma with_fuse_with_fuse f f' σ : with_fuse f (with_fuse f' σ) = with_fuse f σ.
Proof. done. Qed.
Lemma with_fuse_fuse σ : with_fuse (fuse σ) σ = σ.
Proof. by destruct σ. Qed.
Lemma may_throw_None σ : may_throw (with_fuse None σ) = (Ret tt, with_fuse None σ).
Proof. done. Qed.

(** *** Programs that leave the members alone *)

Lemma quiet_ret {A} (a : A) : quiet (ret a).
Proof. intros σ r σ' [= <- <-]. exists (fuse σ). by rewrite with_fuse_fuse. Qed.
Lemma quiet_throw {A} e : quiet (throw (A:=A) e).
Proof. intros σ r σ' [= <- <-]. exists (fuse σ). by rewrite with_fuse_fuse. Qed.
Lemma quiet_may_throw : quiet may_throw.
Proof. intros σ r σ' (f & -> & _)%may_throw_inv. eauto. Qed.
Lemma quiet_get_graph : quiet get_graph.
Proof. intros σ r σ' [= <- <-]. exists (fuse σ). by rewrite with_fuse_fuse. Qed.
Lemma quiet_get_virus_set : quiet get_virus_set.
Proof. intros σ r σ' [= <- <-]. exists (fuse σ). by rewrite with_fuse_fuse. Qed.
Lemma quiet_get_stem_id : quiet get_stem_id.
Proof. intros σ r σ' [= <- <-]. exists (fuse σ). by rewrite with_fuse_fuse. Qed.
Lemma quiet_bind {A B} (m : M _ A) (k : A → M _ B) :
  quiet m → (∀ a, quiet (k a)) → quiet (bind m k).
Proof.
  intros Hm Hk σ r σ' [(a & σ1 & Ha & Hb)|(e & Ha & _)]%bind_inv.
  - apply Hm in Ha as [f ->]. apply Hk in Hb as [f' ->]. eauto.
  - by apply Hm in Ha.
Qed.
Lemma quiet_for_each {A B} (f : A → B → M _ A) l a :
  (∀ a b, quiet (f a b)) → quiet (for_each f l a).
Proof.
  intros Hf. revert a. induction l as [|b l IH]; intros a; simpl.
  - apply quiet_ret.
  - apply quiet_bind; auto.
Qed.

(** *** Without a fuse, no [ForeignException] *)

Lemma calm_pure {A} (f : state K Virus → outcome A * state K Virus) :
  (∀ σ, fuse (f σ).2 = fuse σ) → (∀ σ, (f σ).1 ≠ Throw ForeignException) →
  calm f.
Proof.
  intros Hf Hr σ r σ' Hσ Hrun. specialize (Hf σ). specialize (Hr σ).
  rewrite Hrun in Hf, Hr. simpl in *. split; congruence.
Qed.
Lemma calm_ret {A} (a : A) : calm (ret a).
Proof. by apply calm_pure. Qed.
Lemma calm_throw {A} e : e ≠ ForeignException → calm (throw (A:=A) e).
Proof. intros ?. apply calm_pure; [done|]. simpl. congruence. Qed.
Lemma calm_may_throw : calm may_throw.
Proof. intros σ r σ' Hσ [-> ->]%may_throw_calm_inv; done. Qed.
Lemma calm_bind {A B} (m : M _ A) (k : A → M _ B) :
  calm m → (∀ a, calm (k a)) → calm (bind m k).
Proof.
  intros Hm Hk σ r σ' Hσ [(a & σ1 & Ha & Hb)|(e & Ha & ->)]%bind_inv.
  - apply Hm in Ha as [? _]; [|done]. by eapply Hk.
  - destruct (Hm _ _ _ Hσ Ha) as [? Hne]. split; [done|].
    intros [= ->]. by apply Hne.
Qed.
Lemma calm_catch_rethrow {A} (m : M _ A) h :
  calm m → calm h → calm (catch_rethrow m h).
Proof.
  intros Hm Hh σ r σ' Hσ
    [(a & Ha & ->)|(e & σ1 & r' & Ha & Hb & ->)]%catch_rethrow_inv.
  - by apply Hm in Ha.
  - apply Hm in Ha as [? ?]; [|done]. apply Hh in Hb as [? ?]; [|done].
    split; [done|]. destruct r'; congruence.
Qed.
Lemma calm_for_each {A B} (f : A → B → M _ A) l a :
  (∀ a b, calm (f a b)) → calm (for_each f l a).
Proof.
  intros Hf. revert a. induction l as [|b l IH]; intros a; simpl.
  - apply calm_ret.
  - apply calm_bind; auto.
Qed.

End primitive_facts.

Ltac minv H :=
  lazymatch type of H with
  | bind _ _ _ = _ =>
      let E := fresh "E" in
      apply bind_inv in H as [(? & ? & E & H)|(? & E & ?)];
      [minv E; try minv H | minv E]
  | catch_rethrow _ _ _ = _ =>
      let E := fresh "E" in let E' := fresh "E" in
      apply catch_rethrow_inv in H as [(? & E & ?)|(? & ? & ? & E & E' & ?)];
      [minv E | minv E; try minv E']
  | may_throw _ = _ =>
      first
        [ apply (may_throw_calm_inv _ _ _ eq_refl) in H as [? ?]
        | apply may_throw_inv in H as (? & ? & [?|?]) ];
      simplify_eq/=
  | ret _ _ = _ => unfold ret in H; simplify_eq/=
  | throw _ _ = _ => unfold throw in H; simplify_eq/=
  | get_graph _ = _ => unfold get_graph in H; simplify_eq/=
  | put_graph _ _ = _ => unfold put_graph in H; simplify_eq/=
  | get_virus_set _ = _ => unfold get_virus_set in H; simplify_eq/=
  | put_virus_set _ _ = _ => unfold put_virus_set in H; simplify_eq/=
  | get_stem_id _ = _ => unfold get_stem_id in H; simplify_eq/=
  | swap_children _ _ _ = _ => unfold swap_children in H; simplify_eq/=
  | swap_parents _ _ _ = _ => unfold swap_parents in H; simplify_eq/=
  | erase_iterator _ _ = _ => unfold erase_iterator in H; simplify_eq/=
  | copy _ _ = _ => unfold copy in H; minv H
  | deref ?o _ = _ => unfold deref in H; destruct o eqn:?; minv H
  | map_contains _ _ _ = _ => unfold map_contains in H; minv H
  | map_find _ _ _ = _ => unfold map_find in H; minv H
  | map_at _ _ _ = _ => unfold map_at in H; minv H
  | map_insert _ _ _ _ = _ => unfold map_insert in H; minv H
  | map_erase _ _ _ = _ => unfold map_erase in H; minv H
  | set_insert _ _ _ = _ => unfold set_insert in H; minv H
  | set_erase _ _ _ = _ => unfold set_erase in H; minv H
  | set_contains _ _ _ = _ => unfold set_contains in H; minv H
  | push_back _ _ _ = _ => unfold push_back in H; minv H
  | virus_set_insert _ _ _ = _ => unfold virus_set_insert in H; minv H
  | virus_set_find _ _ _ = _ => unfold virus_set_find in H; minv H
  | construct_virus _ _ = _ => unfold construct_virus in H; minv H
  | exists_ _ _ = _ => unfold exists_ in H; minv H
  | (if ?b then _ else _) _ = _ => destruct b eqn:?; minv H
  | (match ?o with Some _ => _ | None => _ end) _ = _ => destruct o eqn:?; minv H
  | _ => idtac
  end.

Ltac tidy :=
  repeat match goal with
  | H : ?g !! ?k = Some _ |- context [?g !! ?k] => rewrite H
  | H : ?g !! ?k = None |- context [?g !! ?k] => rewrite H
  | H : ?g !! ?k = Some _, H' : context [?g !! ?k] |- _ => rewrite H in H'
  | H : ?g !! ?k = None, H' : context [?g !! ?k] |- _ => rewrite H in H' 
  | H : bool_decide _ = true |- _ => apply bool_decide_eq_true in H
  | H : bool_decide _ = false |- _ => apply bool_decide_eq_false in H
  | H : negb _ = true |- _ => apply negb_true_iff in H
  | H : negb _ = false |- _ => apply negb_false_iff in H
  | H : ¬ is_Some _ |- _ => apply eq_None_not_Some in H
  | H : is_Some None |- _ => by apply is_Some_None in H
  | H : is_Some (?g !! ?k), H' : ?g !! ?k = None |- _ =>
      rewrite H' in H; by apply is_Some_None in H
  end.

(** An absent key differs from a present one. *)
Ltac absent_ne :=
  repeat match goal with
  | H1 : ?g !! ?a = None, H2 : ?g !! ?b = Some _ |- _ =>
      lazymatch goal with
      | _ : a ≠ b |- _ => fail
      | _ => assert (a ≠ b) by (intros ->; rewrite H1 in H2; discriminate H2)
      end
  end.

Ltac solve_quiet :=
  repeat lazymatch goal with
  | |- quiet (ret _) => apply quiet_ret
  | |- quiet (throw _) => apply quiet_throw
  | |- quiet may_throw => apply quiet_may_throw
  | |- quiet get_graph => apply quiet_get_graph
  | |- quiet get_virus_set => apply quiet_get_virus_set
  | |- quiet get_stem_id => apply quiet_get_stem_id
  | |- quiet (bind _ _) => apply quiet_bind; [|intros ?]
  | |- quiet (for_each _ _ _) => apply quiet_for_each; intros ? ?
  | |- quiet (if ?b then _ else _) => destruct b
  | |- quiet (match ?o with Some _ => _ | None => _ end) => destruct o
  | |- quiet (deref ?o) => unfold deref
  | |- quiet (copy _) => unfold copy
  | |- quiet (map_contains _ _) => unfold map_contains
  | |- quiet (map_find _ _) => unfold map_find
  | |- quiet (map_at _ _) => unfold map_at
  | |- quiet (map_insert _ _ _) => unfold map_insert
  | |- quiet (map_erase _ _) => unfold map_erase
  | |- quiet (set_insert _ _) => unfold set_insert
  | |- quiet (set_erase _ _) => unfold set_erase
  | |- quiet (set_contains _ _) => unfold set_contains
  | |- quiet (push_back _ _) => unfold push_back
  | |- quiet (virus_set_insert _ _) => unfold virus_set_insert
  | |- quiet (virus_set_find _ _) => unfold virus_set_find
  | |- quiet (construct_virus _) => unfold construct_virus
  | |- quiet (exists_ _) => unfold exists_
  end.

Ltac solve_calm :=
  repeat lazymatch goal with
  | |- calm (ret _) => apply calm_ret
  | |- calm (throw _) => by apply calm_throw
  | |- calm may_throw => apply calm_may_throw
  | |- calm (bind _ _) => apply calm_bind; [|intros ?]
  | |- calm (for_each _ _ _) => apply calm_for_each; intros ? ?
  | |- calm (catch_rethrow _ _) => apply calm_catch_rethrow
  | |- calm (if ?b then _ else _) => destruct b
  | |- calm (match ?o with Some _ => _ | None => _ end) => destruct o
  | |- calm get_graph => by apply calm_pure
  | |- calm get_virus_set => by apply calm_pure
  | |- calm get_stem_id => by apply calm_pure
  | |- calm (put_graph _) => by apply calm_pure
  | |- calm (put_virus_set _) => by apply calm_pure
  | |- calm (swap_children _ _) => by apply calm_pure
  | |- calm (swap_parents _ _) => by apply calm_pure
  | |- calm (erase_iterator _) => by apply calm_pure
  | |- calm (deref ?o) => unfold deref
  | |- calm (copy _) => unfold copy
  | |- calm (map_contains _ _) => unfold map_contains
  | |- calm (map_find _ _) => unfold map_find
  | |- calm (map_at _ _) => unfold map_at
  | |- calm (map_insert _ _ _) => unfold map_insert
  | |- calm (map_erase _ _) => unfold map_erase
  | |- calm (set_insert _ _) => unfold set_insert
  | |- calm (set_erase _ _) => unfold set_erase
  | |- calm (set_contains _ _) => unfold set_contains
  | |- calm (push_back _ _) => unfold push_back
  | |- calm (virus_set_insert _ _) => unfold virus_set_insert
  | |- calm (virus_set_find _ _) => unfold virus_set_find
  | |- calm (construct_virus _) => unfold construct_virus
  | |- calm (exists_ _) => unfold exists_
  | |- calm (create_virus_set _) => unfold create_virus_set
  end.

(** ** The member functions that only read *)

Section derived_facts.
Context {K : Type} `{IdType K} {Virus : Type} `{!VirusType K Virus}.
Implicit Types (σ : state K Virus) (g : gmap K (Node K)) (id : K).
Implicit Types (ids : list K) (it last : children_iterator K Virus).
Local Abbreviation quiet := (quiet (Virus:=Virus)).
Local Abbreviation calm := (calm (Virus:=Virus)).

Lemma quiet_exists id : quiet (exists_ id).
Proof. solve_quiet. Qed.
Lemma quiet_create_virus_set ids : quiet (create_virus_set ids).
Proof. unfold create_virus_set. solve_quiet. Qed.
Lemma quiet_get_parents id : quiet (get_parents id).
Proof. unfold get_parents. solve_quiet. Qed.
Lemma quiet_remove_helper fuel : ∀ g id, quiet (remove_helper fuel g id).
Proof. induction fuel as [|fuel IH]; intros g id; simpl; solve_quiet; apply IH. Qed.
Lemma quiet_get_children_begin id : quiet (get_children_begin id).
Proof. unfold get_children_begin. solve_quiet. Qed.
Lemma quiet_get_children_end id : quiet (get_children_end id).
Proof. unfold get_children_end. solve_quiet. Qed.
Lemma quiet_iterator_deref it : quiet (iterator_deref it).
Proof. unfold iterator_deref. solve_quiet. Qed.
Lemma quiet_iterate n : ∀ it last out, quiet (iterate n it last out).
Proof.
  induction n as [|n IH]; intros it last out; simpl; solve_quiet.
  - apply quiet_iterator_deref.
  - apply IH.
Qed.

Lemma calm_remove_helper fuel : ∀ g id, calm (remove_helper fuel g id).
Proof.
  induction fuel as [|fuel IH]; intros g id; simpl; solve_calm; apply IH.
Qed.

Lemma calm_iterator_deref it : calm (iterator_deref it).
Proof. unfold iterator_deref. solve_calm. Qed.

Lemma calm_iterate n : ∀ it last out, calm (iterate n it last out).
Proof.
  induction n as [|n IH]; intros it last out; simpl; solve_calm.
  - apply calm_iterator_deref.
  - apply IH.
Qed.

Lemma calm_exists id : calm (exists_ id).
Proof. solve_calm. Qed.
Lemma calm_get_parents id : calm (get_parents id).
Proof. unfold get_parents. solve_calm. Qed.
Lemma calm_subscript id : calm (subscript id).
Proof. unfold subscript. solve_calm. Qed.
Lemma calm_create id p : calm (create id p).
Proof. unfold create. solve_calm. Qed.
Lemma calm_create_multi id ids : calm (create_multi id ids).
Proof. unfold create_multi. solve_calm. Qed.
Lemma calm_connect id p : calm (connect id p).
Proof. unfold connect. solve_calm. Qed.
Lemma calm_remove fuel id : calm (remove fuel id).
Proof. unfold remove. solve_calm. apply calm_remove_helper. Qed.
Lemma calm_get_children_begin id : calm (get_children_begin id).
Proof. unfold get_children_begin. solve_calm. Qed.
Lemma calm_get_children_end id : calm (get_children_end id).
Proof. unfold get_children_end. solve_calm. Qed.

End derived_facts.

(** ** [create(id, parent_id)] *)

Section genealogy_specs.
Context {K : Type} `{IdType K} {Virus : Type} `{!VirusType K Virus}.
Implicit Types (σ : state K Virus) (g : gmap K (Node K)) (id : K).

Lemma created_single id p g pn :
  g !! id = None → g !! p = Some pn →
  created id [p] g =
  alter (set_children (children pn ∪ {[id]})) p
    (<[id := mkNode ∅ (∅ ∪ {[virus pn]}) id]> g).
Proof.
  intros Hid Hp. unfold created, viruses_of, add_child. simpl. rewrite Hp. simpl.
  rewrite union_empty_r_L, union_empty_l_L.
  apply map_eq. intros k. rewrite !lookup_alter.
  destruct (decide (p = k)) as [->|]; [|done].
  rewrite lookup_insert_ne by congruence. by rewrite Hp.
Qed.

Lemma create_spec id p σ r σ' :
  create id p σ = (r, σ') →
  (∃ e, r = Throw e ∧ members σ' = members σ ∧
     (e = ForeignException ∨
      e = VirusAlreadyCreated ∧ is_Some (graph σ !! id) ∨
      e = VirusNotFound ∧ graph σ !! id = None ∧ graph σ !! p = None)) ∨
  (r = Ret tt ∧ graph σ !! id = None ∧ is_Some (graph σ !! p) ∧
     ∃ f, σ' = with_fuse f (with_graph (created id [p] (graph σ)) σ)).
Proof.
  intros Hr. unfold create in Hr. minv Hr; tidy; absent_ne; unfold members; simpl.
  all: rewrite ?delete_insert_id by done.
  all: try (left; eexists; split; [done|]; split; [done|]; eauto; fail).
  all: simplify_map_eq.
  right. split_and!; eauto.
  erewrite created_single by done. eauto.
Qed.
End genealogy_specs.

(** ** Iteration order, and how a graph shrinks *)

Section cascade_facts.
Context {K : Type} `{IdType K}.
Implicit Types (g live : gmap K (Node K)) (T X : gset K) (x k p c : K).
Implicit Types (n : Node K) (s : gset K).

Lemma elem_of_ascending s k : k ∈ ascending s ↔ k ∈ s.
Proof.
  unfold ascending. rewrite merge_sort_Permutation. apply elem_of_elements.
Qed.

Lemma NoDup_ascending s : NoDup (ascending s).
Proof.
  unfold ascending. rewrite merge_sort_Permutation. apply NoDup_elements.
Qed.

Lemma Sorted_ascending s : Sorted id_le (ascending s).
Proof. apply Sorted_merge_sort, _. Qed.

Lemma ascending_singleton k : ascending {[k]} = [k].
Proof. unfold ascending. by rewrite elements_singleton. Qed.

Lemma ascending_empty : ascending (∅ : gset K) = [].
Proof. unfold ascending. by rewrite elements_empty. Qed.

Lemma fold_option_inv {A B} (f : A → B → option A) (I : list B → A → Prop) l :
  ∀ done a a',
  fold_option f l a = Some a' →
  I done a →
  (∀ done' b a1 a2, b ∈ l → I done' a1 → f a1 b = Some a2 → I (done' ++ [b]) a2) →
  I (done ++ l) a'.
Proof.
  induction l as [|b l IH]; intros done a a' Hrun Hinit Hstep; simpl in Hrun.
  - simplify_eq. by rewrite app_nil_r.
  - destruct (f a b) as [a1|] eqn:Hb; simplify_eq/=.
    replace (done ++ b :: l) with ((done ++ [b]) ++ l) by by rewrite <-app_assoc.
    eapply IH; [done| |].
    + eapply Hstep; [left|done..].
    + intros ???? Hin. apply Hstep. by right.
Qed.

Lemma fold_option_impl {A B} (f f' : A → B → option A) l a a' :
  (∀ a b a', f a b = Some a' → f' a b = Some a') →
  fold_option f l a = Some a' → fold_option f' l a = Some a'.
Proof.
  intros Hf. revert a. induction l as [|b l IH]; intros a Hfold; simpl in *;
    [done|].
  destruct (f a b) as [a1|] eqn:Hb; [|done]. simpl in Hfold.
  rewrite (Hf _ _ _ Hb). simpl. by apply IH.
Qed.

(** *** [shrinks] and [evolves] *)

Lemma shrinks_refl g : shrinks g g.
Proof. intros k n Hk. eauto. Qed.

Lemma shrinks_trans g1 g2 g3 : shrinks g1 g2 → shrinks g2 g3 → shrinks g1 g3.
Proof.
  intros H12 H23 k n1 Hk.
  destruct (H12 _ _ Hk) as (n2 & Hk2 & ? & ? & ?).
  destruct (H23 _ _ Hk2) as (n3 & Hk3 & ? & ? & ?).
  exists n3. split_and!; [done|set_solver..|congruence].
Qed.

Lemma shrinks_None g' g k : shrinks g' g → g !! k = None → g' !! k = None.
Proof.
  intros Hs Hk. destruct (g' !! k) as [n'|] eqn:Hk'; [|done].
  destruct (Hs _ _ Hk') as (n & ? & _). congruence.
Qed.

Lemma shrinks_delete g k : shrinks (delete k g) g.
Proof. intros k' n' [_ Hk]%lookup_delete_Some. eauto. Qed.

Lemma key_is_virus_shrinks g' g : shrinks g' g → key_is_virus g → key_is_virus g'.
Proof.
  intros Hs Hkv k n' Hk. destruct (Hs _ _ Hk) as (n & Hn & _ & _ & ->). eauto.
Qed.

Lemma evolves_refl X g : evolves X g g.
Proof.
  split_and!; [apply shrinks_refl|intros; simplify_eq; eauto..].
Qed.

Lemma evolves_trans X g1 g2 g3 : evolves X g1 g2 → evolves X g2 g3 → evolves X g1 g3.
Proof.
  intros (Hs12 & Ho12 & Hv12 & Hp12 & Hc12) (Hs23 & Ho23 & Hv23 & Hp23 & Hc23).
  split_and!.
  - by eapply shrinks_trans.
  - intros k n1 n3 Hk1 Hk3 Hn3.
    destruct (Hs23 _ _ Hk3) as (n2 & Hk2 & _). eauto.
  - intros k n1 Hk1 Hn1 HX.
    destruct (Hv12 _ _ Hk1 Hn1 HX) as [n2 Hk2].
    destruct (Hs12 _ _ Hk2) as (n1' & ? & _ & Hsub & _). simplify_eq.
    eapply Hv23; [done| |done]. set_solver.
  - intros k n1 n3 p Hk1 Hk3 Hp HX [pn3 Hp3].
    destruct (Hs23 _ _ Hk3) as (n2 & Hk2 & _).
    destruct (Hs23 _ _ Hp3) as (pn2 & Hp2 & _). eauto 10.
  - intros k n1 n3 c Hk1 Hk3 Hc HX [cn3 Hc3].
    destruct (Hs23 _ _ Hk3) as (n2 & Hk2 & _).
    destruct (Hs23 _ _ Hc3) as (cn2 & Hc2 & _). eauto 10.
Qed.

(** Erasing [x] from the sets of a node. *)
Lemma evolves_erase_child x g k n :
  g !! k = Some n →
  evolves {[x]} g (<[k := set_children (children n ∖ {[x]}) n]> g).
Proof.
  intros Hk. split_and!.
  - intros k' n' Hk'. destruct (decide (k = k')) as [<-|];
      simplify_map_eq; eexists; split_and!; eauto; set_solver.
  - intros k' n1 n' Hk1 Hk'. destruct (decide (k = k')) as [<-|];
      simplify_map_eq; done.
  - intros k' n1 Hk1 _ _. destruct (decide (k = k')) as [<-|];
      simplify_map_eq; eauto.
  - intros k' n1 n' p Hk1 Hk' Hp HX _. destruct (decide (k = k')) as [<-|];
      simplify_map_eq; done.
  - intros k' n1 n' c Hk1 Hk' Hc HX _. destruct (decide (k = k')) as [<-|];
      simplify_map_eq; [set_solver|done].
Qed.

Lemma evolves_erase_parent x g k n :
  g !! k = Some n → size (parents n) ≠ 1 →
  evolves {[x]} g (<[k := set_parents (parents n ∖ {[x]}) n]> g).
Proof.
  intros Hk Hsz. split_and!.
  - intros k' n' Hk'. destruct (decide (k = k')) as [<-|];
      simplify_map_eq; eexists; split_and!; eauto; set_solver.
  - intros k' n1 n' Hk1 Hk'. destruct (decide (k = k')) as [<-|];
      simplify_map_eq; [|done].
    intros Hemp. apply leibniz_equiv, size_empty_iff.
    assert (parents n ⊆ {[x]}) as Hsub.
    { intros y Hy. apply elem_of_singleton.
      destruct (decide (y = x)) as [|Hne]; [done|].
      assert (y ∈ parents n ∖ {[x]}) as Hin
        by (apply elem_of_difference; split; [done|by rewrite elem_of_singleton]).
      rewrite Hemp in Hin. by apply not_elem_of_empty in Hin. }
    apply subseteq_size in Hsub. rewrite size_singleton in Hsub. lia.
  - intros k' n1 Hk1 _ _. destruct (decide (k = k')) as [<-|];
      simplify_map_eq; eauto.
  - intros k' n1 n' p Hk1 Hk' Hp HX _. destruct (decide (k = k')) as [<-|];
      simplify_map_eq; [set_solver|done].
  - intros k' n1 n' c Hk1 Hk' Hc HX _. destruct (decide (k = k')) as [<-|];
      simplify_map_eq; done.
Qed.

End cascade_facts.

(** ** The two loops of [remove_helper] *)

Section cascade_sound.
Context {K : Type} `{IdType K}.
Implicit Types (g live : gmap K (Node K)) (T X : gset K) (x k p c : K).
Implicit Types (n : Node K) (s : gset K).

Lemma erase_child_Some x g p g' :
  erase_child x g p = Some g' →
  ∃ pn, g !! p = Some pn ∧ g' = <[p := set_children (children pn ∖ {[x]}) pn]> g.
Proof.
  unfold erase_child. destruct (g !! p) as [pn|]; intros; simplify_eq/=; eauto.
Qed.

Lemma erase_parent_Some x g c g' :
  erase_parent x g c = Some g' →
  ∃ cn, g !! c = Some cn ∧ g' = <[c := set_parents (parents cn ∖ {[x]}) cn]> g.
Proof.
  unfold erase_parent. destruct (g !! c) as [cn|]; intros; simplify_eq/=; eauto.
Qed.

(** The first loop of [remove_helper]: [x] leaves the child sets of the
    nodes in [l], and nothing else changes. *)
Lemma erase_children_lookup x l : ∀ g g1,
  fold_option (erase_child x) l g = Some g1 →
  ∀ k, g1 !! k =
    (λ nk, if decide (k ∈ l) then set_children (children nk ∖ {[x]}) nk else nk)
      <$> g !! k.
Proof.
  induction l as [|p l IH]; intros g g1 Hfold k; simpl in Hfold.
  - simplify_eq. by destruct (g1 !! k).
  - destruct (erase_child x g p) as [g0|] eqn:Hp; simplify_eq/=.
    apply erase_child_Some in Hp as (pn & Hp & ->).
    rewrite (IH _ _ Hfold k). destruct (decide (k = p)) as [->|Hne].
    + rewrite lookup_insert_eq, Hp. simpl. f_equal.
      rewrite (decide_True (P := p ∈ p :: l)) by left.
      destruct (decide (p ∈ l)); [|done].
      unfold set_children. simpl. f_equal. set_solver.
    + rewrite lookup_insert_ne by done. destruct (g !! k) as [nk|]; simpl; [|done].
      f_equal. destruct (decide (k ∈ l)).
      * by rewrite decide_True by by right.
      * rewrite decide_False; [done|]. by intros [?|?]%elem_of_cons.
Qed.

Lemma erase_children_evolves x l g g1 :
  fold_option (erase_child x) l g = Some g1 → evolves {[x]} g g1.
Proof.
  intros Hfold.
  apply (fold_option_inv _ (λ _ gj, evolves {[x]} g gj) l [] g g1 Hfold).
  - apply evolves_refl.
  - intros _ p g2 g3 _ Hev (pn & Hp & ->)%erase_child_Some.
    eapply evolves_trans; [done|]. by apply evolves_erase_child.
Qed.

Lemma evolves_delete x g : evolves {[x]} g (delete x g).
Proof.
  split_and!.
  - apply shrinks_delete.
  - intros k n n' Hk [_ Hk']%lookup_delete_Some. by simplify_eq.
  - intros k n Hk _ Hne. rewrite lookup_delete_ne by set_solver. eauto.
  - intros k n n' p Hk [_ Hk']%lookup_delete_Some. by simplify_eq.
  - intros k n n' c Hk [_ Hk']%lookup_delete_Some. by simplify_eq.
Qed.

(** The node removed by a recursive call had a parent, so the call is a
    step of the removal of any other node. *)
Lemma evolves_target X c g g' cn :
  evolves {[c]} g g' → g' !! c = None →
  g !! c = Some cn → parents cn ≠ ∅ →
  evolves X g g'.
Proof.
  intros (Hs & Ho & Hv & Hp & Hc) Hgone Hcn Hne. split_and!; [done..| | |].
  - intros k n Hk Hn _. apply (Hv k n Hk Hn).
    intros ->%elem_of_singleton. congruence.
  - intros k n n' p Hk Hk' Hin _ Hsome. apply (Hp k n n' p Hk Hk' Hin); [|done].
    intros ->%elem_of_singleton. rewrite Hgone in Hsome. by destruct Hsome.
  - intros k n n' c' Hk Hk' Hin _ Hsome. apply (Hc k n n' c' Hk Hk' Hin); [|done].
    intros ->%elem_of_singleton. rewrite Hgone in Hsome. by destruct Hsome.
Qed.

Lemma linked_erase_parent T x g c cn :
  x ∈ T → g !! c = Some cn →
  parents_linked_in T g → children_linked_in T g →
  parents_linked_in T (<[c := set_parents (parents cn ∖ {[x]}) cn]> g) ∧
  children_linked_in T (<[c := set_parents (parents cn ∖ {[x]}) cn]> g).
Proof.
  intros HxT Hc HP HC. split.
  - intros k n p Hk HkT Hp.
    assert (∃ n0, g !! k = Some n0 ∧ p ∈ parents n0) as (n0 & Hk0 & Hp0).
    { destruct (decide (c = k)) as [->|]; simplify_map_eq; eauto.
      eexists; split; [done|]. set_solver. }
    destruct (HP _ _ _ Hk0 HkT Hp0) as (pn & Hpn & Hin).
    destruct (decide (c = p)) as [->|]; simplify_map_eq; eauto.
  - intros k n c' Hk HkT Hc'.
    assert (∃ n0, g !! k = Some n0 ∧ c' ∈ children n0) as (n0 & Hk0 & Hc0).
    { destruct (decide (c = k)) as [->|]; simplify_map_eq; eauto. }
    destruct (HC _ _ _ Hk0 HkT Hc0) as (HcT & cn' & Hcn' & Hin).
    split; [done|].
    destruct (decide (c = c')) as [->|]; simplify_map_eq; eauto.
    eexists; split; [done|]. simpl. set_solver.
Qed.

End cascade_sound.

(** ** [remove_helper] keeps the links sound *)

Section cascade_main.
Context {K : Type} `{IdType K}.
Implicit Types (g live : gmap K (Node K)) (T X : gset K) (x k p c : K).
Implicit Types (n : Node K) (s : gset K).

(** After the first loop the node [x] no longer is a child of anyone
    outside [T ∪ {x}], and the other links are as before. *)
Lemma linked_erase_children T x g g1 n :
  g !! x = Some n →
  parents_linked_in T g → children_linked_in T g →
  fold_option (erase_child x) (ascending (parents n)) g = Some g1 →
  parents_linked_in (T ∪ {[x]}) g1 ∧ children_linked_in (T ∪ {[x]}) g1 ∧
  ∃ n1, g1 !! x = Some n1 ∧ children n1 ⊆ children n.
Proof.
  intros Hx HP HC Hfold.
  pose proof (erase_children_lookup _ _ _ _ Hfold) as Hlook.
  set (l := ascending (parents n)) in *.
  split_and!.
  - intros k nk1 p Hk1 HkT Hp. rewrite Hlook in Hk1.
    destruct (g !! k) as [nk|] eqn:Hk; simplify_eq/=.
    assert (p ∈ parents nk) as Hp' by (by destruct (decide (k ∈ l))).
    destruct (HP _ _ _ Hk ltac:(set_solver) Hp') as (pn & Hpn & Hin).
    rewrite Hlook, Hpn. simpl. eexists; split; [done|].
    destruct (decide (p ∈ l)); [|done]. simpl. set_solver.
  - intros k nk1 c Hk1 HkT Hc. rewrite Hlook in Hk1.
    destruct (g !! k) as [nk|] eqn:Hk; simplify_eq/=.
    assert (c ∈ children nk) as Hc'.
    { destruct (decide (k ∈ l)); [|done]. simpl in Hc. set_solver. }
    destruct (HC _ _ _ Hk ltac:(set_solver) Hc') as (HcT & cn & Hcn & Hin).
    assert (c ≠ x) as Hcx.
    { intros ->. simplify_eq.
      rewrite decide_True in Hc by by apply elem_of_ascending.
      simpl in Hc. set_solver. }
    split; [set_solver|]. rewrite Hlook, Hcn. simpl. eexists; split; [done|].
    by destruct (decide (c ∈ l)).
  - rewrite Hlook, Hx. simpl. eexists; split; [done|].
    destruct (decide (x ∈ l)); [|done]. simpl. set_solver.
Qed.

(** [remove_helper] on a graph whose links outside [T] are sound: the
    target is gone, the links outside [T] are sound again, and the graph
    has only lost nodes leaving no orphan behind. *)
Theorem cascade_sound fuel : ∀ T live g x g',
  key_is_virus live → shrinks g live →
  parents_linked_in T g → children_linked_in T g →
  cascade fuel live g x = Some g' →
  evolves {[x]} g g' ∧ g' !! x = None ∧
  parents_linked_in T g' ∧ children_linked_in T g'.
Proof.
  induction fuel as [|fuel IH]; intros T live g x g' Hkv Hlive HP HC Hrun;
    simpl in Hrun; [done|].
  destruct (g !! x) as [n|] eqn:Hx; [|done]. simpl in Hrun.
  destruct (Hlive _ _ Hx) as (l & Hl & _ & _ & Hvirus).
  assert (virus l = x) as Hlx by eauto. clear Hvirus.
  destruct (fold_option _ (ascending (parents n)) g) as [g1|] eqn:H1;
    [|done]. simpl in Hrun.
  apply (fold_option_impl _ (erase_child x)) in H1; last first.
  { intros a b a' Hab. destruct (a !! x); [|done]. simpl in Hab.
    unfold erase_child. destruct (a !! b); [|done]. simpl in *.
    rewrite Hl in Hab. simpl in Hab. by rewrite Hlx in Hab. }
  destruct (g1 !! x) as [n1'|]; [|done]. simpl in Hrun.
  destruct (fold_option _ (ascending (children n)) g1) as [g2|] eqn:H2;
    [|done]. simpl in Hrun. injection Hrun as <-.
  pose proof (erase_children_evolves _ _ _ _ H1) as Hev1.
  destruct (linked_erase_children _ _ _ _ _ Hx HP HC H1)
    as (HP1 & HC1 & n1 & Hx1 & Hsub1).
  set (T' := T ∪ {[x]}) in *.
  assert (evolves {[x]} g1 g2 ∧ parents_linked_in T' g2 ∧
          children_linked_in T' g2 ∧
          ∀ c nc, c ∈ [] ++ ascending (children n) →
            g2 !! c = Some nc → x ∉ parents nc) as (Hev2 & HP2 & HC2 & Hdone).
  { apply (fold_option_inv _ (λ done gi,
      evolves {[x]} g1 gi ∧ parents_linked_in T' gi ∧ children_linked_in T' gi ∧
      ∀ c nc, c ∈ done → gi !! c = Some nc → x ∉ parents nc) _ _ _ _ H2).
    { split_and!; [apply evolves_refl|done..|]. by intros ?? ?%elem_of_nil. }
    clear H2. intros done c gi gj _ (Hevi & HPi & HCi & Hdone) Hstep.
    destruct (gi !! c) as [cn|] eqn:Hc; [|done]. simpl in Hstep.
    assert (shrinks gi live) as Hlivei.
    { eapply shrinks_trans; [apply Hevi|].
      eapply shrinks_trans; [apply Hev1|done]. }
    case_bool_decide as Hsize.
    - destruct (IH T' live gi c gj Hkv Hlivei HPi HCi Hstep)
        as (Hevj & Hgone & HPj & HCj).
      assert (parents cn ≠ ∅) as Hne.
      { intros Hemp. rewrite Hemp, size_empty in Hsize. done. }
      split_and!; [|done..|].
      + eapply evolves_trans; [done|]. by eapply evolves_target.
      + intros c' nc' [Hin| ->%list_elem_of_singleton]%elem_of_app Hc';
          [|congruence].
        destruct (proj1 Hevj _ _ Hc') as (nc & Hnc & _ & Hsub & _).
        specialize (Hdone _ _ Hin Hnc). set_solver.
    - rewrite Hl in Hstep. simpl in Hstep. rewrite Hlx in Hstep.
      injection Hstep as <-.
      destruct (linked_erase_parent T' x gi c cn) as [HPj HCj];
        [set_solver|done..|].
      split_and!; [|done..|].
      + eapply evolves_trans; [done|]. by apply evolves_erase_parent.
      + intros c' nc' Hin Hc'. destruct (decide (c = c')) as [<-|Hne].
        * rewrite lookup_insert_eq in Hc'. injection Hc' as <-. simpl.
          set_solver.
        * rewrite lookup_insert_ne in Hc' by done.
          apply elem_of_app in Hin as [Hin|Hin%list_elem_of_singleton];
            [|congruence].
          by eapply Hdone. }
  assert (∀ k nk, g2 !! k = Some nk → k ∉ T' → x ∉ parents nk) as Hnox.
  { intros k nk Hk HkT Hin.
    destruct (proj1 Hev2 _ _ Hk) as (nk1 & Hk1 & _ & Hsub & _).
    destruct (HP1 k nk1 x Hk1 HkT) as (xn & Hxn & Hkin); [set_solver|].
    rewrite Hx1 in Hxn. injection Hxn as <-. eapply (Hdone k nk); [|done..].
    apply elem_of_ascending. set_solver. }
  split_and!.
  - eapply evolves_trans; [done|]. eapply evolves_trans; [done|].
    apply evolves_delete.
  - apply lookup_delete_eq.
  - intros k nk p [Hkx Hk]%lookup_delete_Some HkT Hp.
    assert (k ∉ T') as HkT' by set_solver.
    destruct (HP2 _ _ _ Hk HkT' Hp) as (pn & Hpn & Hin).
    exists pn. split; [|done]. rewrite lookup_delete_ne; [done|].
    intros Heq. rewrite <-Heq in Hp. exact (Hnox _ _ Hk HkT' Hp).
  - intros k nk c [Hkx Hk]%lookup_delete_Some HkT Hc.
    assert (k ∉ T') as HkT' by set_solver.
    destruct (HC2 _ _ _ Hk HkT' Hc) as (HcT & cn & Hcn & Hin).
    split; [set_solver|]. exists cn. split; [|done].
    rewrite lookup_delete_ne; [done|]. set_solver.
Qed.

End cascade_main.

(** ** [remove_helper] computes [cascade] *)

Section refinement.
Context {K : Type} `{IdType K} {Virus : Type} `{!VirusType K Virus}.
Implicit Types (σ : state K Virus) (g : gmap K (Node K)) (id : K).
Local Abbreviation refines := (refines (K:=K) (Virus:=Virus)).

Lemma refines_ext {A} (m : M _ A) o o' :
  refines m o → (∀ G, o G = o' G) → refines m o'.
Proof.
  intros Hm Ho σ r σ' Hr. destruct (Hm _ _ _ Hr) as (f & -> & Hres).
  exists f. split; [done|]. destruct r; by rewrite <-Ho.
Qed.

Lemma refines_ret {A} (a : A) : refines (ret a) (λ _, Some a).
Proof. intros σ r σ' [= <- <-]. exists (fuse σ). by rewrite with_fuse_fuse. Qed.

Lemma refines_throw {A} e :
  e = OutOfRange ∨ e = StackExhausted → refines (throw (A:=A) e) (λ _, None).
Proof.
  intros He σ r σ' [= <- <-]. exists (fuse σ). rewrite with_fuse_fuse. eauto.
Qed.

Lemma refines_may_throw : refines may_throw (λ _, Some tt).
Proof.
  intros σ r σ' (f & -> & [->| ->])%may_throw_inv; exists f; eauto.
Qed.

Lemma refines_get_graph : refines get_graph Some.
Proof. intros σ r σ' [= <- <-]. exists (fuse σ). by rewrite with_fuse_fuse. Qed.

Lemma refines_bind {A B} (m : M _ A) (k : A → M _ B) o ok :
  refines m o → (∀ a, refines (k a) (ok a)) →
  refines (bind m k) (λ G, o G ≫= λ a, ok a G).
Proof.
  intros Hm Hk σ r σ' [(a & σ1 & Ha & Hb)|(e & Ha & ->)]%bind_inv.
  - destruct (Hm _ _ _ Ha) as (f & -> & Ho).
    destruct (Hk _ _ _ _ Hb) as (f' & -> & Hres). simpl in *.
    exists f'. split; [done|]. by rewrite Ho.
  - destruct (Hm _ _ _ Ha) as (f & -> & Ho). exists f. split; [done|].
    destruct Ho as [?|[? Ho]]; [by left|]. right. by rewrite Ho.
Qed.

Lemma refines_if {A} (b : bool) (m1 m2 : M (state K Virus) A) o1 o2 :
  refines m1 o1 → refines m2 o2 →
  refines (if b then m1 else m2) (λ G, if b then o1 G else o2 G).
Proof. intros H1 H2. destruct b; assumption. Qed.

Lemma refines_for_each {A B} (f : A → B → M _ A) fo l a :
  (∀ a b, refines (f a b) (fo a b)) →
  refines (for_each f l a) (λ G, fold_option (λ a b, fo a b G) l a).
Proof.
  intros Hf. revert a. induction l as [|b l IH]; intros a; simpl.
  - apply refines_ret.
  - by apply (refines_bind _ _ (fo a b)
               (λ a' G, fold_option (λ a b, fo a b G) l a')).
Qed.

Lemma refines_map_at g id : refines (map_at g id) (λ _, g !! id).
Proof.
  intros σ r σ' Hr. minv Hr; eexists; (split; [done|]); eauto.
Qed.

Lemma refines_tick {A} (a : A) : refines (may_throw ;;; ret a) (λ _, Some a).
Proof.
  intros σ r σ' Hr. minv Hr; eexists; (split; [done|]); eauto.
Qed.

End refinement.

Ltac solve_refines :=
  repeat lazymatch goal with
  | |- refines (ret _) _ => apply refines_ret
  | |- refines (bind _ _) _ => eapply refines_bind; [|intros ?]
  | |- refines (for_each _ _ _) _ => eapply refines_for_each; intros ? ?
  | |- refines (if _ then _ else _) _ => eapply refines_if
  | |- refines get_graph _ => apply refines_get_graph
  | |- refines (map_at _ _) _ => apply refines_map_at
  | |- refines (copy _) _ => apply refines_tick
  | |- refines (set_erase _ _) _ => apply refines_tick
  | |- refines (map_erase _ _) _ => apply refines_tick
  end.

Section refinement_of_remove_helper.
Context {K : Type} `{IdType K} {Virus : Type} `{!VirusType K Virus}.
Implicit Types (σ : state K Virus) (g : gmap K (Node K)) (id : K).

Lemma remove_helper_refines fuel : ∀ g id,
  refines (Virus:=Virus) (remove_helper fuel g id) (λ G, cascade fuel G g id).
Proof.
  induction fuel as [|fuel IH]; intros g id; simpl.
  { apply refines_throw. by right. }
  eapply refines_ext.
  - solve_refines. apply IH.
  - intros G. simpl. reflexivity.
Qed.

End refinement_of_remove_helper.

(** ** The graphs that [create] and [connect] build *)

Section graph_effects.
Context {K : Type} `{IdType K}.
Implicit Types (g : gmap K (Node K)) (id k p c : K) (n : Node K).

Lemma add_child_fold_lookup c ps : ∀ g k,
  foldl (add_child c) g ps !! k =
  (λ n, if decide (k ∈ ps) then set_children (children n ∪ {[c]}) n else n)
    <$> g !! k.
Proof.
  induction ps as [|p ps IH]; intros g k; simpl.
  - by destruct (g !! k).
  - rewrite IH. unfold add_child. rewrite lookup_alter.
    destruct (decide (p = k)) as [->|Hne].
    + destruct (g !! k) as [n|]; simpl; [|done]. f_equal.
      rewrite (decide_True (P := k ∈ k :: ps)) by left.
      destruct (decide (k ∈ ps)); [|done].
      unfold set_children. simpl. f_equal. set_solver.
    + destruct (g !! k) as [n|]; simpl; [|done]. f_equal.
      destruct (decide (k ∈ ps)).
      * by rewrite decide_True by by right.
      * rewrite decide_False; [done|]. intros [?|?]%elem_of_cons; congruence.
Qed.

Lemma swap_fold_lookup (S : K → gset K) (l : list (gset K * K)) : ∀ g k,
  (∀ sp, sp ∈ l → sp.1 = S sp.2) →
  foldl (λ g sp, alter (set_children sp.1) sp.2 g) g l !! k =
  (λ n, if decide (k ∈ l.*2) then set_children (S k) n else n) <$> g !! k.
Proof.
  induction l as [|[s p] l IH]; intros g k HS; rewrite ?fmap_cons;
    cbn [foldl fst snd].
  - by destruct (g !! k).
  - rewrite IH by (intros; apply HS; by right).
    specialize (HS (s, p) ltac:(left)). simpl in HS. subst s.
    rewrite lookup_alter. destruct (decide (p = k)) as [->|Hne].
    + destruct (g !! k) as [n|]; simpl; [|done]. f_equal.
      rewrite (decide_True (P := k ∈ k :: l.*2)) by left.
      by destruct (decide (k ∈ l.*2)).
    + destruct (g !! k) as [n|]; simpl; [|done]. f_equal.
      destruct (decide (k ∈ l.*2)).
      * by rewrite decide_True by by right.
      * rewrite decide_False; [done|]. intros [?|?]%elem_of_cons; congruence.
Qed.

Lemma viruses_of_keys g ps :
  key_is_virus g → Forall (λ p, is_Some (g !! p)) ps →
  viruses_of g ps = list_to_set ps.
Proof.
  intros Hkv Hps. unfold viruses_of. f_equal.
  induction Hps as [|p ps [n Hp] _ IH]; simpl; [done|].
  rewrite Hp. simpl. rewrite (Hkv _ _ Hp). by f_equal.
Qed.

Lemma created_lookup id ps g k :
  g !! id = None → Forall (λ p, is_Some (g !! p)) ps →
  created id ps g !! k =
  if decide (k = id) then Some (mkNode ∅ (viruses_of g ps) id)
  else (λ n, if decide (k ∈ ps) then set_children (children n ∪ {[id]}) n else n)
         <$> g !! k.
Proof.
  intros Hid Hps. unfold created. rewrite add_child_fold_lookup.
  destruct (decide (k = id)) as [->|Hne].
  - rewrite lookup_insert_eq. simpl. rewrite decide_False; [done|].
    intros Hin. rewrite Forall_forall in Hps. apply Hps in Hin as [? ?].
    congruence.
  - by rewrite lookup_insert_ne.
Qed.

(** The sets staged by [create(id, parent_ids)] and swapped in from the
    back give the graph in which every parent has [id] as a child. *)
Lemma created_swapped id ps g n :
  foldl (λ g sp, alter (set_children sp.1) sp.2 g) (<[id := n]> g)
    (reverse ((λ p, (match <[id := n]> g !! p with
                     | Some pn => children pn ∪ {[id]}
                     | None => ∅
                     end, p)) <$> ps)) =
  foldl (add_child id) (<[id := n]> g) ps.
Proof.
  apply map_eq. intros k. rewrite add_child_fold_lookup.
  rewrite (swap_fold_lookup (λ p, match <[id := n]> g !! p with
                                  | Some pn => children pn ∪ {[id]}
                                  | None => ∅
                                  end)).
  - destruct (<[id := n]> g !! k) as [nk|] eqn:Hk; simpl; [|done]. f_equal.
    rewrite fmap_reverse, <-list_fmap_compose. simpl.
    destruct (decide (k ∈ ps)) as [Hin|Hin].
    + rewrite decide_True; [done|]. rewrite elem_of_reverse.
      apply list_elem_of_fmap. eauto.
    + rewrite decide_False; [done|]. rewrite elem_of_reverse.
      intros (p & -> & ?)%list_elem_of_fmap. done.
  - intros [s p] (p' & [= -> ->] & _)%elem_of_reverse%list_elem_of_fmap. done.
Qed.

Lemma connected_Some child_id parent_id g cn pn :
  g !! child_id = Some cn → g !! parent_id = Some pn →
  parent_id ∉ parents cn →
  connected child_id parent_id g =
  alter (set_children (children pn ∪ {[virus cn]})) parent_id
    (alter (set_parents (parents cn ∪ {[virus pn]})) child_id g).
Proof.
  intros Hc Hp Hnot. unfold connected. rewrite Hc, Hp.
  rewrite bool_decide_eq_false_2 by done.
  unfold add_child, add_parent. apply map_eq. intros k.
  rewrite !lookup_alter.
  destruct (decide (parent_id = k)) as [->|]; rewrite ?lookup_alter;
    destruct (decide (child_id = k)) as [->|];
    rewrite ?Hc, ?Hp; simplify_eq/=; done.
Qed.

End graph_effects.

(** ** What each mutating function returns, throws and changes *)

Section call_specs.
Context {K : Type} `{IdType K} {Virus : Type} `{!VirusType K Virus}.
Implicit Types (σ : state K Virus) (g : gmap K (Node K)) (id p : K).
Implicit Types (ids : list K).

Lemma with_graph_graph σ : with_graph (graph σ) σ = σ.
Proof. by destruct σ. Qed.

Lemma connect_spec child_id parent_id σ r σ' :
  connect child_id parent_id σ = (r, σ') →
  (∃ e, r = Throw e ∧ members σ' = members σ ∧
     (e = ForeignException ∨
      e = VirusNotFound ∧
        (graph σ !! child_id = None ∨ graph σ !! parent_id = None))) ∨
  (r = Ret tt ∧ is_Some (graph σ !! child_id) ∧ is_Some (graph σ !! parent_id) ∧
     ∃ f, σ' = with_fuse f
            (with_graph (connected child_id parent_id (graph σ)) σ)).
Proof.
  intros Hr. unfold connect in Hr. minv Hr; tidy; unfold members; simpl.
  all: try (left; eexists; split; [done|]; split; [done|]; eauto; fail).
  - right. split_and!; eauto. unfold connected. tidy.
    rewrite bool_decide_eq_true_2 by done. rewrite with_graph_graph. eauto.
  - right. split_and!; eauto. erewrite connected_Some by done. eauto.
Qed.

(** The loops of [create(id, parent_ids)]. *)

Lemma validate_parents_spec ids σ r σ' :
  for_each (λ _ parent_id,
      b <- exists_ parent_id ;;
      if negb b then throw VirusNotFound else ret tt) ids tt σ = (r, σ') →
  ∃ f, σ' = with_fuse f σ ∧
    (r = Ret tt ∧ Forall (λ p, is_Some (graph σ !! p)) ids ∨
     r = Throw ForeignException ∨
     r = Throw VirusNotFound ∧ Exists (λ p, graph σ !! p = None) ids).
Proof.
  revert σ. induction ids as [|p ids IH]; intros σ Hr; simpl in Hr.
  - minv Hr. exists (fuse σ'). rewrite with_fuse_fuse. eauto.
  - minv Hr; tidy; eauto 10.
    apply IH in Hr as (f & -> & Hres). simpl in Hres. eexists; split; [done|].
    destruct Hres as [[-> ?]|[->| [-> ?]]]; eauto 10.
Qed.

Lemma create_virus_set_loop_spec ids : ∀ acc σ r σ',
  for_each (λ result id,
      g <- get_graph ;;
      it <- map_find g id ;;
      n <- deref it ;;
      set_insert result (virus n)) ids acc σ = (r, σ') →
  Forall (λ p, is_Some (graph σ !! p)) ids →
  ∃ f, σ' = with_fuse f σ ∧
    (r = Ret (acc ∪ viruses_of (graph σ) ids) ∨ r = Throw ForeignException).
Proof.
  induction ids as [|p ids IH]; intros acc σ r σ' Hr Hall; simpl in Hr.
  - minv Hr. exists (fuse σ'). rewrite with_fuse_fuse. split; [done|]. left.
    unfold viruses_of. simpl. by rewrite union_empty_r_L.
  - apply Forall_cons in Hall as [Hp Hall]. minv Hr; tidy; eauto.
    apply IH in Hr as (f & -> & Hres); [|done]. simpl in Hres.
    eexists; split; [done|]. destruct Hres as [->| ->]; [left|by right].
    f_equal. unfold viruses_of. simpl. tidy. simpl.
    by rewrite <-(assoc_L (∪)).
Qed.

Lemma stage_children_spec id ids : ∀ acc σ r σ',
  for_each (λ (to_swap : list (gset K * K)) parent,
      g <- get_graph ;;
      it_parent <- map_find g parent ;;
      pn <- deref it_parent ;;
      child_vector_cp <- copy (children pn) ;;
      inserted <- deref (g !! id) ;;
      child_vector_cp <- set_insert child_vector_cp (virus inserted) ;;
      push_back to_swap (child_vector_cp, parent)) ids acc σ = (r, σ') →
  Forall (λ p, is_Some (graph σ !! p)) ids →
  (∃ n, graph σ !! id = Some n ∧ virus n = id) →
  ∃ f, σ' = with_fuse f σ ∧
    (r = Ret (acc ++ ((λ p, (match graph σ !! p with
                             | Some pn => children pn ∪ {[id]}
                             | None => ∅
                             end, p)) <$> ids)) ∨
     r = Throw ForeignException).
Proof.
  induction ids as [|p ids IH]; intros acc σ r σ' Hr Hall (n & Hid & Hn);
    simpl in Hr.
  - minv Hr. exists (fuse σ'). rewrite with_fuse_fuse. split; [done|]. left.
    by rewrite app_nil_r.
  - apply Forall_cons in Hall as [Hp Hall]. minv Hr; tidy; eauto.
    apply IH in Hr as (f & -> & Hres); [|by eauto..]. simpl in Hres.
    eexists; split; [done|]. destruct Hres as [->| ->]; [left|by right].
    f_equal. rewrite <-app_assoc. simpl. tidy. by simplify_eq.
Qed.

Lemma swap_all_spec (l : list (gset K * K)) : ∀ σ,
  for_each (λ _ (back : gset K * K), swap_children back.2 back.1) l tt σ =
  (Ret tt,
   with_graph (foldl (λ g sp, alter (set_children sp.1) sp.2 g) (graph σ) l) σ).
Proof.
  induction l as [|[s p] l IH]; intros σ; simpl.
  - by rewrite with_graph_graph.
  - unfold bind, swap_children at 1. simpl. by rewrite IH.
Qed.

Lemma create_multi_spec id ids σ r σ' :
  create_multi id ids σ = (r, σ') →
  (∃ e, r = Throw e ∧ members σ' = members σ ∧
     (e = ForeignException ∨
      e = VirusAlreadyCreated ∧ is_Some (graph σ !! id) ∨
      e = VirusNotFound ∧ graph σ !! id = None ∧
        Exists (λ p, graph σ !! p = None) ids)) ∨
  (r = Ret tt ∧ graph σ !! id = None ∧
     Forall (λ p, is_Some (graph σ !! p)) ids ∧
     ∃ f, σ' = with_fuse f
            (with_graph (if bool_decide (ids = []) then graph σ
                         else created id ids (graph σ)) σ)).
Proof.
  intros Hr. unfold create_multi in Hr.
  apply bind_inv in Hr as [(b & σ1 & Hb & Hr)|(e & Hb & ->)]; minv Hb;
    [|left; eexists; split; [done|]; split; [done|]; eauto].
  case_bool_decide as Hid.
  { minv Hr. left; eexists; split; [done|]; split; [done|]; eauto. }
  tidy.
  apply bind_inv in Hr as [([] & σ2 & Hval & Hr)|(e & Hval & ->)];
    apply validate_parents_spec in Hval as (f2 & -> & Hval); simpl in Hval;
    destruct Hval as [[? Hall]|[?|[? Hex]]]; simplify_eq;
    try (left; eexists; split; [done|]; split; [done|]; eauto; fail).
  case_bool_decide as Hlen.
  { minv Hr. right. split_and!; eauto.
    rewrite bool_decide_eq_true_2 by by destruct ids.
    rewrite with_graph_graph. eauto. }
  assert (ids ≠ []) as Hne by (by destruct ids).
  apply bind_inv in Hr as [(ps & σ3 & Hps & Hr)|(e & Hps & ->)];
    apply create_virus_set_loop_spec in Hps as (f3 & -> & Hps);
    simpl in *; try done; destruct Hps as [?|?]; simplify_eq;
    try (left; eexists; split; [done|]; split; [done|]; eauto; fail).
  rewrite union_empty_l_L in Hr.
  apply bind_inv in Hr as [(g0 & σ4 & Hg & Hr)|(e & Hg & ->)]; minv Hg.
  apply bind_inv in Hr as [(node & σ5 & Hnode & Hr)|(e & Hnode & ->)];
    minv Hnode;
    try (left; eexists; split; [done|]; split; [done|]; eauto; fail).
  apply bind_inv in Hr as [(g' & σ6 & Hins & Hr)|(e & Hins & ->)]; minv Hins;
    tidy;
    try (left; eexists; split; [done|]; split; [done|]; eauto; fail).
  apply bind_inv in Hr as [([] & σ7 & Hput & Hr)|(e & Hput & ->)]; minv Hput.
  set (ins := mkNode ∅ (viruses_of (graph x0) ids) id) in *.
  assert (Forall (λ p, is_Some (<[id := ins]> (graph x0) !! p)) ids) as Hall'.
  { eapply Forall_impl; [done|]. intros p [pn Hp]. simpl in Hp.
    absent_ne. rewrite lookup_insert_ne by done. eauto. }
  apply bind_inv in Hr as [(to_swap & σ8 & Hstage & Hr)|(e & Hstage & ->)];
    apply catch_rethrow_inv in Hstage
      as [(? & Hstage & ?)|(e' & σ9 & r' & Hstage & Hroll & ?)];
    simplify_eq;
    apply (stage_children_spec id) in Hstage as (f8 & -> & Hstage);
    simpl in *; try done;
    try (eexists; split; [apply lookup_insert_eq|done]).
  - destruct Hstage as [Hstage|?]; simplify_eq.
    rewrite swap_all_spec in Hr. simplify_eq/=.
    right. split_and!; eauto. rewrite bool_decide_eq_false_2 by done.
    rewrite created_swapped. eauto.
  - minv Hroll. destruct Hstage as [?|?]; simplify_eq.
    left. eexists; split; [done|]. unfold members. simpl.
    rewrite delete_insert_id by done. eauto.
Qed.

Lemma remove_spec fuel id σ r σ' :
  remove fuel id σ = (r, σ') →
  (∃ e, r = Throw e ∧ members σ' = members σ ∧
     (e = ForeignException ∨
      e = VirusNotFound ∧ graph σ !! id = None ∨
      e = TriedToRemoveStemVirus ∧ is_Some (graph σ !! id) ∧ id = stem_id σ ∨
      (e = OutOfRange ∨ e = StackExhausted) ∧ is_Some (graph σ !! id) ∧
        id ≠ stem_id σ ∧ cascade fuel (graph σ) (graph σ) id = None)) ∨
  (r = Ret tt ∧ is_Some (graph σ !! id) ∧ id ≠ stem_id σ ∧
     ∃ g' f, cascade fuel (graph σ) (graph σ) id = Some g' ∧
             σ' = with_fuse f (with_graph g' σ)).
Proof.
  intros Hr. unfold remove in Hr. minv Hr; tidy; unfold members; simpl.
  all: try (left; eexists; split; [done|]; split; [done|]; eauto 10; fail).
  all: match goal with
       | Hh : remove_helper _ _ _ _ = _ |- _ =>
           apply remove_helper_refines in Hh as (f & -> & Hres);
           simpl in Hres
       end.
  - right. split_and!; eauto.
  - left. eexists; split; [done|]. split; [done|].
    destruct Hres as [->|[He Hnone]]; eauto 10.
Qed.

End call_specs.

(** ** The structural properties are kept by every effect *)

Section invariants.
Context {K : Type} `{IdType K}.
Implicit Types (g : gmap K (Node K)) (id k p c stem : K) (n : Node K).
Implicit Types (ids : list K).

Lemma parents_linked_in_empty g : parents_linked_in ∅ g ↔ parents_linked g.
Proof.
  split; intros HP k n p Hk; [|intros _]; eauto using not_elem_of_empty.
  intros Hp. eapply HP; eauto. apply not_elem_of_empty.
Qed.

Lemma children_linked_in_empty g : children_linked_in ∅ g ↔ children_linked g.
Proof.
  split.
  - intros HC k n c Hk Hc.
    by destruct (HC k n c Hk (not_elem_of_empty _) Hc) as [_ ?].
  - intros HC k n c Hk _ Hc. split; [apply not_elem_of_empty|]. eauto.
Qed.

(** *** [create] *)

Section created.
Variables (g : gmap K (Node K)) (id : K) (ids : list K).
Hypothesis Hkv : key_is_virus g.
Hypothesis Hid : g !! id = None.
Hypothesis Hids : Forall (λ p, is_Some (g !! p)) ids.

Lemma created_lookup_new :
  created id ids g !! id = Some (mkNode ∅ (list_to_set ids) id).
Proof.
  rewrite created_lookup, decide_True by done. by rewrite viruses_of_keys.
Qed.

Lemma created_lookup_old k :
  k ≠ id →
  created id ids g !! k =
  (λ n, if decide (k ∈ ids) then set_children (children n ∪ {[id]}) n else n)
    <$> g !! k.
Proof. intros Hne. by rewrite created_lookup, decide_False by done. Qed.

Lemma created_lookup_Some k n' :
  created id ids g !! k = Some n' →
  k = id ∧ n' = mkNode ∅ (list_to_set ids) id ∨
  k ≠ id ∧ ∃ n, g !! k = Some n ∧ parents n' = parents n ∧ virus n' = virus n ∧
    children n' = if decide (k ∈ ids) then children n ∪ {[id]} else children n.
Proof.
  destruct (decide (k = id)) as [->|Hne].
  - rewrite created_lookup_new. intros [= <-]. by left.
  - rewrite created_lookup_old by done.
    destruct (g !! k) as [n|]; intros [= <-]. right. split; [done|].
    exists n. by destruct (decide (k ∈ ids)).
Qed.

Lemma created_lookup_present k n :
  g !! k = Some n →
  ∃ n', created id ids g !! k = Some n' ∧ parents n' = parents n ∧
    virus n' = virus n ∧ children n ⊆ children n' ∧
    (k ∈ ids → id ∈ children n').
Proof.
  intros Hk. absent_ne. rewrite created_lookup_old, Hk by done. simpl.
  eexists; split; [done|]. destruct (decide (k ∈ ids)); simpl;
    split_and!; try done; set_solver.
Qed.

Lemma created_key_is_virus : key_is_virus (created id ids g).
Proof.
  intros k n' [[-> ->]|(Hne & n & Hk & _ & -> & _)]%created_lookup_Some; eauto.
Qed.

Lemma created_symmetric : symmetric g → symmetric (created id ids g).
Proof.
  intros [HP HC]. split.
  - intros k n' p [[-> ->]|(Hne & n & Hk & Hpar & _ & _)]%created_lookup_Some Hp.
    + simpl in Hp. apply elem_of_list_to_set in Hp.
      destruct (proj1 (Forall_forall _ _) Hids _ Hp) as [pn Hpn].
      destruct (created_lookup_present _ _ Hpn) as (pn' & ? & _ & _ & _ & ?).
      eauto.
    + rewrite Hpar in Hp. destruct (HP _ _ _ Hk Hp) as (pn & Hpn & Hin).
      destruct (created_lookup_present _ _ Hpn) as (pn' & ? & _ & _ & ? & _).
      eauto.
  - intros k n' c [[-> ->]|(Hne & n & Hk & _ & _ & Hch)]%created_lookup_Some Hc.
    + simpl in Hc. set_solver.
    + rewrite Hch in Hc.
      assert (c ∈ children n ∨ c = id ∧ k ∈ ids) as [Hin|[-> Hin]].
      { destruct (decide (k ∈ ids)); set_solver. }
      * destruct (HC _ _ _ Hk Hin) as (cn & Hcn & Hkin).
        destruct (created_lookup_present _ _ Hcn) as (cn' & ? & Hpar & _).
        exists cn'. by rewrite Hpar.
      * rewrite created_lookup_new. eexists; split; [done|]. simpl.
        by apply elem_of_list_to_set.
Qed.

Lemma created_non_stem_has_parent stem :
  ids ≠ [] → non_stem_has_parent stem g →
  non_stem_has_parent stem (created id ids g).
Proof.
  intros Hne Hnp k n' [[-> ->]|(_ & n & Hk & -> & _)]%created_lookup_Some Hks.
  - simpl. destruct ids as [|p ps]; [done|]. set_solver.
  - eauto.
Qed.

Lemma created_stem_is_root stem :
  stem_is_root stem g → stem_is_root stem (created id ids g).
Proof.
  intros (n & Hn & Hroot).
  destruct (created_lookup_present _ _ Hn) as (n' & ? & Hpar & _).
  exists n'. by rewrite Hpar.
Qed.
End created.

(** *** [connect] *)

Lemma connected_lookup g child_id parent_id k cn pn :
  key_is_virus g →
  g !! child_id = Some cn → g !! parent_id = Some pn →
  parent_id ∉ parents cn →
  connected child_id parent_id g !! k =
  (λ n, mkNode
     (if decide (k = parent_id) then children n ∪ {[child_id]} else children n)
     (if decide (k = child_id) then parents n ∪ {[parent_id]} else parents n)
     (virus n)) <$> g !! k.
Proof.
  intros Hkv Hc Hp Hnot. erewrite connected_Some by done.
  rewrite (Hkv _ _ Hc), (Hkv _ _ Hp). rewrite !lookup_alter.
  destruct (decide (parent_id = k)) as [->|]; rewrite ?lookup_alter;
    destruct (decide (child_id = k)) as [->|];
    rewrite ?Hc, ?Hp; simplify_eq/=; repeat case_decide; simplify_eq/=;
    try done.
  by destruct (g !! k) as [[]|].
Qed.

Lemma connected_cases g child_id parent_id :
  connected child_id parent_id g = g ∨
  ∃ cn pn, g !! child_id = Some cn ∧ g !! parent_id = Some pn ∧
    parent_id ∉ parents cn.
Proof.
  unfold connected. destruct (g !! child_id) as [cn|]; [|by left].
  destruct (g !! parent_id) as [pn|]; [|by left].
  case_bool_decide; [by left|]. right. eauto.
Qed.

Lemma connected_key_is_virus g child_id parent_id :
  key_is_virus g → key_is_virus (connected child_id parent_id g).
Proof.
  intros Hkv.
  destruct (connected_cases g child_id parent_id)
    as [->|(cn & pn & Hc & Hp & Hnot)]; [done|].
  intros k n'. rewrite (connected_lookup _ _ _ _ _ _ Hkv Hc Hp Hnot).
  destruct (g !! k) as [n|] eqn:Hk; intros [= <-]. simpl. eauto.
Qed.

Lemma connected_symmetric g child_id parent_id :
  key_is_virus g → symmetric g → symmetric (connected child_id parent_id g).
Proof.
  intros Hkv.
  destruct (connected_cases g child_id parent_id)
    as [->|(cn & pn & Hc & Hp & Hnot)]; [done|].
  pose proof (λ k, connected_lookup _ _ _ k _ _ Hkv Hc Hp Hnot) as Hlook.
  intros [HP HC]. split.
  - intros k n' p. rewrite Hlook.
    destruct (g !! k) as [n|] eqn:Hk; intros [= <-]. simpl. intros Hin.
    assert (p ∈ parents n ∨ p = parent_id ∧ k = child_id) as [Hin'|[-> ->]].
    { destruct (decide (k = child_id)); set_solver. }
    + destruct (HP _ _ _ Hk Hin') as (pn' & Hpn' & Hkin).
      rewrite Hlook, Hpn'. simpl. eexists; split; [done|]. simpl.
      destruct (decide (p = parent_id)); set_solver.
    + rewrite Hlook, Hp. simpl.
      eexists; split; [done|]. simpl. rewrite decide_True by done. set_solver.
  - intros k n' c. rewrite Hlook.
    destruct (g !! k) as [n|] eqn:Hk; intros [= <-]. simpl. intros Hin.
    assert (c ∈ children n ∨ c = child_id ∧ k = parent_id) as [Hin'|[-> ->]].
    { destruct (decide (k = parent_id)); set_solver. }
    + destruct (HC _ _ _ Hk Hin') as (cn' & Hcn' & Hkin).
      rewrite Hlook, Hcn'. simpl. eexists; split; [done|]. simpl.
      destruct (decide (c = child_id)); set_solver.
    + rewrite Hlook, Hc. simpl.
      eexists; split; [done|]. simpl. rewrite decide_True by done. set_solver.
Qed.

Lemma connected_non_stem_has_parent g child_id parent_id stem :
  key_is_virus g → non_stem_has_parent stem g →
  non_stem_has_parent stem (connected child_id parent_id g).
Proof.
  intros Hkv.
  destruct (connected_cases g child_id parent_id)
    as [->|(cn & pn & Hc & Hp & Hnot)]; [done|].
  intros Hnp k n'. rewrite (connected_lookup _ _ _ _ _ _ Hkv Hc Hp Hnot).
  destruct (g !! k) as [n|] eqn:Hk; intros [= <-] Hks. simpl.
  specialize (Hnp _ _ Hk Hks).
  destruct (decide (k = child_id)); set_solver.
Qed.

Lemma connected_stem_is_root g child_id parent_id stem :
  key_is_virus g → child_id ≠ stem → stem_is_root stem g →
  stem_is_root stem (connected child_id parent_id g).
Proof.
  intros Hkv.
  destruct (connected_cases g child_id parent_id)
    as [->|(cn & pn & Hc & Hp & Hnot)]; [done|].
  intros Hne (n & Hn & Hroot). unfold stem_is_root.
  rewrite (connected_lookup _ _ _ _ _ _ Hkv Hc Hp Hnot), Hn. simpl.
  eexists; split; [done|]. simpl. by rewrite decide_False.
Qed.

(** *** [remove] *)

Lemma cascade_top fuel g id g' :
  key_is_virus g → symmetric g → cascade fuel g g id = Some g' →
  evolves {[id]} g g' ∧ g' !! id = None ∧ symmetric g'.
Proof.
  intros Hkv [HP HC] Hrun.
  apply parents_linked_in_empty in HP. apply children_linked_in_empty in HC.
  destruct (cascade_sound fuel ∅ g g id g' Hkv (shrinks_refl g) HP HC Hrun)
    as (Hev & Hgone & HP' & HC').
  split_and!; [done..|].
  split; [by apply parents_linked_in_empty|by apply children_linked_in_empty].
Qed.

Lemma evolves_non_stem_has_parent X stem g g' :
  evolves X g g' → non_stem_has_parent stem g → non_stem_has_parent stem g'.
Proof.
  intros (Hs & Ho & _) Hnp k n' Hk' Hks Hemp.
  destruct (Hs _ _ Hk') as (n & Hk & _). eapply Hnp; eauto.
Qed.

Lemma evolves_stem_is_root X stem g g' :
  evolves X g g' → stem ∉ X → stem_is_root stem g → stem_is_root stem g'.
Proof.
  intros (Hs & _ & Hv & _) HX (n & Hn & Hroot).
  destruct (Hv _ _ Hn Hroot HX) as [n' Hn'].
  destruct (Hs _ _ Hn') as (n0 & Hn0 & _ & Hsub & _). simplify_eq.
  exists n'. split; [done|]. set_solver.
Qed.

End invariants.

(** ** The invariant of the reachable states *)

Section reachable_states.
Context {K : Type} `{IdType K} {Virus : Type} `{!VirusType K Virus}.
Implicit Types (σ : state K Virus) (g : gmap K (Node K)) (id p stem : K).
Implicit Types (c : call K).

Lemma virus_set_ok_insert (vs : gmap K Virus) k :
  virus_set_ok vs →
  virus_set_ok match vs !! k with
               | Some _ => vs
               | None => <[k := Virus_ctor k]> vs
               end ∧
  is_Some (match vs !! k with
           | Some _ => vs
           | None => <[k := Virus_ctor k]> vs
           end !! k).
Proof.
  intros Hvs. destruct (vs !! k) as [v|] eqn:Hk.
  - rewrite Hk. eauto.
  - rewrite lookup_insert_eq. split; [|eauto].
    intros k' v [[<- <-]|[_ ?]]%lookup_insert_Some; eauto.
Qed.

Lemma subscript_spec id σ r σ' :
  subscript id σ = (r, σ') →
  stem_id σ' = stem_id σ ∧ graph σ' = graph σ ∧
  (key_is_virus (graph σ) → virus_set_ok (virus_set σ) →
     virus_set_ok (virus_set σ') ∧
     match r with
     | Ret v => is_Some (graph σ !! id) ∧ v = Virus_ctor id
     | Throw e =>
         e = ForeignException ∨ e = VirusNotFound ∧ graph σ !! id = None
     end).
Proof.
  intros Hr. unfold subscript in Hr. minv Hr; tidy; simpl.
  all: split; [done|]; split; [done|]; intros Hkv Hvs.
  all: repeat match goal with
       | Hn : graph _ !! _ = Some ?n |- _ =>
           lazymatch goal with
           | _ : virus n = _ |- _ => fail
           | _ => pose proof (Hkv _ _ Hn)
           end
       end; simplify_eq/=.
  all: rewrite ?get_id_ctor in *.
  all: try (split; [done|eauto]; fail).
  all: match goal with
       | |- virus_set_ok match ?vs !! ?k with _ => _ end ∧ _ =>
           destruct (virus_set_ok_insert vs k Hvs) as [Hvs' [v' Hv']]
       end; (split; [done|]); eauto.
  congruence.
Qed.

Lemma exec_mutating_spec c σ r σ' :
  mutating c → exec c σ = (r, σ') →
  stem_id σ' = stem_id σ ∧ virus_set σ' = virus_set σ ∧
  match r with
  | Throw _ => graph σ' = graph σ
  | Ret _ => effect (stem_id σ) c (graph σ) (graph σ')
  end.
Proof.
  destruct c; simpl; try done; intros _ Hr.
  - apply create_spec in Hr
      as [(e & -> & [= ? ? ?] & _)|(-> & ? & ? & f & ->)]; eauto.
  - apply create_multi_spec in Hr
      as [(e & -> & [= ? ? ?] & _)|(-> & ? & ? & f & ->)]; eauto.
  - apply connect_spec in Hr
      as [(e & -> & [= ? ? ?] & _)|(-> & ? & ? & f & ->)]; eauto.
  - apply remove_spec in Hr
      as [(e & -> & [= ? ? ?] & _)|(-> & ? & ? & g' & f & ? & ->)]; eauto.
Qed.

Lemma exec_reading_spec c σ r σ' :
  ¬ mutating c → exec c σ = (r, σ') →
  stem_id σ' = stem_id σ ∧ graph σ' = graph σ ∧
  (key_is_virus (graph σ) → virus_set_ok (virus_set σ) →
   virus_set_ok (virus_set σ')).
Proof.
  destruct c; simpl; try done; intros _ Hr.
  - apply bind_inv in Hr as [(a & σ1 & Ha & Hr)|(e & Ha & _)];
      apply quiet_exists in Ha as [f ->]; [minv Hr|]; done.
  - apply bind_inv in Hr as [(a & σ1 & Ha & Hr)|(e & Ha & _)];
      apply subscript_spec in Ha as (? & ? & Hvs); [minv Hr|];
      split_and!; try done; intros; by apply Hvs.
  - apply bind_inv in Hr as [(a & σ1 & Ha & Hr)|(e & Ha & _)];
      apply quiet_get_parents in Ha as [f ->]; [minv Hr|]; done.
Qed.

Lemma effect_graph_invariants stem c g g' :
  effect stem c g g' →
  key_is_virus g → symmetric g → non_stem_has_parent stem g →
  key_is_virus g' ∧ symmetric g' ∧ non_stem_has_parent stem g'.
Proof.
  destruct c; simpl; try (by intros ->).
  - intros (Hid & Hp & ->) Hkv Hsym Hnp.
    assert (Forall (λ p, is_Some (g !! p)) [parent_id]) by by constructor.
    split_and!; [by apply created_key_is_virus|by apply created_symmetric|
                 by apply created_non_stem_has_parent].
  - intros (Hid & Hp & ->) Hkv Hsym Hnp. case_bool_decide; [done|].
    split_and!; [by apply created_key_is_virus|by apply created_symmetric|
                 by apply created_non_stem_has_parent].
  - intros (_ & _ & ->) Hkv Hsym Hnp.
    split_and!; [by apply connected_key_is_virus|by apply connected_symmetric|
                 by apply connected_non_stem_has_parent].
  - intros (_ & _ & Hrun) Hkv Hsym Hnp.
    destruct (cascade_top _ _ _ _ Hkv Hsym Hrun) as (Hev & _ & Hsym').
    split_and!; [|done|by eapply evolves_non_stem_has_parent].
    eapply key_is_virus_shrinks; [apply Hev|done].
Qed.

Lemma effect_stem_is_root stem c g g' :
  effect stem c g g' → ¬ links_stem stem c →
  key_is_virus g → symmetric g → stem_is_root stem g → stem_is_root stem g'.
Proof.
  destruct c; simpl; try (by intros ->).
  - intros (Hid & Hp & ->) _ Hkv _ Hroot.
    assert (Forall (λ p, is_Some (g !! p)) [parent_id]) by by constructor.
    by apply created_stem_is_root.
  - intros (Hid & Hp & ->) _ Hkv _ Hroot. case_bool_decide; [done|].
    by apply created_stem_is_root.
  - intros (_ & _ & ->) Hne Hkv _ Hroot. by apply connected_stem_is_root.
  - intros (_ & Hne & Hrun) _ Hkv Hsym Hroot.
    destruct (cascade_top _ _ _ _ Hkv Hsym Hrun) as (Hev & _ & _).
    eapply evolves_stem_is_root; [done| |done]. set_solver.
Qed.

Lemma construct_well_formed stem : well_formed stem (construct (Virus:=Virus) stem).
Proof.
  split_and!; simpl.
  - done.
  - intros k n [<- <-]%lookup_singleton_Some. done.
  - split; intros k n ? [<- <-]%lookup_singleton_Some; simpl; set_solver.
  - intros k n [<- <-]%lookup_singleton_Some. done.
  - intros k v. by rewrite lookup_empty.
Qed.

Lemma exec_well_formed stem c σ r σ' :
  well_formed stem σ → exec c σ = (r, σ') → well_formed stem σ'.
Proof.
  intros (Hstem & Hkv & Hsym & Hnp & Hvs) Hr.
  assert (mutating c ∨ ¬ mutating c) as [Hm|Hm] by (destruct c; simpl; auto).
  - destruct (exec_mutating_spec _ _ _ _ Hm Hr) as (Hs & Hv & Hres).
    unfold well_formed. rewrite Hs, Hv. destruct r as [[]|e].
    + rewrite Hstem in Hres.
      destruct (effect_graph_invariants _ _ _ _ Hres Hkv Hsym Hnp)
        as (? & ? & ?). done.
    + by rewrite Hres.
  - destruct (exec_reading_spec _ _ _ _ Hm Hr) as (Hs & Hg & Hv).
    unfold well_formed. rewrite Hs, Hg. split_and!; auto.
Qed.

Lemma with_fuse_well_formed stem f σ :
  well_formed stem σ → well_formed stem (with_fuse f σ).
Proof. done. Qed.

Theorem reachable_by_well_formed allowed stem σ :
  reachable_by (Virus:=Virus) allowed stem σ → well_formed stem σ.
Proof.
  induction 1 as [|σ c f r σ' _ IH _ Hr].
  - apply construct_well_formed.
  - eapply exec_well_formed; [|done]. by apply with_fuse_well_formed.
Qed.

Theorem reachable_unlinked_stem_is_root stem σ :
  reachable_unlinked_stem (Virus:=Virus) stem σ → stem_is_root stem (graph σ).
Proof.
  induction 1 as [|σ c f r σ' Hreach IH Hc Hr].
  - simpl. exists (mkNode ∅ ∅ stem). by rewrite lookup_singleton_eq.
  - apply reachable_by_well_formed in Hreach as (Hstem & Hkv & Hsym & _).
    assert (mutating c ∨ ¬ mutating c) as [Hm|Hm] by (destruct c; simpl; auto).
    + destruct (exec_mutating_spec _ _ _ _ Hm Hr) as (_ & _ & Hres).
      simpl in Hres. rewrite Hstem in Hres. destruct r as [[]|e].
      * by eapply effect_stem_is_root.
      * by rewrite Hres.
    + destruct (exec_reading_spec _ _ _ _ Hm Hr) as (_ & Hg & _).
      by rewrite Hg.
Qed.

End reachable_states.

(** ** The outcome of each call when the user code throws nothing *)

Section results.
Context {K : Type} `{IdType K} {Virus : Type} `{!VirusType K Virus}.
Implicit Types (σ : state K Virus) (g : gmap K (Node K)) (id p stem : K).
Implicit Types (ids : list K).

Lemma with_fuse_None_eq f σ σ' :
  σ' = with_fuse f σ → fuse σ' = None → σ' = with_fuse None σ.
Proof. intros -> Hf. simpl in Hf. by subst. Qed.

Lemma exists_result id σ :
  result (exists_ id) σ = Ret (bool_decide (is_Some (graph σ !! id))).
Proof. done. Qed.

Lemma push_back_all {A} (l : list A) : ∀ acc σ,
  fuse σ = None →
  for_each push_back l acc σ = (Ret (acc ++ l), σ).
Proof.
  induction l as [|a l IH]; intros acc σ Hf; simpl.
  - by rewrite app_nil_r.
  - unfold bind, push_back at 1, bind, may_throw. rewrite Hf. simpl.
    rewrite IH by done. by rewrite <-app_assoc.
Qed.

Lemma get_parents_result id σ :
  result (get_parents id) σ =
  match graph σ !! id with
  | Some n => Ret (ascending (parents n))
  | None => Throw VirusNotFound
  end.
Proof.
  unfold result, get_parents, bind, exists_, bind, map_contains, bind. simpl.
  destruct (graph σ !! id) as [n|] eqn:Hid; simpl; [|done].
  unfold map_at, bind. simpl. rewrite Hid. simpl.
  by rewrite push_back_all.
Qed.

Lemma create_result id p σ :
  create id p (with_fuse None σ) =
  match graph σ !! id, graph σ !! p with
  | Some _, _ => (Throw VirusAlreadyCreated, with_fuse None σ)
  | None, None => (Throw VirusNotFound, with_fuse None σ)
  | None, Some _ =>
      (Ret tt, with_fuse None (with_graph (created id [p] (graph σ)) σ))
  end.
Proof.
  destruct (create id p (with_fuse None σ)) as [r σ'] eqn:Hr.
  destruct (calm_create id p (with_fuse None σ) _ _ eq_refl Hr) as [Hf Hne].
  apply create_spec in Hr as [(e & -> & Hm & He)|(-> & Hid & [pn Hp] & f & Hσ)];
    simpl in *.
  - assert (σ' = with_fuse None σ) as ->.
    { destruct σ', σ. unfold members in Hm. simpl in *. by simplify_eq. }
    destruct He as [->|[[-> [n Hn]]|(-> & Hid & Hp)]]; [done|..].
    + by rewrite Hn.
    + by rewrite Hid, Hp.
  - rewrite Hid, Hp. f_equal. by eapply with_fuse_None_eq.
Qed.

Lemma create_multi_result id ids σ :
  create_multi id ids (with_fuse None σ) =
  match graph σ !! id with
  | Some _ => (Throw VirusAlreadyCreated, with_fuse None σ)
  | None =>
      if decide (Forall (λ p, is_Some (graph σ !! p)) ids) then
        (Ret tt,
         with_fuse None
           (with_graph (if bool_decide (ids = []) then graph σ
                        else created id ids (graph σ)) σ))
      else (Throw VirusNotFound, with_fuse None σ)
  end.
Proof.
  destruct (create_multi id ids (with_fuse None σ)) as [r σ'] eqn:Hr.
  destruct (calm_create_multi id ids (with_fuse None σ) _ _ eq_refl Hr) as [Hf Hne].
  apply create_multi_spec in Hr
    as [(e & -> & Hm & He)|(-> & Hid & Hall & f & Hσ)]; simpl in *.
  - assert (σ' = with_fuse None σ) as ->.
    { destruct σ', σ. unfold members in Hm. simpl in *. by simplify_eq. }
    destruct He as [->|[[-> [n Hn]]|(-> & Hid & Hex)]]; [done|..].
    + by rewrite Hn.
    + rewrite Hid. rewrite decide_False; [done|].
      intros Hall. apply Exists_exists in Hex as (p & Hin & Hp).
      rewrite Forall_forall in Hall. apply Hall in Hin as [? ?]. congruence.
  - rewrite Hid, decide_True by done. f_equal. by eapply with_fuse_None_eq.
Qed.

Lemma connect_result child_id parent_id σ :
  connect child_id parent_id (with_fuse None σ) =
  match graph σ !! child_id, graph σ !! parent_id with
  | Some _, Some _ =>
      (Ret tt,
       with_fuse None (with_graph (connected child_id parent_id (graph σ)) σ))
  | _, _ => (Throw VirusNotFound, with_fuse None σ)
  end.
Proof.
  destruct (connect child_id parent_id (with_fuse None σ)) as [r σ'] eqn:Hr.
  destruct (calm_connect child_id parent_id (with_fuse None σ) _ _ eq_refl Hr) as [Hf Hne].
  apply connect_spec in Hr
    as [(e & -> & Hm & He)|(-> & [cn Hc] & [pn Hp] & f & Hσ)]; simpl in *.
  - assert (σ' = with_fuse None σ) as ->.
    { destruct σ', σ. unfold members in Hm. simpl in *. by simplify_eq. }
    destruct He as [->|[-> [Hn|Hn]]]; [done|..]; rewrite Hn; [done|].
    by destruct (graph σ !! child_id).
  - rewrite Hc, Hp. f_equal. by eapply with_fuse_None_eq.
Qed.

Lemma remove_result fuel id σ :
  ∃ e, (e = OutOfRange ∨ e = StackExhausted) ∧
  remove fuel id (with_fuse None σ) =
  match graph σ !! id with
  | None => (Throw VirusNotFound, with_fuse None σ)
  | Some _ =>
      if decide (id = stem_id σ) then
        (Throw TriedToRemoveStemVirus, with_fuse None σ)
      else
        match cascade fuel (graph σ) (graph σ) id with
        | Some g' => (Ret tt, with_fuse None (with_graph g' σ))
        | None => (Throw e, with_fuse None σ)
        end
  end.
Proof.
  destruct (remove fuel id (with_fuse None σ)) as [r σ'] eqn:Hr.
  destruct (calm_remove fuel id (with_fuse None σ) _ _ eq_refl Hr) as [Hf Hne].
  apply remove_spec in Hr
    as [(e & -> & Hm & He)|(-> & [n Hn] & Hs & g' & f & Hrun & Hσ)];
    simpl in *.
  - assert (σ' = with_fuse None σ) as ->.
    { destruct σ', σ. unfold members in Hm. simpl in *. by simplify_eq. }
    destruct He as [->|[[-> Hn]|[(-> & [n Hn] & Hs)|(He & [n Hn] & Hs & Hrun)]]];
      [done|..].
    + exists OutOfRange. split; [by left|]. by rewrite Hn.
    + exists OutOfRange. split; [by left|]. by rewrite Hn, decide_True.
    + exists e. split; [done|]. by rewrite Hn, decide_False, Hrun.
  - exists OutOfRange. split; [by left|].
    rewrite Hn, decide_False, Hrun by done. f_equal.
    by eapply with_fuse_None_eq.
Qed.

End results.

(** ** Properties of [create] *)

Section create_properties.
Context {K : Type} `{IdType K} {Virus : Type} `{!VirusType K Virus}.
Implicit Types (σ : state K Virus) (g : gmap K (Node K)) (id p stem : K).
Implicit Types (ids : list K) (c : call K).

(** C1. A mutating call ([create] in either overload, [connect], [remove])
    that throws, whatever it throws and wherever the user code made it
    throw, leaves every member as it was before the call; a mutating call
    that returns has applied its whole effect to the graph and touched
    nothing else. *)
Theorem mutating_call_is_atomic c σ r σ' :
  mutating c → exec c σ = (r, σ') →
  match r with
  | Throw _ => members σ' = members σ
  | Ret _ =>
      effect (stem_id σ) c (graph σ) (graph σ') ∧
      virus_set σ' = virus_set σ ∧ stem_id σ' = stem_id σ
  end.
Proof.
  intros Hm Hr. destruct (exec_mutating_spec _ _ _ _ Hm Hr) as (Hs & Hv & Hres).
  destruct r; [done|]. unfold members. by rewrite Hs, Hv, Hres.
Qed.

(** C4. When [id] is absent and [parent_id] present, [create(id,
    parent_id)] returns unless the user code throws, and once it has
    returned [exists(id)] is true, [get_parents(id)] is the one-element
    sequence [parent_id], and [id] is a child of [parent_id]. *)
Theorem create_postcondition stem σ id parent_id :
  reachable stem σ →
  graph σ !! id = None → is_Some (graph σ !! parent_id) →
  result (create id parent_id) σ = Ret tt ∧
  ∀ f σ', create id parent_id (with_fuse f σ) = (Ret tt, σ') →
    result (exists_ id) σ' = Ret true ∧
    result (get_parents id) σ' = Ret [parent_id] ∧
    ∃ pn, graph σ' !! parent_id = Some pn ∧ id ∈ children pn.
Proof.
  intros Hreach Hid [pn Hp].
  apply reachable_by_well_formed in Hreach as (_ & Hkv & _).
  split.
  { unfold result. by rewrite create_result, Hid, Hp. }
  intros f σ' Hr.
  apply create_spec in Hr as [(e & ? & _)|(_ & _ & _ & f' & ->)]; [done|].
  assert (Forall (λ p, is_Some (graph σ !! p)) [parent_id]) as Hall
    by (constructor; eauto).
  simpl. split_and!.
  - rewrite exists_result. simpl. by rewrite created_lookup_new.
  - rewrite get_parents_result. simpl. rewrite created_lookup_new by done.
    simpl. by rewrite union_empty_r_L, ascending_singleton.
  - destruct (created_lookup_present (graph σ) id [parent_id] Hkv Hid Hall _ _ Hp)
      as (pn' & ? & _ & _ & _ & Hin).
    exists pn'. split; [done|]. apply Hin. by left.
Qed.

(** C5. Both overloads of [create] throw [VirusAlreadyCreated] when [id]
    is present, whatever the parents are; they throw [VirusNotFound] when
    [id] is absent and a parent is missing; (the user code throwing
    nothing).  Whatever [create] throws, no member has changed, so the
    node [id] is no more in the graph than before; after [VirusNotFound]
    it is not in the graph. *)
Theorem create_failures σ id parent_id parent_ids :
  (is_Some (graph σ !! id) →
     result (create id parent_id) σ = Throw VirusAlreadyCreated ∧
     result (create_multi id parent_ids) σ = Throw VirusAlreadyCreated) ∧
  (graph σ !! id = None → graph σ !! parent_id = None →
     result (create id parent_id) σ = Throw VirusNotFound) ∧
  (graph σ !! id = None → Exists (λ p, graph σ !! p = None) parent_ids →
     result (create_multi id parent_ids) σ = Throw VirusNotFound) ∧
  (∀ f e σ',
     create id parent_id (with_fuse f σ) = (Throw e, σ') ∨
     create_multi id parent_ids (with_fuse f σ) = (Throw e, σ') →
     members σ' = members σ ∧ graph σ' !! id = graph σ !! id ∧
     (e = VirusNotFound → result (exists_ id) σ' = Ret false)).
Proof.
  split_and!.
  - intros [n Hn]. unfold result.
    by rewrite create_result, create_multi_result, Hn.
  - intros Hid Hp. unfold result. by rewrite create_result, Hid, Hp.
  - intros Hid Hex. unfold result. rewrite create_multi_result, Hid.
    rewrite decide_False; [done|]. intros Hall.
    apply Exists_exists in Hex as (p & Hin & Hp).
    rewrite Forall_forall in Hall. apply Hall in Hin as [? ?]. congruence.
  - intros f e σ' [Hr|Hr].
    + apply create_spec in Hr as [(e' & [= <-] & Hm & He)|(? & _)]; [|done].
      pose proof Hm as Hg. injection Hg as Hg _ _. simpl in Hg.
      split_and!; [done|by rewrite Hg|].
      intros ->. rewrite exists_result, Hg. simpl.
      destruct He as [?|[[? _]|(_ & Hid & _)]]; [done..|].
      simpl in Hid. rewrite Hid.
      by rewrite bool_decide_eq_false_2 by by intros [? ?].
    + apply create_multi_spec in Hr as [(e' & [= <-] & Hm & He)|(? & _)];
        [|done].
      pose proof Hm as Hg. injection Hg as Hg _ _. simpl in Hg.
      split_and!; [done|by rewrite Hg|].
      intros ->. rewrite exists_result, Hg. simpl.
      destruct He as [?|[[? _]|(_ & Hid & _)]]; [done..|].
      simpl in Hid. rewrite Hid.
      by rewrite bool_decide_eq_false_2 by by intros [? ?].
Qed.

(** C7 (amended). [create(id, {})] with an absent [id] returns without
    creating the node; with a present [id] it throws
    [VirusAlreadyCreated]; in both cases no member changes. *)
Theorem create_without_parents σ id :
  (graph σ !! id = None → result (create_multi id []) σ = Ret tt) ∧
  (is_Some (graph σ !! id) →
     result (create_multi id []) σ = Throw VirusAlreadyCreated) ∧
  (∀ f r σ', create_multi id [] (with_fuse f σ) = (r, σ') →
     members σ' = members σ).
Proof.
  split_and!.
  - intros Hid. unfold result. by rewrite create_multi_result, Hid.
  - intros [n Hn]. unfold result. by rewrite create_multi_result, Hn.
  - intros f r σ' Hr.
    apply create_multi_spec in Hr as [(e' & _ & Hm & _)|(_ & _ & _ & f' & ->)];
      [done|].
    simpl. unfold members. simpl. by destruct σ.
Qed.

(** C10. [create(id, {p})] and [create(id, p)] do the same: when the user
    code throws nothing they have the same outcome and leave the same
    object, and under any behaviour of the user code their outcomes agree
    and so do the members they leave, unless one of them was made to throw
    a [ForeignException]. *)
Theorem create_overloads_agree σ id p :
  create_multi id [p] (with_fuse None σ) = create id p (with_fuse None σ) ∧
  ∀ f1 f2 r1 r2 σ1 σ2,
    create id p (with_fuse f1 σ) = (r1, σ1) →
    create_multi id [p] (with_fuse f2 σ) = (r2, σ2) →
    r1 ≠ Throw ForeignException → r2 ≠ Throw ForeignException →
    r1 = r2 ∧ members σ1 = members σ2.
Proof.
  split.
  - rewrite create_result, create_multi_result.
    destruct (graph σ !! id) as [n|] eqn:Hid; [done|].
    destruct (graph σ !! p) as [pn|] eqn:Hp.
    + rewrite decide_True by (constructor; [eauto|constructor]). done.
    + rewrite decide_False; [done|].
      intros [[? ?] _]%Forall_cons. congruence.
  - intros f1 f2 r1 r2 σ1 σ2 H1 H2 Hne1 Hne2.
    apply create_spec in H1
      as [(e1 & -> & Hm1 & He1)|(-> & Hid1 & [pn Hp1] & f1' & ->)];
    apply create_multi_spec in H2
      as [(e2 & -> & Hm2 & He2)|(-> & Hid2 & Hall2 & f2' & ->)];
    simpl in *.
    + change (members (with_fuse f1 σ)) with (members σ) in Hm1.
      change (members (with_fuse f2 σ)) with (members σ) in Hm2.
      split; [|congruence].
      destruct He1 as [->|[[-> [n Hn]]|(-> & Hid & Hp)]]; [done|..];
        destruct He2 as [->|[[-> [n' Hn']]|(-> & Hid' & Hex)]];
        try done; congruence.
    + destruct He1 as [->|[[-> [n Hn]]|(-> & Hid & Hp)]]; [done|congruence|].
      apply Forall_cons in Hall2 as [[? ?] _]. congruence.
    + destruct He2 as [->|[[-> [n' Hn']]|(-> & Hid' & Hex)]];
        [done|congruence|].
      apply Exists_cons in Hex as [?|[]%Exists_nil]. congruence.
    + done.
Qed.

End create_properties.

(** ** Properties of [connect] and [remove], and the invariants *)

Section connect_and_remove_properties.
Context {K : Type} `{IdType K} {Virus : Type} `{!VirusType K Virus}.
Implicit Types (σ : state K Virus) (g : gmap K (Node K)) (id p stem : K).
Implicit Types (ids : list K) (c : call K).

Lemma add_parent_present v g id n :
  g !! id = Some n → v ∈ parents n → add_parent v g id = g.
Proof.
  intros Hn Hv. unfold add_parent. apply map_eq. intros k.
  rewrite lookup_alter. destruct (decide (id = k)) as [<-|]; [|done].
  rewrite Hn. simpl. f_equal. destruct n as [ch ps vi]. unfold set_parents.
  simpl in *. f_equal. set_solver.
Qed.

Lemma add_child_present v g id n :
  g !! id = Some n → v ∈ children n → add_child v g id = g.
Proof.
  intros Hn Hv. unfold add_child. apply map_eq. intros k.
  rewrite lookup_alter. destruct (decide (id = k)) as [<-|]; [|done].
  rewrite Hn. simpl. f_equal. destruct n as [ch ps vi]. unfold set_children.
  simpl in *. f_equal. set_solver.
Qed.

Lemma connected_idempotent child_id parent_id g :
  connected child_id parent_id (connected child_id parent_id g) =
  connected child_id parent_id g.
Proof.
  destruct (connected_cases g child_id parent_id)
    as [Heq|(cn & pn & Hc & Hp & Hnot)]; [by rewrite !Heq|].
  rewrite (connected_Some _ _ _ _ _ Hc Hp Hnot).
  set (g1 := alter _ parent_id _).
  assert (∃ cn1, g1 !! child_id = Some cn1 ∧ virus cn1 = virus cn ∧
                 virus pn ∈ parents cn1) as (cn1 & Hc1 & Hvc & Hin1).
  { unfold g1. destruct (decide (parent_id = child_id)) as [->|].
    - rewrite !lookup_alter_eq, Hc. simpl.
      eexists; (split; [done|]); simpl; split; [done|set_solver].
    - rewrite lookup_alter_ne, lookup_alter_eq, Hc by done. simpl.
      eexists; (split; [done|]); simpl; split; [done|set_solver]. }
  assert (∃ pn1, g1 !! parent_id = Some pn1 ∧ virus pn1 = virus pn ∧
                 virus cn ∈ children pn1) as (pn1 & Hp1 & Hvp & Hin2).
  { unfold g1. rewrite lookup_alter_eq.
    destruct (decide (child_id = parent_id)) as [->|].
    - rewrite lookup_alter_eq, Hc. simpl. simplify_eq.
      eexists; (split; [done|]); simpl; split; [done|set_solver].
    - rewrite lookup_alter_ne, Hp by done. simpl.
      eexists; (split; [done|]); simpl; split; [done|set_solver]. }
  unfold connected. rewrite Hc1, Hp1. case_bool_decide; [done|].
  rewrite Hvc, Hvp. rewrite (add_parent_present _ _ _ _ Hc1 Hin1).
  by rewrite (add_child_present _ _ _ _ Hp1 Hin2).
Qed.

(** C9. [connect] is idempotent.  When both nodes are present and the user
    code throws nothing, [connect] returns, and a second call returns and
    leaves the object as the first one left it; under any behaviour of the
    user code, a call that follows a call that returned changes no member;
    and when [parent_id] already is a parent of [child_id] the call returns
    and nothing has changed. *)
Theorem connect_idempotent σ child_id parent_id :
  is_Some (graph σ !! child_id) → is_Some (graph σ !! parent_id) →
  (∃ σ1, connect child_id parent_id (with_fuse None σ) = (Ret tt, σ1) ∧
         connect child_id parent_id σ1 = (Ret tt, σ1)) ∧
  (∀ f1 f2 σ1 r2 σ2,
     connect child_id parent_id (with_fuse f1 σ) = (Ret tt, σ1) →
     connect child_id parent_id (with_fuse f2 σ1) = (r2, σ2) →
     members σ2 = members σ1) ∧
  (∀ cn, graph σ !! child_id = Some cn → parent_id ∈ parents cn →
     connect child_id parent_id (with_fuse None σ) = (Ret tt, with_fuse None σ)).
Proof.
  intros [cn Hc] [pn Hp]. split_and!.
  - eexists. split.
    + by rewrite connect_result, Hc, Hp.
    + set (g1 := connected child_id parent_id (graph σ)).
      assert (is_Some (g1 !! child_id) ∧ is_Some (g1 !! parent_id))
        as [[cn1 Hc1] [pn1 Hp1]].
      { unfold g1.
        destruct (connected_cases (graph σ) child_id parent_id)
          as [->|(cn' & pn' & Hc' & Hp' & Hnot)]; [eauto|].
        rewrite (connected_Some _ _ _ _ _ Hc' Hp' Hnot).
        rewrite !lookup_alter_is_Some. eauto. }
      change (with_fuse None (with_graph g1 σ))
        with (with_fuse None (with_fuse None (with_graph g1 σ))) at 1.
      rewrite connect_result. simpl. fold g1. rewrite Hc1, Hp1.
      unfold g1. by rewrite connected_idempotent.
  - intros f1 f2 σ1 r2 σ2 H1 H2.
    apply connect_spec in H1 as [(e & ? & _)|(_ & _ & _ & f1' & ->)]; [done|].
    apply connect_spec in H2 as [(e & _ & Hm & _)|(_ & _ & _ & f2' & ->)];
      [done|].
    unfold members. simpl. by rewrite connected_idempotent.
  - intros cn' Hc' Hin. rewrite connect_result, Hc', Hp. do 2 f_equal.
    unfold connected. rewrite Hc', Hp. rewrite bool_decide_eq_true_2 by done.
    by rewrite with_graph_graph.
Qed.

(** C6 (amended). [remove(id)] throws [VirusNotFound] when [id] is absent
    and [TriedToRemoveStemVirus] when [id] is the stem and the stem is
    present, the user code throwing nothing; the stem is present, so
    [remove(stem_id)] throws [TriedToRemoveStemVirus], in every state
    reached without a [connect] that has the stem as the child; and
    whatever [remove] throws, no member has changed. *)
Theorem remove_failures σ fuel id :
  (graph σ !! id = None → result (remove fuel id) σ = Throw VirusNotFound) ∧
  (is_Some (graph σ !! id) → id = stem_id σ →
     result (remove fuel id) σ = Throw TriedToRemoveStemVirus) ∧
  (reachable_unlinked_stem id σ →
     result (remove fuel id) σ = Throw TriedToRemoveStemVirus) ∧
  (∀ f e σ', remove fuel id (with_fuse f σ) = (Throw e, σ') →
     members σ' = members σ).
Proof.
  destruct (remove_result fuel id σ) as (e0 & _ & Hres).
  assert (is_Some (graph σ !! id) → id = stem_id σ →
          result (remove fuel id) σ = Throw TriedToRemoveStemVirus) as Hstem.
  { intros [n Hn] Hs. unfold result. by rewrite Hres, Hn, decide_True. }
  split_and!; [|done| |].
  - intros Hid. unfold result. by rewrite Hres, Hid.
  - intros Hreach.
    pose proof (reachable_unlinked_stem_is_root _ _ Hreach) as (n & Hn & _).
    apply reachable_by_well_formed in Hreach as (Hs & _). eauto.
  - intros f e σ' Hr.
    by apply remove_spec in Hr as [(e' & _ & Hm & _)|(? & _)].
Qed.

Lemma reachable_by_mono (P Q : K → call K → outcome unit → Prop) stem σ :
  (∀ c r, P stem c r → Q stem c r) →
  reachable_by (Virus:=Virus) P stem σ → reachable_by Q stem σ.
Proof.
  intros HPQ. induction 1 as [|σ c f r σ' _ IH Hc Hr].
  - constructor.
  - econstructor; eauto.
Qed.

(** C2 (amended). In every state reached from the constructor by calls of
    the interface, parent and child sets mirror each other (a node lists
    [c] as a child exactly when [c] exists and lists the node as a
    parent) and every node but the stem has a parent; and in every state
    reached without a [connect] that has the stem as the child, the stem
    exists and has no parent. *)
Theorem structural_invariants stem σ :
  (reachable stem σ →
     symmetric (graph σ) ∧ non_stem_has_parent stem (graph σ)) ∧
  (reachable_unlinked_stem stem σ → stem_is_root stem (graph σ)).
Proof.
  split.
  - by intros (_ & _ & ? & ? & _)%reachable_by_well_formed.
  - apply reachable_unlinked_stem_is_root.
Qed.

End connect_and_remove_properties.

(** ** [remove_helper] removes no node that keeps a parent *)

Section cascade_exact.
Context {K : Type} `{IdType K}.
Implicit Types (g live : gmap K (Node K)) (T X : gset K) (x k p c : K).
Implicit Types (n : Node K) (s : gset K).

Lemma fold_option_inv_split {A B} (f : A → B → option A)
    (I : list B → A → Prop) l a a' :
  fold_option f l a = Some a' →
  I [] a →
  (∀ done b rest a1 a2, l = done ++ b :: rest → I done a1 →
     f a1 b = Some a2 → I (done ++ [b]) a2) →
  I l a'.
Proof.
  intros Hrun Hinit Hstep.
  cut (∀ done rest a, l = done ++ rest → I done a →
         fold_option f rest a = Some a' → I l a').
  { intros Hcut. by apply (Hcut [] l a). }
  intros done rest. revert done.
  induction rest as [|b rest IH]; intros done a0 Hl Hdone Hfold; simpl in *.
  - rewrite app_nil_r in Hl. by simplify_eq.
  - destruct (f a0 b) as [a1|] eqn:Hb; [|done]. simpl in Hfold.
    apply (IH (done ++ [b]) a1); [by rewrite <-app_assoc| |done].
    by eapply Hstep.
Qed.

(** One turn of the second loop of [remove_helper]. *)
Lemma children_step_sound fuel T live x l gi c gj :
  key_is_virus live → live !! x = Some l → virus l = x → x ∈ T →
  shrinks gi live → parents_linked_in T gi → children_linked_in T gi →
  (cn ← gi !! c;
   if bool_decide (size (parents cn) = 1) then cascade fuel live gi c
   else cn ← gi !! c; l ← live !! x;
        Some (<[c := set_parents (parents cn ∖ {[virus l]}) cn]> gi)) = Some gj →
  evolves {[x]} gi gj ∧ parents_linked_in T gj ∧ children_linked_in T gj ∧
  ∀ nc, gj !! c = Some nc → x ∉ parents nc.
Proof.
  intros Hkv Hl Hlx HxT Hlive HP HC Hstep.
  destruct (gi !! c) as [cn|] eqn:Hc; [|done]. simpl in Hstep.
  case_bool_decide as Hsize.
  - destruct (cascade_sound fuel T live gi c gj Hkv Hlive HP HC Hstep)
      as (Hev & Hgone & HP' & HC').
    assert (parents cn ≠ ∅) as Hne.
    { intros Hemp. rewrite Hemp, size_empty in Hsize. done. }
    split_and!; [by eapply evolves_target|done..|]. intros nc. congruence.
  - rewrite Hl in Hstep. simpl in Hstep. rewrite Hlx in Hstep.
    injection Hstep as <-.
    destruct (linked_erase_parent T x gi c cn) as [HP' HC']; [done..|].
    split_and!; [by apply evolves_erase_parent|done..|].
    intros nc. rewrite lookup_insert_eq. intros [= <-]. simpl. set_solver.
Qed.

(** When the target of [remove_helper] is not in [T], is not its own
    only parent, and the parents erased so far belong to nodes in [T] or
    to removed nodes, the call removes, besides the target, only nodes
    that are left without a parent, and erases only removed nodes; it
    keeps the nodes in [T] and their parents; and when the target and the
    nodes in [T] go with [x0], so does every node it removes. *)
Theorem cascade_exact fuel : ∀ x0 T live g x g',
  key_is_virus live → parents_linked live → shrinks g live →
  parents_linked_in T g → children_linked_in T g →
  x ∉ T → (∀ n, g !! x = Some n → parents n ≠ {[x]}) →
  erased_doomed T live g →
  doomed x0 live x → (∀ k, k ∈ T → doomed x0 live k) →
  (∀ k, is_Some (live !! k) → g !! k = None → doomed x0 live k) →
  cascade fuel live g x = Some g' →
  erased_doomed T live g' ∧ keeps_parents_in T g g' ∧
  removed_doomed T x live g g' ∧ frozen T g g' ∧
  (∀ k, is_Some (live !! k) → g' !! k = None → doomed x0 live k).
Proof.
  induction fuel as [|fuel IH];
    intros x0 T live g x g' Hkv Hlp Hlive HP HC HxT Hself HK Dx DT Dg Hrun;
    simpl in Hrun; [done|].
  destruct (g !! x) as [n|] eqn:Hx; [|done]. simpl in Hrun.
  specialize (Hself n eq_refl).
  assert (x ∈ parents n → size (parents n) ≠ 1) as Hmore.
  { intros Hin [y Hy%leibniz_equiv]%size_1_elem_of. apply Hself.
    rewrite Hy in Hin |- *. apply elem_of_singleton in Hin. by subst. }
  clear Hself.
  destruct (Hlive _ _ Hx) as (l & Hl & _ & _ & Hvirus).
  assert (virus l = x) as Hlx by eauto. clear Hvirus.
  destruct (fold_option _ (ascending (parents n)) g) as [g1|] eqn:H1;
    [|done]. simpl in Hrun.
  apply (fold_option_impl _ (erase_child x)) in H1; last first.
  { intros a b a' Hab. destruct (a !! x); [|done]. simpl in Hab.
    unfold erase_child. destruct (a !! b); [|done]. simpl in *.
    rewrite Hl in Hab. simpl in Hab. by rewrite Hlx in Hab. }
  destruct (g1 !! x) as [n1'|]; [|done]. simpl in Hrun.
  destruct (fold_option _ (ascending (children n)) g1) as [g2|] eqn:H2;
    [|done]. simpl in Hrun. injection Hrun as <-.
  pose proof (erase_children_evolves _ _ _ _ H1) as Hev1.
  destruct (linked_erase_children _ _ _ _ _ Hx HP HC H1)
    as (HP1 & HC1 & _).
  pose proof (erase_children_lookup _ _ _ _ H1) as Hlook.
  set (T' := T ∪ {[x]}) in *.
  assert (∀ k nk1, g1 !! k = Some nk1 →
            ∃ nk, g !! k = Some nk ∧ parents nk1 = parents nk) as Hpar1.
  { intros k nk1. rewrite Hlook. destruct (g !! k) as [nk|]; intros [= <-].
    exists nk. split; [done|]. by destruct (decide _). }
  assert (∀ k nk, g !! k = Some nk → is_Some (g1 !! k)) as Hdom1.
  { intros k nk Hk. rewrite Hlook, Hk. simpl. eauto. }
  assert (erased_doomed T' live g1) as HK1.
  { intros k n0 nk1 p Hk0 Hk1 Hp.
    destruct (Hpar1 _ _ Hk1) as (nk & Hk & ->).
    destruct (HK _ _ _ _ Hk0 Hk Hp) as [?|[?|Hgone]]; [by left|..].
    - right. left. (set_solver - IH).
    - right. right. eapply shrinks_None; [apply Hev1|done]. }
  assert (NoDup (ascending (children n))) as Hnodup by apply NoDup_ascending.
  assert (∀ c, c ∈ ascending (children n) →
            (c ∉ T) ∧ ∃ cn1, g1 !! c = Some cn1 ∧ x ∈ parents cn1) as Hchild.
  { intros c Hc%elem_of_ascending.
    destruct (HC _ _ _ Hx HxT Hc) as (HcT & cn & Hcn & Hin).
    split; [done|].
    destruct (Hdom1 _ _ Hcn) as [cn1 Hcn1].
    destruct (Hpar1 _ _ Hcn1) as (cn' & Hcn' & Hpar). simplify_eq.
    exists cn1. by rewrite Hpar. }
  assert (∀ k, k ∈ T' → doomed x0 live k) as DT'.
  { intros k [?| ->%elem_of_singleton]%elem_of_union; eauto. }
  set (I := λ (done : list K) (gi : gmap K (Node K)),
    shrinks gi g1 ∧ parents_linked_in T' gi ∧ children_linked_in T' gi ∧
    erased_doomed T' live gi ∧
    (∀ k nk1 ni p, g1 !! k = Some nk1 → gi !! k = Some ni →
       p ∈ parents nk1 → p ∈ T' → p = x ∧ k ∈ done ∨ p ∈ parents ni) ∧
    (∀ k n0 p, live !! k = Some n0 → is_Some (g1 !! k) → gi !! k = None →
       k ≠ x → p ∈ parents n0 → p ∈ T' ∨ gi !! p = None) ∧
    frozen T g1 gi ∧
    (x ∉ done → ∃ xi, gi !! x = Some xi ∧ parents xi = parents n) ∧
    (∀ k, is_Some (live !! k) → gi !! k = None → doomed x0 live k)).
  assert (I (ascending (children n)) g2)
    as (Hs2 & HP2 & HC2 & HK2 & HE2 & HR2 & HF2 & _ & HD2).
  { apply (fold_option_inv_split _ I _ _ _ H2).
    { split_and!; [apply shrinks_refl|done..| | | | |].
      - intros k nk1 ni p ? ? ? _. simplify_eq. by right.
      - intros k n0 p _ [? ?] ?. congruence.
      - intros k nk _ Hk. eauto.
      - intros _. destruct (Hdom1 _ _ Hx) as [x1 Hx1].
        destruct (Hpar1 _ _ Hx1) as (n' & Hn' & Hpar). simplify_eq. eauto.
      - intros k Hk Hnone. apply Dg; [done|].
        rewrite Hlook in Hnone. by destruct (g !! k). }
    clear H2. intros done c rest gi gj Hsplit
      (Hsi & HPi & HCi & HKi & HEi & HRi & HFi & HBi & HDi) Hstep.
    assert (shrinks gi live) as Hlivei.
    { eapply shrinks_trans; [done|].
      eapply shrinks_trans; [apply Hev1|done]. }
    assert (x ∈ T') as HxT' by (set_solver - IH).
    destruct (children_step_sound fuel T' live x l gi c gj
                Hkv Hl Hlx HxT' Hlivei HPi HCi Hstep)
      as (Hevj & HPj & HCj & _).
    pose proof (proj1 Hevj) as Hsj.
    assert (c ∈ ascending (children n)) as Hcin
      by (rewrite Hsplit; (set_solver - IH)).
    destruct (Hchild _ Hcin) as (HcT0 & cn1 & Hcn1 & Hxin).
    assert (c ∉ done) as Hfresh.
    { rewrite Hsplit in Hnodup. apply NoDup_app in Hnodup as (_ & Hdisj & _).
      intros Hin. apply (Hdisj _ Hin). left. }
    destruct (gi !! c) as [cn|] eqn:Hc; [|done]. simpl in Hstep.
    assert (x ∈ parents cn) as Hxcn.
    { destruct (HEi c cn1 cn x Hcn1 Hc Hxin) as [[_ ?]|?];
        [(set_solver - IH)|done..]. }
    case_bool_decide as Hsize.
    - assert (parents cn = {[x]}) as Hsingle.
      { apply size_1_elem_of in Hsize as [y Hy].
        apply leibniz_equiv in Hy. rewrite Hy in Hxcn |- *.
        apply elem_of_singleton in Hxcn. by subst. }
      assert (c ≠ x) as Hcx.
      { intros Heq. rewrite Heq in Hfresh, Hc.
        destruct (HBi Hfresh) as (xi & Hxi & Hparx).
        rewrite Hc in Hxi. injection Hxi as <-.
        rewrite Hparx in Hxcn, Hsize. by apply Hmore. }
      assert (c ∉ T') as HcT.
      { intros [?| ?%elem_of_singleton]%elem_of_union; done. }
      destruct (cascade_sound fuel T' live gi c gj Hkv Hlivei HPi HCi Hstep)
        as (_ & Hgone & _).
      assert (doomed x0 live c) as Dc.
      { destruct (Hlivei _ _ Hc) as (lc & Hlc & _ & Hsub & _).
        apply (doomed_orphan _ _ c lc Hlc).
        - intros Hemp. rewrite Hemp in Hsub. (set_solver - IH).
        - intros p Hp.
          destruct (HKi _ _ _ _ Hlc Hc Hp) as [Hin|[?|Hnone]].
          + rewrite Hsingle in Hin. apply elem_of_singleton in Hin.
            rewrite Hin. apply DT', HxT'.
          + by apply DT'.
          + apply HDi; [|done]. destruct (Hlp _ _ _ Hlc Hp) as (? & ? & _).
            eauto. }
      destruct (IH x0 T' live gi c gj Hkv Hlp Hlivei HPi HCi HcT)
        as (HKj & HEj & HRj & HFj & HDj); [|done..|].
      { intros cn' Hcn'. rewrite Hc in Hcn'. injection Hcn' as <-.
        rewrite Hsingle. intros Heq. apply Hcx.
        assert (c ∈ ({[x]} : gset K)) as Hin by (rewrite Heq; (set_solver - IH)).
        by apply elem_of_singleton in Hin. }
      split_and!; [by eapply shrinks_trans|done..| | | | |done].
      + intros k nk1 nj p Hk1 Hkj Hp HpT.
        destruct (Hsj _ _ Hkj) as (ni & Hki & _).
        destruct (HEi _ _ _ _ Hk1 Hki Hp HpT) as [[-> Hin]|Hin].
        * left. split; [done|]. (set_solver - IH).
        * right. eapply HEj; eauto.
      + intros k n0 p Hk0 Hk1 Hkj Hkx Hp.
        destruct (gi !! k) as [ni|] eqn:Hki.
        * destruct (decide (k = c)) as [->|Hkc].
          -- simplify_eq.
             destruct (HKi _ _ _ _ Hk0 Hc Hp) as [Hin|[?|Hnone]]; [|by left|].
             ++ left. rewrite Hsingle in Hin. (set_solver - IH).
             ++ right. by eapply shrinks_None.
          -- eapply HRj; eauto.
        * destruct (HRi _ _ _ Hk0 Hk1 Hki Hkx Hp) as [?|Hnone]; [by left|].
          right. by eapply shrinks_None.
      + intros k nk HkT Hk. destruct (HFi _ _ HkT Hk) as (ni & Hki & Hpar).
        destruct (HFj k ni) as (nj & Hkj & Hpar'); [(set_solver - IH)|done|].
        exists nj. split; [done|]. congruence.
      + intros Hnot.
        destruct (HBi ltac:((set_solver - IH))) as (xi & Hxi & Hpar).
        destruct (HFj x xi HxT' Hxi) as (xj & Hxj & Hpar').
        exists xj. split; [done|]. congruence.
    - rewrite Hl in Hstep. simpl in Hstep. rewrite Hlx in Hstep.
      injection Hstep as <-.
      split_and!; [by eapply shrinks_trans|done..| | | | | |].
      + intros k n0 nk p Hk0 Hk Hp. destruct (decide (c = k)) as [<-|Hne].
        * rewrite lookup_insert_eq in Hk. injection Hk as <-. simpl.
          destruct (HKi _ _ _ _ Hk0 Hc Hp) as [Hin|[?|Hnone]].
          -- destruct (decide (p = x)) as [->|]; [right; left|left];
               (set_solver - IH).
          -- by right; left.
          -- right. right. rewrite lookup_insert_ne; [done|]. congruence.
        * rewrite lookup_insert_ne in Hk by done.
          destruct (HKi _ _ _ _ Hk0 Hk Hp) as [Hin|[?|Hnone]];
            [by left|by right; left|].
          right. right. rewrite lookup_insert_ne; [done|]. congruence.
      + intros k nk1 nj p Hk1 Hkj Hp HpT. destruct (decide (c = k)) as [<-|Hne].
        * rewrite lookup_insert_eq in Hkj. injection Hkj as <-. simpl.
          destruct (HEi _ _ _ _ Hk1 Hc Hp HpT) as [[-> Hin]|Hin];
            [left; (set_solver - IH)|].
          destruct (decide (p = x)) as [->|]; [left|right]; (set_solver - IH).
        * rewrite lookup_insert_ne in Hkj by done.
          destruct (HEi _ _ _ _ Hk1 Hkj Hp HpT) as [[-> Hin]|Hin];
            [left; (set_solver - IH)|by right].
      + intros k n0 p Hk0 Hk1 Hkj Hkx Hp.
        assert (c ≠ k) as Hne by (intros <-; by rewrite lookup_insert_eq in Hkj).
        rewrite lookup_insert_ne in Hkj by done.
        destruct (HRi _ _ _ Hk0 Hk1 Hkj Hkx Hp) as [?|Hnone]; [by left|].
        right. rewrite lookup_insert_ne; [done|]. congruence.
      + intros k nk HkT Hk. rewrite lookup_insert_ne by congruence.
        by apply HFi.
      + intros Hnot. rewrite lookup_insert_ne by (set_solver - IH).
        apply HBi. (set_solver - IH).
      + intros k Hk Hnone.
        assert (c ≠ k) as Hne by (intros <-; by rewrite lookup_insert_eq in Hnone).
        rewrite lookup_insert_ne in Hnone by done. by apply HDi. }
  split_and!.
  - intros k n0 nk p Hk0 [Hkx Hk]%lookup_delete_Some Hp.
    destruct (HK2 _ _ _ _ Hk0 Hk Hp) as [?|[[?| ->%elem_of_singleton]%elem_of_union|?]].
    + by left.
    + by right; left.
    + right. right. apply lookup_delete_eq.
    + right. right. by apply lookup_delete_None; right.
  - intros k nk nk' p Hk [Hkx Hk']%lookup_delete_Some Hp HpT.
    destruct (Hdom1 _ _ Hk) as [nk1 Hk1].
    destruct (Hpar1 _ _ Hk1) as (nk0 & ? & Hpar). simplify_eq.
    rewrite <-Hpar in Hp.
    destruct (HE2 _ _ _ _ Hk1 Hk' Hp) as [[-> _]|?]; [(set_solver - IH)|done..].
  - intros k n0 p Hk0 [nk Hk] [?|Hk']%lookup_delete_None Hkx Hp; [done|].
    destruct (HR2 _ _ _ Hk0 (Hdom1 _ _ Hk) Hk' Hkx Hp)
      as [[?| ->%elem_of_singleton]%elem_of_union|?].
    + by left.
    + right. apply lookup_delete_eq.
    + right. by apply lookup_delete_None; right.
  - intros k nk HkT Hk. destruct (Hdom1 _ _ Hk) as [nk1 Hk1].
    destruct (Hpar1 _ _ Hk1) as (nk0 & ? & Hpar). simplify_eq.
    destruct (HF2 _ _ HkT Hk1) as (n2 & Hk2 & Hpar2).
    exists n2. split; [|congruence].
    rewrite lookup_delete_ne; [done|]. by intros <-.
  - intros k Hk [->|Hnone]%lookup_delete_None; [done|]. by apply HD2.
Qed.

End cascade_exact.

(** ** [remove_helper] returns *)

Section cascade_progress.
Context {K : Type} `{IdType K}.
Implicit Types (g gi live : gmap K (Node K)) (T X : gset K) (x k p c : K).
Implicit Types (n : Node K) (s : gset K).

Lemma fold_option_progress {A B} (f : A → B → option A)
    (I : list B → A → Prop) l a :
  I [] a →
  (∀ done b rest a1, l = done ++ b :: rest → I done a1 →
     ∃ a2, f a1 b = Some a2 ∧ I (done ++ [b]) a2) →
  ∃ a', fold_option f l a = Some a' ∧ I l a'.
Proof.
  intros Hinit Hstep.
  cut (∀ done rest a, l = done ++ rest → I done a →
         ∃ a', fold_option f rest a = Some a' ∧ I l a').
  { intros Hcut. by apply (Hcut [] l a). }
  intros done rest. revert done.
  induction rest as [|b rest IH]; intros done a0 Hl Hdone; simpl.
  - rewrite app_nil_r in Hl. subst l. eauto.
  - destruct (Hstep _ _ _ _ Hl Hdone) as (a1 & -> & Hb). simpl.
    apply (IH (done ++ [b])); [by rewrite <-app_assoc|done].
Qed.

Lemma shrinks_dom g' g : shrinks g' g → dom g' ⊆ dom g.
Proof.
  intros Hs k [n' Hk]%elem_of_dom. destruct (Hs _ _ Hk) as (n & ? & _).
  apply elem_of_dom. eauto.
Qed.

Lemma size_without_target T x g gi fuel :
  dom gi ⊆ dom g → is_Some (g !! x) → x ∉ T →
  size (dom g ∖ T) ≤ S fuel → size (dom gi ∖ (T ∪ {[x]})) ≤ fuel.
Proof.
  intros Hsub Hx%elem_of_dom HxT Hsize.
  assert (dom gi ∖ (T ∪ {[x]}) ⊆ (dom g ∖ T) ∖ {[x]}) as Hle by set_solver.
  apply subseteq_size in Hle.
  rewrite (size_difference (dom g ∖ T) {[x]}) in Hle;
    [rewrite size_singleton in Hle; lia|].
  by apply singleton_subseteq_l, elem_of_difference.
Qed.

(** [remove_helper] returns when its target is not in [T] and is not its
    own only parent, the links outside [T] are sound, and the recursion
    may go as deep as there are nodes outside [T]; the nodes with a parent
    in [T] stay, with that parent, and so do the nodes in [T], with their
    parents. *)
Theorem cascade_returns fuel : ∀ T live g x,
  key_is_virus live → shrinks g live →
  parents_linked_in T g → children_linked_in T g →
  x ∉ T → is_Some (g !! x) → (∀ n, g !! x = Some n → parents n ≠ {[x]}) →
  size (dom g ∖ T) ≤ fuel →
  ∃ g', cascade fuel live g x = Some g' ∧ spares T x g g' ∧ frozen T g g'.
Proof.
  induction fuel as [|fuel IH];
    intros T live g x Hkv Hlive HP HC HxT [n Hx] Hself Hsize.
  { assert (x ∈ dom g ∖ T) as Hin
      by (apply elem_of_difference; split; [by apply elem_of_dom|done]).
    assert (size (dom g ∖ T) ≠ 0) as Hne
      by (intros Hz%size_empty_iff; set_solver).
    lia. }
  specialize (Hself n Hx).
  assert (x ∈ parents n → size (parents n) ≠ 1) as Hmore.
  { intros Hin [y Hy%leibniz_equiv]%size_1_elem_of. apply Hself.
    rewrite Hy in Hin |- *. apply elem_of_singleton in Hin. by subst. }
  clear Hself.
  destruct (Hlive _ _ Hx) as (l & Hl & _ & _ & Hvirus).
  assert (virus l = x) as Hlx by eauto. clear Hvirus.
  simpl. rewrite Hx. simpl.
  lazymatch goal with
  | |- context [fold_option ?f (ascending (parents n)) g] =>
      destruct (fold_option_progress f
        (λ _ a, ∀ k, is_Some (a !! k) ↔ is_Some (g !! k))
        (ascending (parents n)) g) as (g1 & H1 & _)
  end.
  { done. }
  { intros done p rest a Hsplit Hdom. cbv beta.
    assert (p ∈ parents n) as Hp
      by (apply elem_of_ascending; rewrite Hsplit; (set_solver - IH)).
    destruct (HP _ _ _ Hx HxT Hp) as (pn & Hpn & _).
    destruct (proj2 (Hdom x) ltac:(eauto)) as [xn Hxn].
    destruct (proj2 (Hdom p) ltac:(eauto)) as [pa Hpa].
    rewrite Hxn, Hpa, Hl. simpl. eexists. split; [done|].
    intros k. rewrite lookup_insert_is_Some, <-Hdom.
    split; [intros [<-|[_ ?]]; eauto|]. intros Hk.
    destruct (decide (p = k)); eauto. }
  rewrite H1. simpl.
  apply (fold_option_impl _ (erase_child x)) in H1; last first.
  { intros a b a' Hab. destruct (a !! x); [|done]. simpl in Hab.
    unfold erase_child. destruct (a !! b); [|done]. simpl in *.
    rewrite Hl in Hab. simpl in Hab. by rewrite Hlx in Hab. }
  pose proof (erase_children_evolves _ _ _ _ H1) as Hev1.
  destruct (linked_erase_children _ _ _ _ _ Hx HP HC H1)
    as (HP1 & HC1 & n1 & Hx1 & _).
  pose proof (erase_children_lookup _ _ _ _ H1) as Hlook.
  rewrite Hx1. simpl.
  set (T' := T ∪ {[x]}) in *.
  assert (∀ k nk, g !! k = Some nk →
            ∃ nk1, g1 !! k = Some nk1 ∧ parents nk1 = parents nk) as Hpar1.
  { intros k nk Hk. rewrite Hlook, Hk. simpl. eexists. split; [done|].
    by destruct (decide _). }
  assert (NoDup (ascending (children n))) as Hnodup by apply NoDup_ascending.
  set (J := λ (done : list K) (gi : gmap K (Node K)),
    shrinks gi g1 ∧ parents_linked_in T' gi ∧ children_linked_in T' gi ∧
    (∀ k nk1 p, g1 !! k = Some nk1 → p ∈ parents nk1 → p ∈ T' → k ≠ x →
       p = x ∧ k ∈ done ∨ ∃ ni, gi !! k = Some ni ∧ p ∈ parents ni) ∧
    frozen T g1 gi ∧
    (x ∉ done → ∃ xi, gi !! x = Some xi ∧ parents xi = parents n)).
  lazymatch goal with
  | |- context [fold_option ?f (ascending (children n)) g1] =>
      destruct (fold_option_progress f J (ascending (children n)) g1)
        as (g2 & H2 & (Hs2 & HP2 & HC2 & HA2 & HF2 & _))
  end.
  { split_and!; [apply shrinks_refl|done..| | |].
    - intros k nk1 p Hk Hp _ _. eauto.
    - intros k nk _ Hk. eauto.
    - intros _. destruct (Hpar1 _ _ Hx) as (x1 & Hx1' & Hpar). eauto. }
  { intros done c rest gi Hsplit (Hsi & HPi & HCi & HAi & HFi & HBi). cbv beta.
    assert (shrinks gi live) as Hlivei.
    { eapply shrinks_trans; [done|].
      eapply shrinks_trans; [apply Hev1|done]. }
    assert (c ∈ children n) as Hcin
      by (apply elem_of_ascending; rewrite Hsplit; (set_solver - IH)).
    destruct (HC _ _ _ Hx HxT Hcin) as (HcT & cn0 & Hcn0 & Hxin).
    assert (x ∈ T') as HxT' by (set_solver - IH).
    destruct (Hpar1 _ _ Hcn0) as (cn1 & Hcn1 & Hpar).
    assert (c ∉ done) as Hfresh.
    { rewrite Hsplit in Hnodup. apply NoDup_app in Hnodup as (_ & Hdisj & _).
      intros Hin. apply (Hdisj _ Hin). left. }
    assert (∃ cn, gi !! c = Some cn ∧ x ∈ parents cn) as (cn & Hc & Hxcn).
    { destruct (decide (c = x)) as [Heq|Hcx].
      - rewrite Heq in Hfresh, Hcn0 |- *.
        destruct (HBi Hfresh) as (xi & Hxi & Hparx).
        exists xi. split; [done|]. rewrite Hparx.
        rewrite Hx in Hcn0. by injection Hcn0 as <-.
      - destruct (HAi c cn1 x Hcn1 ltac:(by rewrite Hpar) HxT' Hcx)
          as [[_ ?]|?]; done. }
    rewrite Hc. simpl. case_bool_decide as Hsize1.
    - assert (parents cn = {[x]}) as Hsingle.
      { apply size_1_elem_of in Hsize1 as [y Hy].
        apply leibniz_equiv in Hy. rewrite Hy in Hxcn |- *.
        apply elem_of_singleton in Hxcn. by subst. }
      assert (c ≠ x) as Hcx.
      { intros Heq. rewrite Heq in Hfresh, Hc.
        destruct (HBi Hfresh) as (xi & Hxi & Hparx).
        rewrite Hc in Hxi. injection Hxi as <-.
        rewrite Hparx in Hxcn, Hsize1. by apply Hmore. }
      assert (c ∉ T') as HcT'.
      { intros [?| ?%elem_of_singleton]%elem_of_union; done. }
      destruct (IH T' live gi c Hkv Hlivei HPi HCi HcT')
        as (gj & Hrun & Hsp & HFj).
      { eauto. }
      { intros cn' Hcn'. rewrite Hc in Hcn'. injection Hcn' as <-.
        rewrite Hsingle. intros Heq. apply Hcx.
        assert (c ∈ ({[x]} : gset K)) as Hin by (rewrite Heq; (set_solver - IH)).
        by apply elem_of_singleton in Hin. }
      { apply (size_without_target T x g gi fuel); [|eauto|done..].
        apply shrinks_dom. exact (shrinks_trans _ _ _ Hsi (proj1 Hev1)). }
      exists gj. split; [done|].
      destruct (cascade_sound fuel T' live gi c gj Hkv Hlivei HPi HCi Hrun)
        as ((Hsj & _) & _ & HPj & HCj).
      split_and!; [by eapply shrinks_trans|done..| | |].
      + intros k nk1 p Hk1 Hp HpT Hkx.
        destruct (HAi _ _ _ Hk1 Hp HpT Hkx) as [[-> Hin]|(ni & Hki & Hpi)].
        * left. split; [done|]. (set_solver - IH).
        * destruct (decide (k = c)) as [->|Hkc].
          -- left. rewrite Hc in Hki. injection Hki as <-.
             rewrite Hsingle in Hpi. (set_solver - IH).
          -- right. by eapply Hsp.
      + intros k nk HkT Hk. destruct (HFi _ _ HkT Hk) as (ni & Hki & Hpari).
        destruct (HFj k ni) as (nj & Hkj & Hpar'); [(set_solver - IH)|done|].
        exists nj. split; [done|]. congruence.
      + intros Hnot.
        destruct (HBi ltac:((set_solver - IH))) as (xi & Hxi & Hparx).
        destruct (HFj x xi HxT' Hxi) as (xj & Hxj & Hpar').
        exists xj. split; [done|]. congruence.
    - rewrite Hl. simpl. rewrite Hlx. eexists. split; [done|].
      destruct (linked_erase_parent T' x gi c cn) as [HPj HCj]; [done..|].
      split_and!; [|done..| | |].
      + eapply shrinks_trans; [|done]. by apply evolves_erase_parent.
      + intros k nk1 p Hk1 Hp HpT Hkx.
        destruct (HAi _ _ _ Hk1 Hp HpT Hkx) as [[-> Hin]|(ni & Hki & Hpi)].
        * left. split; [done|]. (set_solver - IH).
        * destruct (decide (c = k)) as [<-|Hkc].
          -- rewrite Hc in Hki. injection Hki as <-.
             destruct (decide (p = x)) as [->|Hpx].
             ++ left. split; [done|]. (set_solver - IH).
             ++ right. rewrite lookup_insert_eq. eexists. split; [done|].
                simpl. (set_solver - IH).
          -- right. rewrite lookup_insert_ne by done. eauto.
      + intros k nk HkT Hk. rewrite lookup_insert_ne by congruence.
        by apply HFi.
      + intros Hnot. rewrite lookup_insert_ne by (set_solver - IH).
        apply HBi. (set_solver - IH). }
  rewrite H2. simpl. eexists. split; [done|]. split.
  - intros k nk p Hk Hp HpT Hkx.
    destruct (Hpar1 _ _ Hk) as (nk1 & Hk1 & Hpar).
    destruct (HA2 k nk1 p Hk1 ltac:(by rewrite Hpar) ltac:((set_solver - IH)) Hkx)
      as [[-> _]|(n2 & Hk2 & Hp2)]; [done|].
    exists n2. split; [|done]. by rewrite lookup_delete_ne.
  - intros k nk HkT Hk. destruct (Hpar1 _ _ Hk) as (nk1 & Hk1 & Hpar).
    destruct (HF2 _ _ HkT Hk1) as (n2 & Hk2 & Hpar2).
    exists n2. split; [|congruence].
    rewrite lookup_delete_ne; [done|]. by intros <-.
Qed.

End cascade_progress.

(** ** Walking the children of a node *)

Section iteration.
Context {K : Type} `{IdType K} {Virus : Type} `{!VirusType K Virus}.
Implicit Types (σ : state K Virus) (g : gmap K (Node K)) (id p stem : K).
Implicit Types (it last : children_iterator K Virus) (vs : gmap K Virus).

Lemma length_ascending (s : gset K) : length (ascending s) = size s.
Proof. unfold ascending. by rewrite merge_sort_Permutation. Qed.

Lemma tick_ret {A} (a : A) σ :
  fuse σ = None → (may_throw ;;; ret a) σ = (Ret a, σ).
Proof. intros Hf. unfold bind, may_throw. by rewrite Hf. Qed.

Lemma get_children_begin_result id σ :
  get_children_begin id (with_fuse None σ) =
  match graph σ !! id with
  | Some n =>
      (Ret (mkIterator (ascending (children n)) 0 (virus_set σ)),
       with_fuse None σ)
  | None => (Throw VirusNotFound, with_fuse None σ)
  end.
Proof.
  unfold get_children_begin, bind, exists_, bind, map_contains, bind. simpl.
  destruct (graph σ !! id) as [n|] eqn:Hid; simpl; [|done].
  unfold map_find, bind. simpl. by rewrite Hid.
Qed.

Lemma get_children_end_result id σ :
  get_children_end id (with_fuse None σ) =
  match graph σ !! id with
  | Some n =>
      (Ret (mkIterator (ascending (children n))
              (length (ascending (children n))) (virus_set σ)),
       with_fuse None σ)
  | None => (Throw VirusNotFound, with_fuse None σ)
  end.
Proof.
  unfold get_children_end, bind, exists_, bind, map_contains, bind. simpl.
  destruct (graph σ !! id) as [n|] eqn:Hid; simpl; [|done].
  unfold map_find, bind. simpl. by rewrite Hid.
Qed.

(** Dereferencing a position gives the virus built from the identifier at
    that position, and keeps the iterator's [virus_set] sound. *)
Lemma iterator_deref_result it σ c :
  fuse σ = None →
  children_seq it !! children_vec_it it = Some c →
  virus_set_ok (it_virus_set it) →
  ∃ vs, virus_set_ok vs ∧
    iterator_deref it σ =
    (Ret (Virus_ctor c, mkIterator (children_seq it) (children_vec_it it) vs), σ).
Proof.
  intros Hf Hc Hvs.
  destruct (virus_set_ok_insert (it_virus_set it) c Hvs) as [Hvs' [v Hv]].
  eexists. split; [exact Hvs'|].
  unfold iterator_deref. rewrite Hc. simpl.
  erewrite bind_Ret by reflexivity.
  erewrite bind_Ret by (by apply tick_ret).
  erewrite bind_Ret by (by apply tick_ret).
  erewrite bind_Ret by (by apply tick_ret).
  erewrite bind_Ret by (by apply tick_ret).
  rewrite !get_id_ctor, Hv. simpl.
  erewrite bind_Ret by reflexivity.
  by rewrite (Hvs' _ _ Hv).
Qed.

Lemma iterate_result n : ∀ l i vs last_vs out σ,
  fuse σ = None → virus_set_ok vs →
  i ≤ length l → length l - i ≤ n →
  iterate n (mkIterator l i vs) (mkIterator l (length l) last_vs) out σ =
  (Ret (out ++ (Virus_ctor <$> drop i l)), σ).
Proof.
  induction n as [|n IH]; intros l i vs last_vs out σ Hf Hvs Hi Hn.
  - assert (i = length l) as -> by lia.
    simpl. unfold iterator_eqb. simpl. rewrite bool_decide_eq_true_2 by done.
    by rewrite drop_all, app_nil_r.
  - simpl. unfold iterator_eqb. simpl. case_bool_decide as Heq.
    { subst i. by rewrite drop_all, app_nil_r. }
    destruct (lookup_lt_is_Some_2 l i) as [c Hc]; [lia|].
    destruct (iterator_deref_result (mkIterator l i vs) σ c Hf Hc Hvs)
      as (vs' & Hvs' & Hderef).
    erewrite bind_Ret by exact Hderef.
    erewrite bind_Ret by (by apply tick_ret).
    unfold iterator_incr. simpl.
    rewrite (IH l (S i) vs' last_vs) by (done || lia).
    rewrite (drop_S _ _ _ Hc). simpl. by rewrite <-app_assoc.
Qed.

(** C8. For a node [id] of the graph, walking from [get_children_begin(id)]
    to [get_children_end(id)] gives the viruses of the children of [id],
    one for each child, in ascending order of the identifiers, and every
    child met lists [id] as a parent; for an absent [id] both functions
    throw [VirusNotFound]. *)
Theorem children_iteration stem σ id :
  reachable stem σ →
  (∀ n, graph σ !! id = Some n →
     result (first <- get_children_begin id ;;
             last <- get_children_end id ;;
             iterate (size (children n)) first last []) σ =
       Ret (Virus_ctor <$> ascending (children n)) ∧
     Sorted id_le (ascending (children n)) ∧
     NoDup (ascending (children n)) ∧
     (∀ c, c ∈ ascending (children n) ↔ c ∈ children n) ∧
     (∀ c, c ∈ children n → ∃ cn, graph σ !! c = Some cn ∧ id ∈ parents cn)) ∧
  (graph σ !! id = None →
     result (get_children_begin id) σ = Throw VirusNotFound ∧
     result (get_children_end id) σ = Throw VirusNotFound).
Proof.
  intros (_ & _ & [_ HC] & _ & Hvs)%reachable_by_well_formed. split.
  - intros n Hid. split_and!.
    + unfold result, bind.
      rewrite get_children_begin_result, Hid, get_children_end_result, Hid.
      rewrite iterate_result; [done..|simpl; lia|].
      rewrite length_ascending. lia.
    + apply Sorted_ascending.
    + apply NoDup_ascending.
    + apply elem_of_ascending.
    + intros c Hc. eapply HC; eauto.
  - intros Hid. unfold result.
    by rewrite get_children_begin_result, get_children_end_result, Hid.
Qed.

End iteration.

(** ** [remove] *)

Section removal.
Context {K : Type} `{IdType K} {Virus : Type} `{!VirusType K Virus}.
Implicit Types (σ : state K Virus) (g : gmap K (Node K)) (id p stem x : K).

Lemma fold_option_mono {A B} (f f' : A → B → option A) l :
  (∀ a b a', f a b = Some a' → f' a b = Some a') →
  ∀ a a', fold_option f l a = Some a' → fold_option f' l a = Some a'.
Proof. intros Hf a a'. by apply fold_option_impl. Qed.

(** More fuel does not change what [remove_helper] computes. *)
Lemma cascade_fuel_mono fuel : ∀ fuel' live g x g',
  fuel ≤ fuel' → cascade fuel live g x = Some g' →
  cascade fuel' live g x = Some g'.
Proof.
  induction fuel as [|fuel IH]; intros fuel' live g x g' Hle Hrun; [done|].
  destruct fuel' as [|fuel']; [lia|]. simpl in *.
  destruct (g !! x) as [n|]; [|done]. simpl in *.
  destruct (fold_option _ (ascending (parents n)) g) as [g1|]; [|done].
  simpl in *. destruct (g1 !! x); [|done]. simpl in *.
  destruct (fold_option _ (ascending (children n)) g1) as [g2|] eqn:H2;
    [|done].
  simpl in *. erewrite fold_option_mono.
  3: exact H2.
  1: done.
  intros a b a' Hab. cbv beta in Hab |- *.
  destruct (a !! b) as [cn|]; simpl in *; [|done].
  case_bool_decide; [|done]. apply IH; [lia|done].
Qed.

Lemma doomed_inv x g k :
  doomed x g k →
  k = x ∨ ∃ n, g !! k = Some n ∧ parents n ≠ ∅ ∧
               ∀ p, p ∈ parents n → doomed x g p.
Proof. destruct 1; eauto 10. Qed.

(** A node without parents is not removed with another node. *)
Lemma not_doomed_root x g k n :
  g !! k = Some n → parents n = ∅ → k ≠ x → ¬ doomed x g k.
Proof.
  intros Hk Hroot Hne [?|(n' & Hk' & Hnon & _)]%doomed_inv; [done|].
  congruence.
Qed.

(** A node with a parent that stays is not removed with another node. *)
Lemma not_doomed_child x g c cn p :
  g !! c = Some cn → c ≠ x → p ∈ parents cn →
  ¬ doomed x g p → ¬ doomed x g c.
Proof.
  intros Hc Hne Hp Hstay [?|(n' & Hc' & _ & Hall)]%doomed_inv; [done|].
  apply Hstay, Hall. congruence.
Qed.

(** C3 (amended). In a state reached from the constructor, [remove(x)]
    returns when [x] is present, is not the stem and is not its own only
    parent, the user code throws nothing and the recursion may go as deep
    as there are nodes.  After [remove(x)] has returned: [exists(x)] is
    false; no node lists [x] as a parent or as a child; a node whose only
    parent was [x] is gone; every node but the stem still has a parent; a
    node that stays has the identifier it had and has lost, from its
    parents and from its children, the removed nodes and nothing else; no
    node has appeared; and a node without parents, other than [x], stays.
    When [x] was not its own only parent, the nodes that are gone are
    [x] and, in turn, every node that had parents all of which are gone
    ([doomed]), and no other: a child of [x], or any other node, with a
    parent that is not one of these stays, keeps that parent and has lost
    [x]. *)
Theorem remove_postcondition stem σ fuel x :
  reachable stem σ →
  (is_Some (graph σ !! x) → x ≠ stem →
   (∀ n, graph σ !! x = Some n → parents n ≠ {[x]}) →
   size (graph σ) ≤ fuel →
   result (remove fuel x) σ = Ret tt) ∧
  ∀ f σ', remove fuel x (with_fuse f σ) = (Ret tt, σ') →
    result (exists_ x) σ' = Ret false ∧
    virus_set σ' = virus_set σ ∧ stem_id σ' = stem_id σ ∧
    (∀ k n, graph σ' !! k = Some n → (x ∉ parents n) ∧ (x ∉ children n)) ∧
    (∀ c cn, graph σ !! c = Some cn → parents cn = {[x]} →
       graph σ' !! c = None) ∧
    non_stem_has_parent stem (graph σ') ∧
    (∀ k n n', graph σ !! k = Some n → graph σ' !! k = Some n' →
       virus n' = virus n ∧
       (∀ p, p ∈ parents n' ↔ p ∈ parents n ∧ is_Some (graph σ' !! p)) ∧
       (∀ c, c ∈ children n' ↔ c ∈ children n ∧ is_Some (graph σ' !! c))) ∧
    (∀ k, is_Some (graph σ' !! k) → is_Some (graph σ !! k)) ∧
    (∀ k n, graph σ !! k = Some n → k ≠ x → parents n = ∅ →
       is_Some (graph σ' !! k)) ∧
    ((∀ n, graph σ !! x = Some n → parents n ≠ {[x]}) →
     (∀ k, is_Some (graph σ !! k) →
        graph σ' !! k = None ↔ doomed x (graph σ) k) ∧
     (∀ c cn p, graph σ !! c = Some cn → c ≠ x → p ∈ parents cn →
        ¬ doomed x (graph σ) p →
        ∃ cn', graph σ' !! c = Some cn' ∧ p ∈ parents cn' ∧
               x ∉ parents cn') ∧
     (∀ c cn p, graph σ !! c = Some cn → c ≠ x → p ∈ parents cn →
        is_Some (graph σ' !! p) → is_Some (graph σ' !! c))).
Proof.
  intros (Hstem & Hkv & Hsym & Hnp & _)%reachable_by_well_formed. split.
  { intros [xn Hx] Hxs Hself Hfuel. destruct Hsym as [HP HC].
    destruct (cascade_returns fuel ∅ (graph σ) (graph σ) x)
      as (g' & Hrun & _);
      [done|apply shrinks_refl|by apply parents_linked_in_empty
      |by apply children_linked_in_empty|set_solver|eauto|done|
      |].
    - by rewrite difference_empty_L, size_dom.
    - destruct (remove_result fuel x σ) as (e & _ & Hres). unfold result.
      rewrite Hres, Hx, Hrun. rewrite decide_False by congruence. done. }
  intros f σ' Hr.
  apply remove_spec in Hr
    as [(e & ? & _)|(_ & [xn Hx] & _ & g' & f' & Hrun & ->)]; [done|].
  simpl in *.
  destruct (cascade_top _ _ _ _ Hkv Hsym Hrun) as (Hev & Hgone & [HP' HC']).
  destruct Hev as (Hs & Ho & Hv & Hkp & Hkc).
  assert (∀ k n n', graph σ !! k = Some n → g' !! k = Some n' →
       virus n' = virus n ∧
       (∀ p, p ∈ parents n' ↔ p ∈ parents n ∧ is_Some (g' !! p)) ∧
       (∀ c, c ∈ children n' ↔ c ∈ children n ∧ is_Some (g' !! c)))
    as Hsets.
  { intros k n n' Hk Hk'. destruct (Hs _ _ Hk') as (n0 & ? & Hsc & Hsp & Hvi).
    simplify_eq. split_and!; [done| |].
    - intros p. split.
      + intros Hin. destruct (HP' _ _ _ Hk' Hin) as (? & ? & _). eauto.
      + intros [Hin Hp]. eapply Hkp; eauto.
        intros ->%elem_of_singleton. rewrite Hgone in Hp. by destruct Hp.
    - intros c. split.
      + intros Hin. destruct (HC' _ _ _ Hk' Hin) as (? & ? & _). eauto.
      + intros [Hin Hc]. eapply Hkc; eauto.
        intros ->%elem_of_singleton. rewrite Hgone in Hc. by destruct Hc. }
  split_and!.
  - rewrite exists_result. simpl. rewrite Hgone.
    by rewrite bool_decide_eq_false_2 by by intros [? ?].
  - done.
  - done.
  - intros k n Hk. split; intros Hin.
    + destruct (HP' _ _ _ Hk Hin) as (? & ? & _). congruence.
    + destruct (HC' _ _ _ Hk Hin) as (? & ? & _). congruence.
  - intros c cn Hc Hpar. destruct (g' !! c) as [cn'|] eqn:Hc'; [|done].
    destruct (Hs _ _ Hc') as (cn0 & ? & _ & Hsub & _). simplify_eq.
    assert (parents cn' = ∅) as Hemp.
    { apply leibniz_equiv. intros p. split; [|set_solver]. intros Hin.
      destruct (HP' _ _ _ Hc' Hin) as (? & ? & _).
      assert (p = x) as -> by set_solver. congruence. }
    rewrite (Ho _ _ _ Hc Hc' Hemp) in Hpar. set_solver.
  - eapply evolves_non_stem_has_parent; [|done].
    by split_and!.
  - done.
  - intros k [n' Hk']. destruct (Hs _ _ Hk') as (n & ? & _). eauto.
  - intros k n Hk Hkx Hroot. apply (Hv _ _ Hk Hroot). set_solver.
  - intros Hself. destruct Hsym as [HP HC].
    destruct (cascade_exact fuel x ∅ (graph σ) (graph σ) x g')
      as (_ & _ & HR & _ & HD);
      [done|done|apply shrinks_refl|by apply parents_linked_in_empty
      |by apply children_linked_in_empty|set_solver|done| |constructor
      |set_solver| |done|].
    { intros k n0 n q ? ? ?. simplify_eq. by left. }
    { intros k [? ?] ?. congruence. }
    assert (∀ k, doomed x (graph σ) k → g' !! k = None) as Hdoomed.
    { intros k Hk. induction Hk as [|c cn Hc Hnon _ IHp]; [done|].
      destruct (g' !! c) as [cn'|] eqn:Hc'; [|done]. exfalso.
      apply Hnon, (Ho _ _ _ Hc Hc'). apply leibniz_equiv. intros p.
      split; [|set_solver]. intros Hin.
      apply (Hsets _ _ _ Hc Hc') in Hin as [Hin [? Hp]].
      rewrite (IHp _ Hin) in Hp. done. }
    assert (∀ k, is_Some (graph σ !! k) →
              g' !! k = None ↔ doomed x (graph σ) k) as Hiff.
    { intros k Hk. split; [by apply HD|apply Hdoomed]. }
    split_and!.
    + done.
    + intros c cn p Hc Hcx Hp Hstay.
      destruct (HP _ _ _ Hc Hp) as (pn & Hpn & _).
      assert (is_Some (g' !! p)) as Hp'.
      { destruct (g' !! p) eqn:Hgp; [eauto|].
        destruct Hstay. apply Hiff; eauto. }
      assert (is_Some (g' !! c)) as [cn' Hc'].
      { destruct (g' !! c) eqn:Hgc; [eauto|].
        apply Hiff in Hgc; [|eauto].
        by destruct (not_doomed_child _ _ _ _ _ Hc Hcx Hp Hstay). }
      exists cn'. split_and!; [done| |].
      * by apply (Hsets _ _ _ Hc Hc').
      * intros Hin. destruct (HP' _ _ _ Hc' Hin) as (? & ? & _). congruence.
    + intros c cn p Hc Hcx Hp Halive.
      destruct (g' !! c) as [cn'|] eqn:Hc'; [eauto|].
      destruct (HR c cn p Hc ltac:(eauto) Hc' Hcx Hp) as [?|Hnone];
        [set_solver|].
      rewrite Hnone in Halive. by destruct Halive.
Qed.

End removal.

(** ** The constructor and the functions that read *)

Section readers.
Context {K : Type} `{IdType K} {Virus : Type} `{!VirusType K Virus}.
Implicit Types (σ : state K Virus) (g : gmap K (Node K)) (id p stem : K).
Implicit Types (vs : gmap K Virus).

Lemma virus_set_insert_subseteq vs k (v : Virus) :
  vs ⊆ match vs !! k with Some _ => vs | None => <[k := v]> vs end.
Proof.
  destruct (vs !! k) eqn:Hk; [done|]. by apply insert_subseteq.
Qed.

(** What [operator[]] does to the cache. *)
Lemma subscript_cache_spec id σ r σ' :
  subscript id σ = (r, σ') →
  virus_set σ ⊆ virus_set σ' ∧
  ∀ v, r = Ret v →
    ∃ n, graph σ !! id = Some n ∧
      virus_set σ' !! get_id (Virus_ctor (virus n)) = Some v.
Proof.
  intros Hr. unfold subscript in Hr. minv Hr; tidy; simpl.
  all: split; [done || apply virus_set_insert_subseteq|].
  all: intros v' [= <-] || (intros v' ?; simplify_eq).
  all: eauto.
Qed.

Lemma subscript_cached id σ n v :
  fuse σ = None → graph σ !! id = Some n →
  virus_set σ !! get_id (Virus_ctor (virus n)) = Some v →
  subscript id σ = (Ret v, σ).
Proof.
  intros Hf Hn Hv. unfold subscript.
  erewrite bind_Ret by reflexivity.
  erewrite bind_Ret by (by apply tick_ret). rewrite Hn.
  erewrite bind_Ret by (by apply tick_ret).
  erewrite bind_Ret by reflexivity.
  erewrite bind_Ret by (by apply tick_ret).
  rewrite Hv.
  erewrite bind_Ret by reflexivity.
  assert (with_virus_set (virus_set σ) σ = σ) as -> by by destruct σ.
  erewrite bind_Ret by (by apply tick_ret).
  erewrite bind_Ret by reflexivity.
  erewrite bind_Ret by (by apply tick_ret).
  by rewrite Hv.
Qed.

Lemma subscript_absent id σ :
  fuse σ = None → graph σ !! id = None →
  subscript id σ = (Throw VirusNotFound, σ).
Proof.
  intros Hf Hid. unfold subscript.
  erewrite bind_Ret by reflexivity.
  erewrite bind_Ret by (by apply tick_ret).
  by rewrite Hid.
Qed.

(** X1. The constructor leaves a graph whose only node is the stem: the
    stem exists and nothing else does, [get_stem_id] gives the stem, the
    stem has no parent and no child, it cannot be removed, and the
    functions that need a node throw [VirusNotFound] for every other
    identifier. *)
Theorem constructor_postcondition stem id :
  let σ := construct (Virus:=Virus) stem in
  result (exists_ id) σ = Ret (bool_decide (id = stem)) ∧
  result get_stem_id σ = Ret stem ∧
  result (get_parents stem) σ = Ret [] ∧
  result (first <- get_children_begin stem ;;
          last <- get_children_end stem ;;
          iterate 0 first last []) σ = Ret [] ∧
  (∀ fuel, result (remove fuel stem) σ = Throw TriedToRemoveStemVirus) ∧
  (id ≠ stem →
     result (get_parents id) σ = Throw VirusNotFound ∧
     result (subscript id) σ = Throw VirusNotFound ∧
     result (get_children_begin id) σ = Throw VirusNotFound ∧
     result (connect id stem) σ = Throw VirusNotFound ∧
     ∀ fuel, result (remove fuel id) σ = Throw VirusNotFound).
Proof.
  intros σ. split_and!.
  - rewrite exists_result. simpl. f_equal.
    destruct (decide (id = stem)) as [->|Hne].
    + by rewrite lookup_singleton_eq, !bool_decide_eq_true_2.
    + rewrite lookup_singleton_ne by done.
      rewrite !bool_decide_eq_false_2; [done..|]. by intros [? ?].
  - done.
  - rewrite get_parents_result. simpl. rewrite lookup_singleton_eq. simpl.
    by rewrite ascending_empty.
  - assert (graph σ !! stem = Some (mkNode ∅ ∅ stem)) as Hstem
      by apply lookup_singleton_eq.
    unfold result, bind.
    rewrite get_children_begin_result, Hstem, get_children_end_result, Hstem.
    simpl. by rewrite ascending_empty.
  - intros fuel. destruct (remove_result fuel stem σ) as (e & _ & Hres).
    unfold result. rewrite Hres. simpl.
    by rewrite lookup_singleton_eq, decide_True.
  - intros Hne.
    assert (graph σ !! id = None) as Hid by by apply lookup_singleton_ne.
    split_and!.
    + by rewrite get_parents_result, Hid.
    + unfold result. by rewrite subscript_absent.
    + unfold result. by rewrite get_children_begin_result, Hid.
    + unfold result. by rewrite connect_result, Hid.
    + intros fuel. destruct (remove_result fuel id σ) as (e & _ & Hres).
      unfold result. by rewrite Hres, Hid.
Qed.

(** X2. The functions that read ([exists], [get_stem_id], [get_parents],
    [get_children_begin], [get_children_end]) change no member, whatever
    they return or throw and wherever the user code throws.  [operator[]]
    changes neither the graph nor the stem; it only adds to the cache of
    viruses, also when it throws. *)
Theorem reading_calls_change_nothing σ id :
  (∀ r σ', exists_ id σ = (r, σ') → members σ' = members σ) ∧
  (∀ r σ', get_stem_id σ = (r, σ') → members σ' = members σ) ∧
  (∀ r σ', get_parents id σ = (r, σ') → members σ' = members σ) ∧
  (∀ r σ', get_children_begin id σ = (r, σ') → members σ' = members σ) ∧
  (∀ r σ', get_children_end id σ = (r, σ') → members σ' = members σ) ∧
  (∀ r σ', subscript id σ = (r, σ') →
     graph σ' = graph σ ∧ stem_id σ' = stem_id σ ∧
     virus_set σ ⊆ virus_set σ').
Proof.
  split_and!; intros r σ' Hr.
  - by apply quiet_exists in Hr as [f ->].
  - by apply quiet_get_stem_id in Hr as [f ->].
  - by apply quiet_get_parents in Hr as [f ->].
  - by apply quiet_get_children_begin in Hr as [f ->].
  - by apply quiet_get_children_end in Hr as [f ->].
  - destruct (subscript_spec _ _ _ _ Hr) as (? & ? & _).
    destruct (subscript_cache_spec _ _ _ _ Hr) as [? _]. done.
Qed.

(** X3. In a reachable state [operator[]] gives, for a node [id], the
    virus built from [id], and throws [VirusNotFound] for any other
    identifier (the user code throwing nothing); a virus it has returned
    has the identifier asked for, and asking again gives the same virus
    and changes nothing. *)
Theorem subscript_postcondition stem σ id :
  reachable stem σ →
  (is_Some (graph σ !! id) → result (subscript id) σ = Ret (Virus_ctor id)) ∧
  (graph σ !! id = None → result (subscript id) σ = Throw VirusNotFound) ∧
  (∀ f v σ1, subscript id (with_fuse f σ) = (Ret v, σ1) →
     get_id v = id ∧
     subscript id (with_fuse None σ1) = (Ret v, with_fuse None σ1)).
Proof.
  intros (_ & Hkv & _ & _ & Hvs)%reachable_by_well_formed.
  assert (∀ r σ', subscript id (with_fuse None σ) = (r, σ') →
            match r with
            | Ret v => is_Some (graph σ !! id) ∧ v = Virus_ctor id
            | Throw e => e = VirusNotFound ∧ graph σ !! id = None
            end) as Hres.
  { intros r σ' Hr.
    destruct (calm_subscript id (with_fuse None σ) _ _ eq_refl Hr) as [_ Hne].
    destruct (subscript_spec _ _ _ _ Hr) as (_ & _ & Hcase).
    destruct (Hcase Hkv Hvs) as [_ Hr']. destruct r; [done|].
    by destruct Hr' as [->|?]. }
  split_and!.
  - intros [n Hn]. unfold result.
    destruct (subscript id (with_fuse None σ)) as [r σ'] eqn:Hr.
    specialize (Hres _ _ eq_refl). destruct r; simpl in *.
    + by destruct Hres as [_ ->].
    + destruct Hres. congruence.
  - intros Hid. unfold result.
    destruct (subscript id (with_fuse None σ)) as [r σ'] eqn:Hr.
    specialize (Hres _ _ eq_refl). destruct r; simpl in *.
    + destruct Hres as [[? ?] _]. congruence.
    + by destruct Hres as [-> _].
  - intros f v σ1 Hr.
    destruct (subscript_spec _ _ _ _ Hr) as (_ & Hg & Hcase).
    destruct (Hcase Hkv Hvs) as [_ [_ ->]].
    destruct (subscript_cache_spec _ _ _ _ Hr) as [_ Hcache].
    destruct (Hcache _ eq_refl) as (n & Hn & Hv). simpl in *.
    split; [apply get_id_ctor|].
    apply (subscript_cached id (with_fuse None σ1) n); [done| |done].
    simpl. by rewrite Hg.
Qed.

(** X4. In every reachable state [get_stem_id] gives the identifier the
    object was constructed with, every node is stored under the identifier
    it holds in its [virus] member, and every virus in the cache is stored
    under its own identifier. *)
Theorem internal_invariants stem σ :
  reachable stem σ →
  result get_stem_id σ = Ret stem ∧
  (∀ k n, graph σ !! k = Some n → virus n = k) ∧
  (∀ k v, virus_set σ !! k = Some v → get_id v = k).
Proof.
  intros (Hs & Hkv & _ & _ & Hvs)%reachable_by_well_formed. split_and!.
  - unfold result. simpl. by rewrite Hs.
  - exact Hkv.
  - intros k v Hv. rewrite (Hvs _ _ Hv). apply get_id_ctor.
Qed.

End readers.

(** ** Parents, [connect], and what can be thrown *)

Section parents_and_connect.
Context {K : Type} `{IdType K} {Virus : Type} `{!VirusType K Virus}.
Implicit Types (σ : state K Virus) (g : gmap K (Node K)) (id p stem : K).

Lemma push_back_throws {A} (l : list A) : ∀ acc σ e σ',
  for_each push_back l acc σ = (Throw e, σ') → e = ForeignException.
Proof.
  induction l as [|a l IH]; intros acc σ e σ' Hr; simpl in Hr.
  - by minv Hr.
  - apply bind_inv in Hr as [(acc' & σ1 & _ & Hr)|(e' & Ha & [= <-])].
    + eauto.
    + by minv Ha.
Qed.

Lemma get_parents_throws id σ e σ' :
  get_parents id σ = (Throw e, σ') →
  e = ForeignException ∨ e = VirusNotFound ∧ graph σ !! id = None.
Proof.
  intros Hr. unfold get_parents in Hr.
  apply bind_inv in Hr as [(b & σ1 & Hb & Hr)|(e' & Hb & [= <-])];
    minv Hb; tidy; eauto.
  destruct (bool_decide _) eqn:Hid; simpl in Hr; tidy.
  2: { minv Hr. eauto. }
  destruct Hid as [n Hn].
  apply bind_inv in Hr as [(g & σ2 & Hg & Hr)|(e' & Hg & [= <-])];
    minv Hg.
  apply bind_inv in Hr as [(n' & σ2 & Hat & Hr)|(e' & Hat & [= <-])].
  2: { minv Hat; tidy; eauto. }
  apply bind_inv in Hr as [(ps & σ3 & Hcp & Hr)|(e' & Hcp & [= <-])].
  2: { minv Hcp; eauto. }
  apply push_back_throws in Hr. eauto.
Qed.

Lemma get_children_begin_throws id σ e σ' :
  get_children_begin id σ = (Throw e, σ') →
  e = ForeignException ∨ e = VirusNotFound ∧ graph σ !! id = None.
Proof.
  intros Hr. unfold get_children_begin in Hr. minv Hr; tidy; eauto.
Qed.

Lemma get_children_end_throws id σ e σ' :
  get_children_end id σ = (Throw e, σ') →
  e = ForeignException ∨ e = VirusNotFound ∧ graph σ !! id = None.
Proof.
  intros Hr. unfold get_children_end in Hr. minv Hr; tidy; eauto.
Qed.

Lemma exists_throws id σ e σ' :
  exists_ id σ = (Throw e, σ') → e = ForeignException.
Proof. intros Hr. minv Hr; eauto. Qed.

(** X5. In a reachable state [get_parents(id)] gives the parents of a
    node [id] in ascending order, each once; [p] is among them exactly when
    [p] is a node that has [id] as a child; for an absent [id] it throws
    [VirusNotFound]; and where no [connect] has had the stem as the child,
    the stem has no parents. *)
Theorem get_parents_postcondition stem σ id :
  reachable stem σ →
  (∀ n, graph σ !! id = Some n →
     result (get_parents id) σ = Ret (ascending (parents n)) ∧
     Sorted id_le (ascending (parents n)) ∧
     NoDup (ascending (parents n)) ∧
     ∀ p, p ∈ ascending (parents n) ↔
          ∃ pn, graph σ !! p = Some pn ∧ id ∈ children pn) ∧
  (graph σ !! id = None → result (get_parents id) σ = Throw VirusNotFound) ∧
  (reachable_unlinked_stem stem σ → result (get_parents stem) σ = Ret []).
Proof.
  intros (_ & _ & [HP HC] & _)%reachable_by_well_formed. split_and!.
  - intros n Hn. split_and!.
    + by rewrite get_parents_result, Hn.
    + apply Sorted_ascending.
    + apply NoDup_ascending.
    + intros p. rewrite elem_of_ascending. split.
      * intros Hp. exact (HP _ _ _ Hn Hp).
      * intros (pn & Hpn & Hin). destruct (HC _ _ _ Hpn Hin) as (n' & ? & ?).
        by simplify_eq.
  - intros Hid. by rewrite get_parents_result, Hid.
  - intros (n & Hn & Hroot)%reachable_unlinked_stem_is_root.
    by rewrite get_parents_result, Hn, Hroot, ascending_empty.
Qed.

(** X6. [connect(child_id, parent_id)] throws [VirusNotFound] exactly
    when one of the two identifiers is absent, and returns otherwise (the
    user code throwing nothing). *)
Theorem connect_failures σ child_id parent_id :
  result (connect child_id parent_id) σ =
  if bool_decide (is_Some (graph σ !! child_id) ∧
                  is_Some (graph σ !! parent_id))
  then Ret tt else Throw VirusNotFound.
Proof.
  unfold result. rewrite connect_result. case_bool_decide as Hb.
  - by destruct Hb as [[cn ->] [pn ->]].
  - destruct (graph σ !! child_id) as [cn|] eqn:Hc;
      destruct (graph σ !! parent_id) as [pn|] eqn:Hp; try done.
    exfalso. apply Hb. eauto.
Qed.

(** X7. In a reachable state [connect(child_id, parent_id)] on two nodes
    returns unless the user code throws, and once it has returned: the
    same nodes exist as before; [parent_id] has joined the parents of
    [child_id] and [child_id] the children of [parent_id]; and no other
    parent or child set has changed. *)
Theorem connect_postcondition stem σ child_id parent_id :
  reachable stem σ →
  is_Some (graph σ !! child_id) → is_Some (graph σ !! parent_id) →
  result (connect child_id parent_id) σ = Ret tt ∧
  ∀ f σ', connect child_id parent_id (with_fuse f σ) = (Ret tt, σ') →
    (∀ k, result (exists_ k) σ' = result (exists_ k) σ) ∧
    (∃ ps, result (get_parents child_id) σ' = Ret ps ∧ parent_id ∈ ps) ∧
    (∀ k n, graph σ !! k = Some n →
       ∃ n', graph σ' !! k = Some n' ∧
         parents n' = (if decide (k = child_id)
                       then parents n ∪ {[parent_id]} else parents n) ∧
         children n' = (if decide (k = parent_id)
                        then children n ∪ {[child_id]} else children n)).
Proof.
  intros (_ & Hkv & [HP HC] & _)%reachable_by_well_formed [cn Hc] [pn Hp].
  split.
  { unfold result. by rewrite connect_result, Hc, Hp. }
  intros f σ' Hr.
  apply connect_spec in Hr as [(e & ? & _)|(_ & _ & _ & f' & ->)]; [done|].
  simpl.
  assert (∀ k n, graph σ !! k = Some n →
       ∃ n', connected child_id parent_id (graph σ) !! k = Some n' ∧
         parents n' = (if decide (k = child_id)
                       then parents n ∪ {[parent_id]} else parents n) ∧
         children n' = (if decide (k = parent_id)
                        then children n ∪ {[child_id]} else children n))
    as Hlook.
  { intros k n Hk. destruct (decide (parent_id ∈ parents cn)) as [Hin|Hnot].
    - exists n. split.
      { unfold connected. rewrite Hc, Hp.
        by rewrite bool_decide_eq_true_2 by done. }
      destruct (HP _ _ _ Hc Hin) as (pn' & Hpn' & Hcin).
      split; case_decide; simplify_eq; set_solver.
    - rewrite (connected_lookup _ _ _ _ _ _ Hkv Hc Hp Hnot), Hk. simpl.
      eexists. split; [done|]. done. }
  split_and!.
  - intros k. rewrite !exists_result. simpl. f_equal.
    apply bool_decide_ext. split.
    + intros [n' Hn']. destruct (graph σ !! k) as [n|] eqn:Hk; [eauto|].
      exfalso. destruct (connected_cases (graph σ) child_id parent_id)
        as [Heq|(cn' & pn' & Hc' & Hp' & Hnot)].
      * rewrite Heq in Hn'. congruence.
      * rewrite (connected_lookup _ _ _ _ _ _ Hkv Hc' Hp' Hnot), Hk in Hn'.
        done.
    + intros [n Hn]. destruct (Hlook _ _ Hn) as (n' & ? & _). eauto.
  - destruct (Hlook _ _ Hc) as (cn' & Hc' & Hpar & _).
    rewrite decide_True in Hpar by done.
    exists (ascending (parents cn')). split.
    + rewrite get_parents_result. simpl. by rewrite Hc'.
    + apply elem_of_ascending. rewrite Hpar. set_solver.
  - done.
Qed.

(** X8. What the functions throw.  In a reachable state, and however the
    user code behaves, an exception leaving a function of the class is one
    thrown by the user code, or: [VirusNotFound] for an absent identifier
    (in [create], for an absent parent while [id] itself is absent);
    [VirusAlreadyCreated] from [create] for an identifier that is present;
    [TriedToRemoveStemVirus] from [remove] for the stem when it is present;
    or, from [remove] only, [std::out_of_range] (or the end of the
    recursion budget), which needs a node that is its own parent or a
    budget below the number of nodes.  [exists] throws nothing of its
    own. *)
Theorem thrown_exceptions stem σ f e σ' :
  reachable stem σ →
  (∀ id, exists_ id (with_fuse f σ) = (Throw e, σ') → e = ForeignException) ∧
  (∀ id,
     get_parents id (with_fuse f σ) = (Throw e, σ') ∨
     subscript id (with_fuse f σ) = (Throw e, σ') ∨
     get_children_begin id (with_fuse f σ) = (Throw e, σ') ∨
     get_children_end id (with_fuse f σ) = (Throw e, σ') →
     e = ForeignException ∨ e = VirusNotFound ∧ graph σ !! id = None) ∧
  (∀ id p, create id p (with_fuse f σ) = (Throw e, σ') →
     e = ForeignException ∨
     e = VirusAlreadyCreated ∧ is_Some (graph σ !! id) ∨
     e = VirusNotFound ∧ graph σ !! id = None ∧ graph σ !! p = None) ∧
  (∀ id ids, create_multi id ids (with_fuse f σ) = (Throw e, σ') →
     e = ForeignException ∨
     e = VirusAlreadyCreated ∧ is_Some (graph σ !! id) ∨
     e = VirusNotFound ∧ graph σ !! id = None ∧
       Exists (λ p, graph σ !! p = None) ids) ∧
  (∀ child_id parent_id,
     connect child_id parent_id (with_fuse f σ) = (Throw e, σ') →
     e = ForeignException ∨
     e = VirusNotFound ∧
       (graph σ !! child_id = None ∨ graph σ !! parent_id = None)) ∧
  (∀ fuel id, remove fuel id (with_fuse f σ) = (Throw e, σ') →
     e = ForeignException ∨
     e = VirusNotFound ∧ graph σ !! id = None ∨
     e = TriedToRemoveStemVirus ∧ is_Some (graph σ !! id) ∧ id = stem ∨
     (e = OutOfRange ∨ e = StackExhausted) ∧
       ((∃ n, graph σ !! id = Some n ∧ id ∈ parents n) ∨
        fuel < size (graph σ))).
Proof.
  intros (Hs & Hkv & [HP HC] & _ & Hvs)%reachable_by_well_formed. split_and!.
  - intros id Hr. by eapply exists_throws.
  - intros id [Hr|[Hr|[Hr|Hr]]].
    + by apply get_parents_throws in Hr.
    + apply subscript_spec in Hr as (_ & _ & Hcase).
      by destruct (Hcase Hkv Hvs) as [_ ?].
    + by apply get_children_begin_throws in Hr.
    + by apply get_children_end_throws in Hr.
  - intros id p Hr.
    by apply create_spec in Hr as [(e' & [= <-] & _ & ?)|(? & _)].
  - intros id ids Hr.
    by apply create_multi_spec in Hr as [(e' & [= <-] & _ & ?)|(? & _)].
  - intros c p Hr.
    by apply connect_spec in Hr as [(e' & [= <-] & _ & ?)|(? & _)].
  - intros fuel id Hr.
    apply remove_spec in Hr as [(e' & [= <-] & _ & He)|(? & _)]; [|done].
    simpl in He.
    destruct He as [?|[?|[(? & ? & ?)|(He & [n Hn] & Hne & Hnone)]]];
      [eauto|eauto|right; right; left; split_and!; congruence|].
    right. right. right. split; [done|].
    destruct (decide (id ∈ parents n)) as [?|Hself]; [eauto|]. right.
    destruct (decide (fuel < size (graph σ))) as [?|Hfuel]; [done|].
    exfalso.
    destruct (cascade_returns fuel ∅ (graph σ) (graph σ) id) as (g' & Hrun & _);
      [done|apply shrinks_refl|by apply parents_linked_in_empty
      |by apply children_linked_in_empty|set_solver|eauto| | |congruence].
    + intros n' Hn' Heq. simplify_eq. apply Hself. rewrite Heq.
      by apply elem_of_singleton.
    + rewrite difference_empty_L, size_dom. lia.
Qed.

End parents_and_connect.

(** ** [create] with several parents, and [remove] of a single node *)

Section create_and_remove.
Context {K : Type} `{IdType K} {Virus : Type} `{!VirusType K Virus}.
Implicit Types (σ : state K Virus) (g : gmap K (Node K)) (id p stem x k : K).
Implicit Types (ids : list K) (n : Node K).

(** The graph that [create] builds depends on the parents as a set. *)
Lemma created_ext id ids ids' g :
  g !! id = None → Forall (λ p, is_Some (g !! p)) ids →
  (∀ p, p ∈ ids ↔ p ∈ ids') →
  created id ids g = created id ids' g.
Proof.
  intros Hid Hids Hsame.
  assert (Forall (λ p, is_Some (g !! p)) ids') as Hids'.
  { rewrite Forall_forall in Hids |- *. intros p Hp. apply Hids, Hsame, Hp. }
  apply map_eq. intros k. rewrite !created_lookup by done.
  case_decide.
  - do 2 f_equal. unfold viruses_of. apply set_eq. intros v.
    rewrite !elem_of_list_to_set, !list_elem_of_omap.
    split; intros (p & Hp & Hv); exists p; (split; [by apply Hsame|done]).
  - destruct (g !! k) as [n|]; simpl; [|done]. f_equal.
    destruct (decide (k ∈ ids)) as [Hin|Hin].
    + by rewrite decide_True by by apply Hsame.
    + rewrite decide_False; [done|]. by rewrite <-Hsame.
Qed.

(** [remove_helper] on a node none of whose children has it as the only
    parent: the parents forget the child, the children forget the parent,
    and the node goes; nothing is removed with it. *)
Lemma cascade_alone fuel g x n :
  key_is_virus g → symmetric g →
  g !! x = Some n →
  (∀ c cn, c ∈ children n → g !! c = Some cn → size (parents cn) ≠ 1) →
  ∃ g2, cascade (S fuel) g g x = Some (delete x g2) ∧
    ∀ k, g2 !! k =
      (λ nk, mkNode
         (if decide (k ∈ parents n) then children nk ∖ {[x]} else children nk)
         (if decide (k ∈ children n) then parents nk ∖ {[x]} else parents nk)
         (virus nk)) <$> g !! k.
Proof.
  intros Hkv [HP HC] Hx Hmulti. pose proof (Hkv _ _ Hx) as Hvx.
  simpl. rewrite Hx. simpl.
  lazymatch goal with
  | |- context [fold_option ?f (ascending (parents n)) g] =>
      destruct (fold_option_progress f
        (λ _ a, ∀ k, is_Some (a !! k) ↔ is_Some (g !! k))
        (ascending (parents n)) g) as (g1 & H1 & _)
  end.
  { done. }
  { intros done p rest a Hsplit Hdom. cbv beta.
    assert (p ∈ parents n) as Hp
      by (apply elem_of_ascending; rewrite Hsplit; set_solver).
    destruct (HP _ _ _ Hx Hp) as (pn & Hpn & _).
    destruct (proj2 (Hdom x) ltac:(eauto)) as [xn Hxn].
    destruct (proj2 (Hdom p) ltac:(eauto)) as [pa Hpa].
    rewrite Hxn, Hpa. simpl. eexists. split; [done|].
    intros k. rewrite lookup_insert_is_Some, <-Hdom.
    split; [intros [<-|[_ ?]]; eauto|]. intros Hk.
    destruct (decide (p = k)); eauto. }
  rewrite H1. simpl.
  apply (fold_option_impl _ (erase_child x)) in H1; last first.
  { intros a b a' Hab. destruct (a !! x); [|done]. simpl in Hab.
    unfold erase_child. destruct (a !! b); [|done]. simpl in *.
    by rewrite Hvx in Hab. }
  pose proof (erase_children_lookup _ _ _ _ H1) as Hlook.
  rewrite (Hlook x), Hx. simpl.
  assert (NoDup (ascending (children n))) as Hnodup by apply NoDup_ascending.
  lazymatch goal with
  | |- context [fold_option ?f (ascending (children n)) g1] =>
      destruct (fold_option_progress f
        (λ done gi, ∀ k, gi !! k =
           (λ nk, if decide (k ∈ done)
                  then set_parents (parents nk ∖ {[x]}) nk else nk) <$> g1 !! k)
        (ascending (children n)) g1) as (g2 & H2 & Hlook2)
  end.
  { intros k. by destruct (g1 !! k). }
  { intros done c rest gi Hsplit Hgi. cbv beta.
    assert (c ∈ children n) as Hcin
      by (apply elem_of_ascending; rewrite Hsplit; set_solver).
    assert (c ∉ done) as Hfresh.
    { rewrite Hsplit in Hnodup. apply NoDup_app in Hnodup as (_ & Hdisj & _).
      intros Hin. apply (Hdisj _ Hin). left. }
    destruct (HC _ _ _ Hx Hcin) as (cn & Hcn & _).
    assert (∃ cn1, gi !! c = Some cn1 ∧ parents cn1 = parents cn)
      as (cn1 & Hc1 & Hpar).
    { rewrite Hgi, Hlook, Hcn. simpl. rewrite decide_False by done.
      eexists. split; [done|]. by destruct (decide _). }
    rewrite Hc1. simpl.
    rewrite bool_decide_eq_false_2
      by (rewrite Hpar; by eapply Hmulti).
    simpl. rewrite Hvx. eexists. split; [done|].
    intros k. destruct (decide (c = k)) as [<-|Hne].
    - rewrite lookup_insert_eq. pose proof (Hgi c) as Hgc.
      rewrite Hc1 in Hgc. destruct (g1 !! c) as [nc1|]; [|done].
      simpl in *. rewrite decide_False in Hgc by done.
      injection Hgc as ->. by rewrite decide_True by set_solver.
    - rewrite lookup_insert_ne, Hgi by done.
      destruct (g1 !! k) as [nk1|]; simpl; [|done]. f_equal.
      destruct (decide (k ∈ done)).
      + by rewrite decide_True by set_solver.
      + rewrite decide_False; [done|]. set_solver. }
  rewrite H2. simpl. eexists. split; [done|].
  intros k. rewrite Hlook2, Hlook.
  destruct (g !! k) as [[ch ps vi]|]; simpl; [|done]. f_equal.
  unfold set_parents, set_children.
  destruct (decide (k ∈ ascending (children n))) as [Hc|Hc];
    rewrite elem_of_ascending in Hc;
    destruct (decide (k ∈ ascending (parents n))) as [Hp|Hp];
    rewrite elem_of_ascending in Hp;
    repeat case_decide; done.
Qed.

(** X9. In a reachable state [create(id, parent_ids)] with an absent [id]
    and a non-empty sequence of nodes returns unless the user code throws,
    and once it has returned: [id] exists and has no children; its parents
    are the identifiers of the sequence, in ascending order and each once,
    however often and in whatever order they were given; every node of
    the sequence has gained the child [id]; and nothing else has changed. *)
Theorem create_multi_postcondition stem σ id ids :
  reachable stem σ →
  graph σ !! id = None → ids ≠ [] →
  Forall (λ p, is_Some (graph σ !! p)) ids →
  result (create_multi id ids) σ = Ret tt ∧
  ∀ f σ', create_multi id ids (with_fuse f σ) = (Ret tt, σ') →
    result (exists_ id) σ' = Ret true ∧
    result (get_parents id) σ' = Ret (ascending (list_to_set ids)) ∧
    (∃ n', graph σ' !! id = Some n' ∧ children n' = ∅) ∧
    (∀ k, k ≠ id → result (exists_ k) σ' = result (exists_ k) σ) ∧
    (∀ k n, graph σ !! k = Some n →
       ∃ n', graph σ' !! k = Some n' ∧ parents n' = parents n ∧
         children n' = if decide (k ∈ ids) then children n ∪ {[id]}
                       else children n).
Proof.
  intros (_ & Hkv & _)%reachable_by_well_formed Hid Hne Hids. split.
  { unfold result. rewrite create_multi_result, Hid.
    by rewrite decide_True by done. }
  intros f σ' Hr.
  apply create_multi_spec in Hr as [(e & ? & _)|(_ & _ & _ & f' & ->)];
    [done|].
  rewrite bool_decide_eq_false_2 by done. simpl.
  pose proof (created_lookup_new _ _ _ Hkv Hid Hids) as Hnew.
  split_and!.
  - rewrite exists_result. simpl. by rewrite Hnew.
  - rewrite get_parents_result. simpl. by rewrite Hnew.
  - eauto.
  - intros k Hk. rewrite !exists_result. simpl.
    rewrite (created_lookup_old _ _ _ Hkv Hid Hids) by done.
    f_equal. apply bool_decide_ext. by rewrite fmap_is_Some.
  - intros k n Hk. absent_ne.
    rewrite (created_lookup_old _ _ _ Hkv Hid Hids) by done.
    rewrite Hk. simpl. eexists. split; [done|].
    by destruct (decide (k ∈ ids)).
Qed.

(** X10. [create(id, parent_ids)] takes its parents as a set: two
    sequences with the same elements, in any order and with any
    repetitions, give the same outcome and leave the same object. *)
Theorem create_parents_as_a_set σ id ids ids' :
  (∀ p, p ∈ ids ↔ p ∈ ids') →
  create_multi id ids (with_fuse None σ) =
  create_multi id ids' (with_fuse None σ).
Proof.
  intros Hsame. rewrite !create_multi_result.
  destruct (graph σ !! id) as [n|] eqn:Hid; [done|].
  assert (Forall (λ p, is_Some (graph σ !! p)) ids ↔
          Forall (λ p, is_Some (graph σ !! p)) ids') as Hall.
  { rewrite !Forall_forall. split; intros Hp p ?; by apply Hp, Hsame. }
  assert (ids = [] ↔ ids' = []) as Hnil.
  { split; intros ->.
    - destruct ids' as [|p ?]; [done|].
      by destruct (not_elem_of_nil p); apply Hsame; left.
    - destruct ids as [|p ?]; [done|].
      by destruct (not_elem_of_nil p); apply Hsame; left. }
  destruct (decide (Forall _ ids)) as [Hids|Hids].
  - rewrite decide_True by by apply Hall.
    rewrite (bool_decide_ext _ _ Hnil). case_bool_decide; [done|].
    by rewrite (created_ext id ids ids').
  - rewrite decide_False; [done|]. by rewrite <-Hall.
Qed.

(** X11. Removing a node none of whose children is left without a
    parent.  In a reachable state, when every child of the node [x] has
    another parent (as when [x] has no child at all) and [x] is not the
    stem, [remove(x)] returns unless the user code throws; once it has
    returned [x] alone is gone: every other node is still there, with the
    parents and the children it had but [x]. *)
Theorem remove_takes_one stem σ x n fuel :
  reachable stem σ →
  graph σ !! x = Some n → x ≠ stem →
  (∀ c cn, c ∈ children n → graph σ !! c = Some cn → parents cn ≠ {[x]}) →
  result (remove (S fuel) x) σ = Ret tt ∧
  ∀ f σ', remove (S fuel) x (with_fuse f σ) = (Ret tt, σ') →
    result (exists_ x) σ' = Ret false ∧
    ∀ k nk, k ≠ x → graph σ !! k = Some nk →
      ∃ nk', graph σ' !! k = Some nk' ∧
        parents nk' = parents nk ∖ {[x]} ∧
        children nk' = children nk ∖ {[x]}.
Proof.
  intros (Hs & Hkv & Hsym & _)%reachable_by_well_formed Hx Hxs Hother.
  pose proof Hsym as [HP HC].
  destruct (cascade_alone fuel _ _ _ Hkv Hsym Hx) as (g2 & Hrun & Hlook).
  { intros c cn Hc Hcn [p Hp%leibniz_equiv]%size_1_elem_of.
    apply (Hother _ _ Hc Hcn). rewrite Hp. f_equal.
    destruct (HC _ _ _ Hx Hc) as (cn' & ? & Hin). simplify_eq.
    rewrite Hp in Hin. by apply elem_of_singleton in Hin. }
  split.
  { destruct (remove_result (S fuel) x σ) as (e & _ & Hres). unfold result.
    rewrite Hres, Hx, Hrun. by rewrite decide_False by congruence. }
  intros f σ' Hr.
  apply remove_spec in Hr
    as [(e & ? & _)|(_ & _ & _ & g' & f' & Hrun' & ->)]; [done|].
  pose proof (eq_trans (eq_sym Hrun') Hrun) as [= ->]. split.
  - rewrite exists_result. simpl. rewrite lookup_delete_eq.
    by rewrite bool_decide_eq_false_2 by by intros [? ?].
  - intros k nk Hk Hnk. simpl. rewrite lookup_delete_ne by done.
    rewrite Hlook, Hnk. simpl. eexists. split; [done|]. simpl. split.
    + case_decide; [done|]. apply set_eq. intros p. split; [|set_solver].
      intros Hp. apply elem_of_difference. split; [done|].
      intros ->%elem_of_singleton.
      destruct (HP _ _ _ Hnk Hp) as (n' & ? & ?). by simplify_eq.
    + case_decide; [done|]. apply set_eq. intros c. split; [|set_solver].
      intros Hc. apply elem_of_difference. split; [done|].
      intros ->%elem_of_singleton.
      destruct (HC _ _ _ Hnk Hc) as (n' & ? & ?). by simplify_eq.
Qed.



(** X13. [create(id, p)] followed by [connect(id, q)] is
    [create(id, {p, q})]: in a reachable state, for an absent [id] and two
    nodes [p] and [q], both ways return and leave the same object (the
    user code throwing nothing). *)
Theorem create_then_connect stem σ id p q :
  reachable stem σ →
  graph σ !! id = None →
  is_Some (graph σ !! p) → is_Some (graph σ !! q) →
  (create id p ;;; connect id q) (with_fuse None σ) =
  create_multi id [p; q] (with_fuse None σ).
Proof.
  intros (_ & Hkv & _)%reachable_by_well_formed Hid [pn Hp] [qn Hq].
  assert (Forall (λ r, is_Some (graph σ !! r)) [p]) as H1
    by (constructor; eauto).
  assert (Forall (λ r, is_Some (graph σ !! r)) [p; q]) as H2
    by (repeat constructor; eauto).
  unfold bind. rewrite create_result, Hid, Hp.
  rewrite create_multi_result, Hid, decide_True by done.
  rewrite bool_decide_eq_false_2 by done.
  set (g1 := created id [p] (graph σ)).
  assert (g1 !! id = Some (mkNode ∅ (list_to_set [p]) id)) as Hnew
    by apply (created_lookup_new _ _ _ Hkv Hid H1).
  destruct (created_lookup_present _ _ _ Hkv Hid H1 _ _ Hq)
    as (qn1 & Hq1 & _). fold g1 in Hq1.
  pose proof (created_key_is_virus _ _ _ Hkv Hid H1) as Hkv1. fold g1 in Hkv1.
  change (with_fuse None (with_graph g1 σ))
    with (with_fuse None (with_fuse None (with_graph g1 σ))).
  rewrite connect_result. cbn [graph with_graph with_fuse].
  rewrite Hnew, Hq1.
  assert (connected id q g1 = created id [p; q] (graph σ)) as ->;
    [|by destruct σ].
  destruct (decide (q = p)) as [->|Hqp].
  - unfold connected. rewrite Hnew, Hq1. simpl.
    rewrite bool_decide_eq_true_2 by set_solver.
    apply created_ext; [done..|]. set_solver.
  - apply map_eq. intros k.
    rewrite (connected_lookup _ _ _ _ _ _ Hkv1 Hnew Hq1)
      by (simpl; set_solver).
    unfold g1. rewrite !created_lookup by done.
    rewrite !(viruses_of_keys _ _ Hkv) by done.
    destruct (decide (k = id)) as [->|Hk]; simpl.
    + rewrite decide_False by (intros ->; congruence).
      do 2 f_equal. set_solver.
    + destruct (graph σ !! k) as [nk|] eqn:Hnk; simpl; [|done]. f_equal.
      destruct nk as [ch ps vi]. unfold set_children.
      repeat case_decide; simpl; f_equal; set_solver.
Qed.

End create_and_remove.

(** ** Walking back, and [operator->] *)

Section iterator_facts.
Context {K : Type} `{IdType K} {Virus : Type} `{!VirusType K Virus}.
Implicit Types (σ : state K Virus) (g : gmap K (Node K)) (id p stem : K).
Implicit Types (it last : children_iterator K Virus) (vs : gmap K Virus).

Lemma iterate_back_result n : ∀ l i vs first_vs out σ,
  fuse σ = None → virus_set_ok vs →
  i ≤ length l → i ≤ n →
  iterate_back n (mkIterator l i vs) (mkIterator l 0 first_vs) out σ =
  (Ret (out ++ (Virus_ctor <$> reverse (take i l))), σ).
Proof.
  induction n as [|n IH]; intros l i vs first_vs out σ Hf Hvs Hi Hn.
  - assert (i = 0) as -> by lia. simpl. by rewrite app_nil_r.
  - simpl. unfold iterator_eqb. simpl. case_bool_decide as Heq.
    { subst i. simpl. by rewrite app_nil_r. }
    destruct i as [|j]; [done|]. unfold iterator_decr. simpl.
    destruct (lookup_lt_is_Some_2 l j) as [c Hc]; [lia|].
    destruct (iterator_deref_result (mkIterator l j vs) σ c Hf Hc Hvs)
      as (vs' & Hvs' & Hderef).
    erewrite bind_Ret by exact Hderef.
    erewrite bind_Ret by (by apply tick_ret).
    simpl. rewrite (IH l j vs' first_vs) by (done || lia).
    rewrite (take_S_r _ _ _ Hc), reverse_app. simpl.
    by rewrite <-app_assoc.
Qed.

(** X14. The children can be walked backwards: in a reachable state,
    stepping back with [operator--] from [get_children_end(id)] to
    [get_children_begin(id)] and dereferencing after each step gives the
    viruses of the children of [id] in descending order of the
    identifiers, the reverse of the forward walk. *)
Theorem children_iteration_backwards stem σ id n :
  reachable stem σ →
  graph σ !! id = Some n →
  result (first <- get_children_begin id ;;
          last <- get_children_end id ;;
          iterate_back (size (children n)) last first []) σ =
    Ret (Virus_ctor <$> reverse (ascending (children n))) ∧
  result (first <- get_children_begin id ;;
          last <- get_children_end id ;;
          iterate (size (children n)) first last []) σ =
    Ret (Virus_ctor <$> ascending (children n)).
Proof.
  intros (_ & _ & _ & _ & Hvs)%reachable_by_well_formed Hid. split.
  - unfold result, bind.
    rewrite get_children_begin_result, Hid, get_children_end_result, Hid.
    rewrite iterate_back_result; [|done..|rewrite length_ascending; lia].
    by rewrite firstn_all.
  - unfold result, bind.
    rewrite get_children_begin_result, Hid, get_children_end_result, Hid.
    rewrite iterate_result; [done..|simpl; lia|].
    rewrite length_ascending. lia.
Qed.

Lemma iterator_deref_eval it σ c :
  fuse σ = None →
  children_seq it !! children_vec_it it = Some c →
  iterator_deref it σ =
  let k := get_id (Virus_ctor c) in
  let vs := match it_virus_set it !! k with
            | Some _ => it_virus_set it
            | None => <[k := Virus_ctor c]> (it_virus_set it)
            end in
  match vs !! k with
  | Some v =>
      (Ret (v, mkIterator (children_seq it) (children_vec_it it) vs), σ)
  | None => (Throw InvalidDeref, σ)
  end.
Proof.
  intros Hf Hc. unfold iterator_deref. rewrite Hc.
  erewrite bind_Ret by reflexivity.
  erewrite bind_Ret by (by apply tick_ret).
  erewrite bind_Ret by (by apply tick_ret).
  erewrite bind_Ret by (by apply tick_ret).
  erewrite bind_Ret by (by apply tick_ret).
  cbv zeta. by destruct (_ !! get_id (Virus_ctor c)).
Qed.

(** X15. [operator->] gives what [operator*] gives: at every position
    both return the same virus and leave the same cache in the iterator
    (the user code throwing nothing). *)
Theorem iterator_arrow_is_deref it σ :
  iterator_arrow it (with_fuse None σ) = iterator_deref it (with_fuse None σ).
Proof.
  destruct (children_seq it !! children_vec_it it) as [c|] eqn:Hc.
  2: { unfold iterator_arrow, iterator_deref. by rewrite Hc. }
  unfold iterator_arrow. rewrite Hc.
  erewrite bind_Ret by reflexivity.
  erewrite bind_Ret by (by apply tick_ret).
  erewrite bind_Ret by (by apply tick_ret).
  rewrite !(iterator_deref_eval _ _ c) by done. cbv zeta. simpl.
  destruct (it_virus_set it !! get_id (Virus_ctor c)) eqn:Hk.
  - by rewrite !Hk.
  - by rewrite !lookup_insert_eq.
Qed.

End iterator_facts.

(** ** The order of two [connect]s *)

Section connect_composition.
Context {K : Type} `{IdType K} {Virus : Type} `{!VirusType K Virus}.
Implicit Types (σ : state K Virus) (g : gmap K (Node K)) (id p q a b k : K).

(** The graph after [connect], whether the link was there or not. *)
Lemma connected_lookup_total g a p k :
  key_is_virus g → parents_linked g →
  is_Some (g !! a) → is_Some (g !! p) →
  connected a p g !! k =
  (λ n, mkNode
     (if decide (k = p) then children n ∪ {[a]} else children n)
     (if decide (k = a) then parents n ∪ {[p]} else parents n)
     (virus n)) <$> g !! k.
Proof.
  intros Hkv HP [an Ha] [pn Hp].
  destruct (decide (p ∈ parents an)) as [Hin|Hnot].
  - unfold connected. rewrite Ha, Hp, bool_decide_eq_true_2 by done.
    destruct (HP _ _ _ Ha Hin) as (pn' & Hpn' & Hain).
    destruct (g !! k) as [[ch ps vi]|] eqn:Hk; simpl; [|done].
    do 2 f_equal; case_decide; simplify_eq/=; set_solver.
  - by apply (connected_lookup _ _ _ _ an pn).
Qed.

(** X16. Two calls of [connect] can be made in either order: in a
    reachable state, for four nodes, [connect(a, p)] and then
    [connect(b, q)] leaves the object that [connect(b, q)] and then
    [connect(a, p)] leaves (the user code throwing nothing). *)
Theorem connect_commutes stem σ a p b q :
  reachable stem σ →
  is_Some (graph σ !! a) → is_Some (graph σ !! p) →
  is_Some (graph σ !! b) → is_Some (graph σ !! q) →
  (connect a p ;;; connect b q) (with_fuse None σ) =
  (connect b q ;;; connect a p) (with_fuse None σ).
Proof.
  intros (_ & Hkv & [HP HC] & _)%reachable_by_well_formed Ha Hp Hb Hq.
  assert (∀ c r c' r', is_Some (graph σ !! c) → is_Some (graph σ !! r) →
            is_Some (graph σ !! c') → is_Some (graph σ !! r') →
            (connect c r ;;; connect c' r') (with_fuse None σ) =
            (Ret tt, with_fuse None
               (with_graph (connected c' r' (connected c r (graph σ))) σ)))
    as Hrun.
  { intros c r c' r' [cn Hc] [rn Hr] Hc' Hr'. unfold bind.
    rewrite connect_result, Hc, Hr.
    change (with_fuse None (with_graph ?g σ))
      with (with_fuse None (with_fuse None (with_graph g σ))).
    rewrite connect_result. cbn [graph with_graph with_fuse].
    rewrite !connected_lookup_total by eauto.
    destruct Hc' as [? ->], Hr' as [? ->]. simpl. by destruct σ. }
  rewrite !Hrun by done. do 3 f_equal.
  apply map_eq. intros k.
  rewrite !connected_lookup_total;
    try (by apply connected_key_is_virus);
    try (by apply connected_symmetric);
    try (rewrite connected_lookup_total by done; by apply fmap_is_Some);
    try done.
  destruct (graph σ !! k) as [[ch ps vi]|]; simpl; [|done].
  do 2 f_equal; repeat case_decide; set_solver.
Qed.

End connect_composition.

(** * The interface on the instance

    Runs of the class on natural numbers: the theorems above at concrete
    objects, and the objects on which a property stops holding. *)

Lemma mutating_call_is_atomic_witness :
  mutating (CallCreate 1 0) ∧
  exec (CallCreate 1 0) (with_fuse (Some 7) stem_only) =
    (Throw ForeignException, with_fuse None stem_only) ∧
  members (with_fuse None stem_only) = members (with_fuse (Some 7) stem_only).
Proof.
  split; [exact I|]. split; [vm_compute; reflexivity|].
  apply (mutating_call_is_atomic (CallCreate 1 0) (with_fuse (Some 7) stem_only)
           (Throw ForeignException) (with_fuse None stem_only) I).
  vm_compute. reflexivity.
Defined.

Lemma structural_invariants_witness :
  symmetric (graph diamond) ∧ non_stem_has_parent 0 (graph diamond) ∧
  stem_is_root 0 (graph diamond).
Proof.
  destruct (structural_invariants 0 diamond) as [Hany Hunlinked].
  split_and!.
  - apply Hany. unfold diamond, after.
    repeat (eapply reachable_call; [|exact I|apply surjective_pairing]).
    apply reachable_construct.
  - apply Hany. unfold diamond, after.
    repeat (eapply reachable_call; [|exact I|apply surjective_pairing]).
    apply reachable_construct.
  - apply Hunlinked. unfold diamond, after.
    repeat (eapply reachable_call; [| |apply surjective_pairing];
            [|exact (λ F : False, F)]).
    apply reachable_construct.
Defined.

(** After [create(1, 0)], [connect(0, 1)] and [remove(1)], which all
    return, the stem is no longer in the graph. *)
Lemma stem_removed_by_cascade :
  reachable_by_successes 0 stem_gone ∧ graph stem_gone !! 0 = None ∧
  ¬ stem_is_root 0 (graph stem_gone).
Proof.
  split_and!.
  - unfold stem_gone, stem_in_cycle, after.
    repeat (eapply reachable_call; [| |apply surjective_pairing];
            [|vm_compute; reflexivity]).
    apply reachable_construct.
  - vm_compute. reflexivity.
  - intros (n & Hn & _). vm_compute in Hn. discriminate Hn.
Qed.

Lemma remove_postcondition_witness :
  (reachable 0 two_parents ∧
   result (remove 4 1) two_parents = Ret tt ∧
   result (exists_ 1) (after (CallRemove 4 1) two_parents) = Ret false ∧
   result (get_parents 3) two_parents = Ret [1; 2] ∧
   is_Some (graph (after (CallRemove 4 1) two_parents) !! 3)) ∧
  (reachable 0 self_loop ∧
   result (get_parents 1) self_loop = Ret [0; 1] ∧
   result (remove 3 1) self_loop = Ret tt ∧
   is_Some (graph (after (CallRemove 3 1) self_loop) !! 2)).
Proof.
  split.
  - assert (reachable 0 two_parents) as Hreach.
    { unfold two_parents, after.
      repeat (eapply reachable_call; [|exact I|apply surjective_pairing]).
      apply reachable_construct. }
    destruct (remove_postcondition 0 two_parents 4 1 Hreach)
      as [Hreturns Hpost].
    assert (remove 4 1 (with_fuse None two_parents) =
            (Ret tt, after (CallRemove 4 1) two_parents)) as Hrun
      by (vm_compute; reflexivity).
    assert (∀ n, graph two_parents !! 1 = Some n → parents n ≠ {[1]})
      as Hself.
    { intros n Hn Hpar.
      assert (graph two_parents !! 1 = Some (mkNode {[3]} {[0]} 1)) as Hnode
        by (vm_compute; reflexivity).
      rewrite Hnode in Hn. injection Hn as <-.
      apply (f_equal (λ s : gset nat, bool_decide (0 ∈ s))) in Hpar.
      vm_compute in Hpar. discriminate Hpar. }
    destruct (Hpost None _ Hrun)
      as (Hexists & _ & _ & _ & _ & _ & _ & _ & _ & Hexact).
    destruct (Hexact Hself) as (_ & Hstays & _).
    split_and!; [done| |done| |].
    + apply Hreturns; [vm_compute; eexists; reflexivity|lia|exact Hself|].
      vm_compute. lia.
    + vm_compute. reflexivity.
    + assert (¬ doomed 1 (graph two_parents) 0) as H0.
      { apply (not_doomed_root _ _ _ (mkNode {[1; 2]} ∅ 0));
          [vm_compute; reflexivity|reflexivity|lia]. }
      assert (¬ doomed 1 (graph two_parents) 2) as H2.
      { apply (not_doomed_child _ _ _ (mkNode {[3]} {[0]} 2) 0);
          [vm_compute; reflexivity|lia| |exact H0].
        apply (bool_decide_unpack _). vm_compute. exact I. }
      destruct (Hstays 3 (mkNode ∅ {[1; 2]} 3) 2) as (cn' & Hcn' & _);
        [vm_compute; reflexivity|lia| |exact H2|eauto].
      apply (bool_decide_unpack _). vm_compute. exact I.
  - assert (reachable 0 self_loop) as Hreach.
    { unfold self_loop, after.
      repeat (eapply reachable_call; [|exact I|apply surjective_pairing]).
      apply reachable_construct. }
    destruct (remove_postcondition 0 self_loop 3 1 Hreach)
      as [Hreturns Hpost].
    assert (remove 3 1 (with_fuse None self_loop) =
            (Ret tt, after (CallRemove 3 1) self_loop)) as Hrun
      by (vm_compute; reflexivity).
    assert (∀ n, graph self_loop !! 1 = Some n → parents n ≠ {[1]})
      as Hself.
    { intros n Hn Hpar.
      assert (graph self_loop !! 1 = Some (mkNode {[1; 2]} {[0; 1]} 1))
        as Hnode by (vm_compute; reflexivity).
      rewrite Hnode in Hn. injection Hn as <-.
      apply (f_equal (λ s : gset nat, bool_decide (0 ∈ s))) in Hpar.
      vm_compute in Hpar. discriminate Hpar. }
    destruct (Hpost None _ Hrun)
      as (_ & _ & _ & _ & _ & _ & _ & _ & _ & Hexact).
    destruct (Hexact Hself) as (_ & Hstays & _).
    split_and!; [done| | |].
    + vm_compute. reflexivity.
    + apply Hreturns; [vm_compute; eexists; reflexivity|lia|exact Hself|].
      vm_compute. lia.
    + assert (¬ doomed 1 (graph self_loop) 0) as H0.
      { apply (not_doomed_root _ _ _ (mkNode {[1; 2]} ∅ 0));
          [vm_compute; reflexivity|reflexivity|lia]. }
      destruct (Hstays 2 (mkNode ∅ {[0; 1]} 2) 0) as (cn' & Hcn' & _);
        [vm_compute; reflexivity|lia| |exact H0|eauto].
      apply (bool_decide_unpack _). vm_compute. exact I.
Defined.

(** In [diamond] the node [3] is a child of [1] and has the other parent
    [2]; [remove(1)] returns and [3] is gone, with [2], whose only parent
    was [1]. *)
Lemma child_with_other_parent_removed :
  reachable_by_successes 0 diamond ∧
  result (get_parents 3) diamond = Ret [1; 2] ∧
  result (remove 4 1) diamond = Ret tt ∧
  graph (after (CallRemove 4 1) diamond) !! 3 = None.
Proof.
  split_and!.
  - unfold diamond, after.
    repeat (eapply reachable_call; [| |apply surjective_pairing];
            [|vm_compute; reflexivity]).
    apply reachable_construct.
  - vm_compute. reflexivity.
  - vm_compute. reflexivity.
  - vm_compute. reflexivity.
Qed.

(** A node that is its own parent is met again among its children while
    it is being removed.  In [self_parent], [remove(1)] returns and has
    removed [2] although the stem, the other parent of [2], stays. *)
Lemma self_parent_removal_takes_child :
  reachable_by_successes 0 self_parent ∧
  result (get_parents 1) self_parent = Ret [1] ∧
  result (get_parents 2) self_parent = Ret [0; 1] ∧
  result (remove 4 1) self_parent = Ret tt ∧
  graph (after (CallRemove 4 1) self_parent) !! 2 = None ∧
  is_Some (graph (after (CallRemove 4 1) self_parent) !! 0).
Proof.
  split_and!.
  - unfold self_parent, after.
    repeat (eapply reachable_call; [| |apply surjective_pairing];
            [|vm_compute; reflexivity]).
    apply reachable_construct.
  - vm_compute. reflexivity.
  - vm_compute. reflexivity.
  - vm_compute. reflexivity.
  - vm_compute. reflexivity.
  - vm_compute. eexists. reflexivity.
Qed.

(** In [self_parent_first], [remove(1)] removes [2] in the recursive call
    on [1] and then looks [2] up with [map::at]: [std::out_of_range]
    leaves [remove]. *)
Lemma self_parent_removal_out_of_range :
  reachable_by_successes 0 self_parent_first ∧
  result (get_parents 1) self_parent_first = Ret [1] ∧
  result (remove 6 1) self_parent_first = Throw OutOfRange.
Proof.
  split_and!.
  - unfold self_parent_first, after.
    repeat (eapply reachable_call; [| |apply surjective_pairing];
            [|vm_compute; reflexivity]).
    apply reachable_construct.
  - vm_compute. reflexivity.
  - vm_compute. reflexivity.
Qed.

Lemma create_postcondition_witness :
  reachable 0 stem_only ∧ graph stem_only !! 1 = None ∧
  is_Some (graph stem_only !! 0) ∧
  result (create 1 0) stem_only = Ret tt ∧
  result (get_parents 1) (after (CallCreate 1 0) stem_only) = Ret [0].
Proof.
  assert (reachable 0 stem_only) as Hreach by apply reachable_construct.
  assert (graph stem_only !! 1 = None) as Hid by (vm_compute; reflexivity).
  assert (is_Some (graph stem_only !! 0)) as Hp
    by (vm_compute; eexists; reflexivity).
  destruct (create_postcondition 0 stem_only 1 0 Hreach Hid Hp) as [Hret Hpost].
  split_and!; [done..|].
  apply (Hpost None). vm_compute. reflexivity.
Defined.

Lemma create_failures_witness :
  result (create 0 0) stem_only = Throw VirusAlreadyCreated ∧
  result (create_multi 0 [5]) stem_only = Throw VirusAlreadyCreated ∧
  result (create 1 5) stem_only = Throw VirusNotFound ∧
  result (create_multi 1 [0; 5]) stem_only = Throw VirusNotFound ∧
  result (exists_ 1) (after (CallCreateMulti 1 [0; 5]) stem_only) = Ret false.
Proof.
  destruct (create_failures stem_only 0 0 [5]) as (Hpresent & _).
  destruct (create_failures stem_only 1 5 [0; 5])
    as (_ & Hfirst & Hsecond & Hsame).
  destruct Hpresent as [? ?]; [vm_compute; eexists; reflexivity|].
  split_and!; [done..| | |].
  - apply Hfirst; vm_compute; reflexivity.
  - apply Hsecond; [vm_compute; reflexivity|].
    apply Exists_cons_tl, Exists_cons_hd. vm_compute. reflexivity.
  - apply (Hsame None VirusNotFound); [|reflexivity].
    right. vm_compute. reflexivity.
Defined.

Lemma remove_failures_witness :
  result (remove 3 5) diamond = Throw VirusNotFound ∧
  result (remove 3 0) stem_in_cycle = Throw TriedToRemoveStemVirus ∧
  result (remove 3 0) diamond = Throw TriedToRemoveStemVirus ∧
  members (exec (CallRemove 3 1) (with_fuse (Some 9) diamond)).2 =
    members diamond.
Proof.
  destruct (remove_failures diamond 3 5) as (Habsent & _).
  destruct (remove_failures stem_in_cycle 3 0) as (_ & Hstem & _).
  destruct (remove_failures diamond 3 0) as (_ & _ & Hunlinked & _).
  destruct (remove_failures diamond 3 1) as (_ & _ & _ & Hsame).
  split_and!.
  - apply Habsent. vm_compute. reflexivity.
  - apply Hstem; [vm_compute; eexists; reflexivity|vm_compute; reflexivity].
  - apply Hunlinked. unfold diamond, after.
    repeat (eapply reachable_call; [| |apply surjective_pairing];
            [|exact (λ F : False, F)]).
    apply reachable_construct.
  - apply (Hsame (Some 9) ForeignException). vm_compute. reflexivity.
Defined.

(** In [stem_gone], reached by calls that all returned, the stem is
    absent and [remove(stem_id)] throws [VirusNotFound]. *)
Lemma remove_absent_stem_not_found :
  reachable_by_successes 0 stem_gone ∧ stem_id stem_gone = 0 ∧
  result (remove 3 0) stem_gone = Throw VirusNotFound.
Proof.
  split_and!.
  - unfold stem_gone, stem_in_cycle, after.
    repeat (eapply reachable_call; [| |apply surjective_pairing];
            [|vm_compute; reflexivity]).
    apply reachable_construct.
  - reflexivity.
  - vm_compute. reflexivity.
Qed.

Lemma create_without_parents_witness :
  result (create_multi 1 []) stem_only = Ret tt ∧
  members (after (CallCreateMulti 1 []) stem_only) = members stem_only.
Proof.
  destruct (create_without_parents stem_only 1) as (Habsent & _ & Hsame).
  split.
  - apply Habsent. vm_compute. reflexivity.
  - apply (Hsame None (Ret tt)). vm_compute. reflexivity.
Defined.

(** [create(0, {})] on the stem [0] throws. *)
Lemma create_without_parents_present_id :
  result (create_multi 0 []) stem_only = Throw VirusAlreadyCreated.
Proof. vm_compute. reflexivity. Qed.

Lemma children_iteration_witness :
  reachable 0 diamond ∧
  result (first <- get_children_begin 1 ;;
          last <- get_children_end 1 ;;
          iterate 2 first last []) diamond = Ret [2; 3] ∧
  result (get_children_begin 7) diamond = Throw VirusNotFound.
Proof.
  assert (reachable 0 diamond) as Hreach.
  { unfold diamond, after.
    repeat (eapply reachable_call; [|exact I|apply surjective_pairing]).
    apply reachable_construct. }
  destruct (children_iteration 0 diamond 1 Hreach) as [Hpresent _].
  destruct (children_iteration 0 diamond 7 Hreach) as [_ Habsent].
  destruct (Hpresent (mkNode {[2; 3]} {[0]} 1)) as (Hwalk & _);
    [vm_compute; reflexivity|].
  destruct Habsent as [Hbegin _]; [vm_compute; reflexivity|].
  split_and!; [done| |done].
  vm_compute in Hwalk |- *. exact Hwalk.
Defined.

Lemma connect_idempotent_witness :
  is_Some (graph diamond !! 3) ∧ is_Some (graph diamond !! 0) ∧
  members (after (CallConnect 3 0) (after (CallConnect 3 0) diamond)) =
    members (after (CallConnect 3 0) diamond) ∧
  connect 3 1 (with_fuse None diamond) = (Ret tt, with_fuse None diamond).
Proof.
  assert (is_Some (graph diamond !! 3)) as Hc
    by (vm_compute; eexists; reflexivity).
  assert (is_Some (graph diamond !! 0)) as Hp
    by (vm_compute; eexists; reflexivity).
  assert (is_Some (graph diamond !! 1)) as Hp'
    by (vm_compute; eexists; reflexivity).
  destruct (connect_idempotent diamond 3 0 Hc Hp) as (_ & Hsecond & _).
  destruct (connect_idempotent diamond 3 1 Hc Hp') as (_ & _ & Hlinked).
  split_and!; [done..| |].
  - apply (Hsecond None None _ (Ret tt)); vm_compute; reflexivity.
  - apply (Hlinked (mkNode ∅ {[1; 2]} 3)); [vm_compute; reflexivity|].
    apply (bool_decide_unpack _). vm_compute. exact I.
Defined.

Lemma create_overloads_agree_witness :
  create_multi 4 [3] (with_fuse None diamond) =
    create 4 3 (with_fuse None diamond) ∧
  (exec (CallCreate 4 3) (with_fuse (Some 20) diamond)).1 =
    (exec (CallCreateMulti 4 [3]) (with_fuse (Some 30) diamond)).1.
Proof.
  destruct (create_overloads_agree diamond 4 3) as [Hsame Hany].
  split; [done|].
  apply (Hany (Some 20) (Some 30) _ _ _ _
           (surjective_pairing _) (surjective_pairing _)).
  - vm_compute. discriminate.
  - vm_compute. discriminate.
Defined.

Lemma diamond_reachable : reachable 0 diamond.
Proof.
  unfold diamond, after.
  repeat (eapply reachable_call; [|exact I|apply surjective_pairing]).
  apply reachable_construct.
Defined.

Lemma constructor_postcondition_witness :
  5 ≠ 0 ∧ result (exists_ 5) stem_only = Ret false ∧
  result (get_parents 5) stem_only = Throw VirusNotFound.
Proof.
  destruct (constructor_postcondition (Virus:=nat) 0 5)
    as (Hexists & _ & _ & _ & _ & Hother).
  split_and!; [lia|exact Hexists|]. apply Hother. lia.
Defined.

Lemma reading_calls_change_nothing_witness :
  get_parents 3 (with_fuse (Some 2) diamond) =
    (Throw ForeignException, with_fuse None diamond) ∧
  members (with_fuse None diamond) = members (with_fuse (Some 2) diamond).
Proof.
  destruct (reading_calls_change_nothing (with_fuse (Some 2) diamond) 3)
    as (_ & _ & Hparents & _).
  assert (get_parents 3 (with_fuse (Some 2) diamond) =
          (Throw ForeignException, with_fuse None diamond)) as Hrun
    by (vm_compute; reflexivity).
  split; [exact Hrun|]. exact (Hparents _ _ Hrun).
Defined.

Lemma subscript_postcondition_witness :
  reachable 0 diamond ∧
  result (subscript 3) diamond = Ret 3 ∧
  result (subscript 9) diamond = Throw VirusNotFound.
Proof.
  destruct (subscript_postcondition 0 diamond 3 diamond_reachable)
    as (Hpresent & _).
  destruct (subscript_postcondition 0 diamond 9 diamond_reachable)
    as (_ & Habsent & _).
  split_and!; [exact diamond_reachable| |].
  - apply Hpresent. vm_compute. eexists. reflexivity.
  - apply Habsent. vm_compute. reflexivity.
Defined.

Lemma internal_invariants_witness :
  reachable 0 diamond ∧ result get_stem_id diamond = Ret 0.
Proof.
  destruct (internal_invariants 0 diamond diamond_reachable) as (Hstem & _).
  split; [exact diamond_reachable|exact Hstem].
Defined.

Lemma get_parents_postcondition_witness :
  reachable 0 diamond ∧
  graph diamond !! 3 = Some (mkNode ∅ {[1; 2]} 3) ∧
  result (get_parents 3) diamond = Ret [1; 2] ∧
  result (get_parents 7) diamond = Throw VirusNotFound.
Proof.
  destruct (get_parents_postcondition 0 diamond 3 diamond_reachable)
    as (Hpresent & _).
  destruct (get_parents_postcondition 0 diamond 7 diamond_reachable)
    as (_ & Habsent & _).
  assert (graph diamond !! 3 = Some (mkNode ∅ {[1; 2]} 3)) as Hnode
    by (vm_compute; reflexivity).
  destruct (Hpresent _ Hnode) as (Hres & _).
  split_and!; [exact diamond_reachable|exact Hnode| |].
  - vm_compute in Hres |- *. exact Hres.
  - apply Habsent. vm_compute. reflexivity.
Defined.

Lemma connect_postcondition_witness :
  reachable 0 diamond ∧
  is_Some (graph diamond !! 3) ∧ is_Some (graph diamond !! 0) ∧
  result (connect 3 0) diamond = Ret tt ∧
  result (exists_ 2) (after (CallConnect 3 0) diamond) =
    result (exists_ 2) diamond.
Proof.
  assert (is_Some (graph diamond !! 3)) as Hc
    by (vm_compute; eexists; reflexivity).
  assert (is_Some (graph diamond !! 0)) as Hp
    by (vm_compute; eexists; reflexivity).
  destruct (connect_postcondition 0 diamond 3 0 diamond_reachable Hc Hp)
    as [Hret Hpost].
  split_and!; [exact diamond_reachable|done..|].
  destruct (Hpost None (after (CallConnect 3 0) diamond)) as (Hsame & _).
  - vm_compute. reflexivity.
  - apply Hsame.
Defined.

Lemma thrown_exceptions_witness :
  reachable 0 diamond ∧
  create 3 9 (with_fuse None diamond) =
    (Throw VirusAlreadyCreated, with_fuse None diamond) ∧
  is_Some (graph diamond !! 3).
Proof.
  assert (create 3 9 (with_fuse None diamond) =
          (Throw VirusAlreadyCreated, with_fuse None diamond)) as Hrun
    by (vm_compute; reflexivity).
  destruct (thrown_exceptions 0 diamond None VirusAlreadyCreated
              (with_fuse None diamond) diamond_reachable)
    as (_ & _ & Hcreate & _).
  split_and!; [exact diamond_reachable|exact Hrun|].
  destruct (Hcreate 3 9 Hrun) as [Hf|[[_ Hsome]|[Hn _]]];
    [discriminate Hf|exact Hsome|discriminate Hn].
Defined.

Lemma create_multi_postcondition_witness :
  reachable 0 diamond ∧ graph diamond !! 4 = None ∧
  result (create_multi 4 [2; 1; 2]) diamond = Ret tt ∧
  result (get_parents 4) (after (CallCreateMulti 4 [2; 1; 2]) diamond) =
    Ret [1; 2].
Proof.
  assert (graph diamond !! 4 = None) as Hid by (vm_compute; reflexivity).
  assert (Forall (λ p, is_Some (graph diamond !! p)) [2; 1; 2]) as Hids.
  { repeat constructor; vm_compute; eexists; reflexivity. }
  destruct (create_multi_postcondition 0 diamond 4 [2; 1; 2]
              diamond_reachable Hid ltac:(discriminate) Hids) as [Hret Hpost].
  split_and!; [exact diamond_reachable|done..|].
  destruct (Hpost None (after (CallCreateMulti 4 [2; 1; 2]) diamond))
    as (_ & Hparents & _).
  - vm_compute. reflexivity.
  - vm_compute in Hparents |- *. exact Hparents.
Defined.

Lemma create_parents_as_a_set_witness :
  create_multi 4 [1; 2] (with_fuse None diamond) =
  create_multi 4 [2; 1; 1] (with_fuse None diamond).
Proof.
  apply (create_parents_as_a_set diamond 4 [1; 2] [2; 1; 1]).
  intros p. rewrite !elem_of_cons, !elem_of_nil. tauto.
Defined.

Lemma remove_takes_one_witness :
  reachable 0 two_parents ∧
  graph two_parents !! 1 = Some (mkNode {[3]} {[0]} 1) ∧
  result (remove 1 1) two_parents = Ret tt ∧
  is_Some (graph (after (CallRemove 1 1) two_parents) !! 3).
Proof.
  assert (reachable 0 two_parents) as Hreach.
  { unfold two_parents, after.
    repeat (eapply reachable_call; [|exact I|apply surjective_pairing]).
    apply reachable_construct. }
  assert (graph two_parents !! 1 = Some (mkNode {[3]} {[0]} 1)) as Hnode
    by (vm_compute; reflexivity).
  destruct (remove_takes_one 0 two_parents 1 _ 0 Hreach Hnode ltac:(lia))
    as [Hret Hpost].
  { intros c cn Hc Hcn Hpar. simpl in Hc.
    apply elem_of_singleton in Hc. subst c.
    vm_compute in Hcn. injection Hcn as <-.
    assert (2 ∈ ({[1]} : gset nat)) as Hin
      by (rewrite <-Hpar; apply (bool_decide_unpack _); vm_compute; exact I).
    apply elem_of_singleton in Hin. lia. }
  split_and!; [exact Hreach|exact Hnode|exact Hret|].
  destruct (Hpost None (after (CallRemove 1 1) two_parents)) as (_ & Hstay).
  { vm_compute. reflexivity. }
  destruct (Hstay 3 (mkNode ∅ {[1; 2]} 3)) as (n' & Hn' & _);
    [lia|vm_compute; reflexivity|]. eauto.
Defined.


Lemma create_then_connect_witness :
  reachable 0 diamond ∧ graph diamond !! 4 = None ∧
  (create 4 1 ;;; connect 4 2) (with_fuse None diamond) =
    create_multi 4 [1; 2] (with_fuse None diamond).
Proof.
  assert (graph diamond !! 4 = None) as Hid by (vm_compute; reflexivity).
  split_and!; [exact diamond_reachable|exact Hid|].
  apply (create_then_connect 0 diamond 4 1 2 diamond_reachable Hid);
    vm_compute; eexists; reflexivity.
Defined.

Lemma children_iteration_backwards_witness :
  reachable 0 diamond ∧
  graph diamond !! 1 = Some (mkNode {[2; 3]} {[0]} 1) ∧
  result (first <- get_children_begin 1 ;;
          last <- get_children_end 1 ;;
          iterate_back 2 last first []) diamond = Ret [3; 2].
Proof.
  assert (graph diamond !! 1 = Some (mkNode {[2; 3]} {[0]} 1)) as Hnode
    by (vm_compute; reflexivity).
  destruct (children_iteration_backwards 0 diamond 1 _ diamond_reachable Hnode)
    as [Hback _].
  split_and!; [exact diamond_reachable|exact Hnode|].
  vm_compute in Hback |- *. exact Hback.
Defined.

Lemma connect_commutes_witness :
  reachable 0 diamond ∧
  (connect 3 0 ;;; connect 2 0) (with_fuse None diamond) =
  (connect 2 0 ;;; connect 3 0) (with_fuse None diamond).
Proof.
  split; [exact diamond_reachable|].
  apply (connect_commutes 0 diamond 3 0 2 0 diamond_reachable);
    vm_compute; eexists; reflexivity.
Defined.
